(** * Operator learning and predicate invention: a shallow embedding

    This development embeds the learning core of the [predicators]
    repository:

    - [src/operator_learning.py]: transition generation, partitioning by
      lifted effects, precondition learning, sampler data and the learned
      rejection sampler;
    - [src/approaches/iterative_invention_approach.py]: the predicate
      invention loop;
    - [src/approaches/interactive_learning_approach.py]: the sparse teacher
      dataset.

    Python sets of atoms are [gset]s, dictionaries are [gmap]s (or
    association lists where insertion order is observable), raised
    exceptions and failed assertions are the [None] / error results of the
    embedded functions.  Features and scores, which the code copies and
    compares, are rationals ([Q]); the label ratio of the teacher, which the
    code multiplies and truncates, is a binary64 float ([spec_float]).

    The collaborators that live outside the embedded files ([utils.unify],
    the numpy generators, the MLP classifier and the Gaussian regressor) are
    the fields of the class [Collaborators]; the small helpers of [structs] and [utils] the code
    calls are written out from their description. *)

From Stdlib Require Import QArith Qround Floats.SpecFloat.
From stdpp Require Import gmap strings list fin_maps sorting pretty.
Close Scope Q_scope.

Set Default Proof Using "Type".

(** ** Data model (structs) *)

#[global] Instance Q_eq_dec : EqDecision Q.
Proof. solve_decision. Defined.

(** A [Type] of the source: a name and its feature names. *)
Record Ty := mkTy { type_name : string; feature_names : list string }.

#[global] Instance Ty_eq_dec : EqDecision Ty.
Proof. solve_decision. Defined.
#[global] Instance Ty_countable : Countable Ty.
Proof.
  refine (inj_countable' (λ t, (type_name t, feature_names t))
                         (λ p, mkTy p.1 p.2) _).
  by intros [].
Defined.

(** Objects and variables share their representation (a name and a type)
    and differ by role. *)
Record Object := mkObject { obj_name : string; obj_type : Ty }.
Record Var := mkVar { var_name : string; var_type : Ty }.

#[global] Instance Object_eq_dec : EqDecision Object.
Proof. solve_decision. Defined.
#[global] Instance Object_countable : Countable Object.
Proof.
  refine (inj_countable' (λ o, (obj_name o, obj_type o))
                         (λ p, mkObject p.1 p.2) _).
  by intros [].
Defined.
#[global] Instance Var_eq_dec : EqDecision Var.
Proof. solve_decision. Defined.
#[global] Instance Var_countable : Countable Var.
Proof.
  refine (inj_countable' (λ o, (var_name o, var_type o))
                         (λ p, mkVar p.1 p.2) _).
  by intros [].
Defined.

(** A predicate is identified by its name and argument types; its
    classifier is no part of its identity, so the classifiers are kept in a
    table ([Classifiers]) passed next to the predicates. *)
Record Predicate := mkPredicate { pred_name : string; pred_types : list Ty }.

#[global] Instance Predicate_eq_dec : EqDecision Predicate.
Proof. solve_decision. Defined.
#[global] Instance Predicate_countable : Countable Predicate.
Proof.
  refine (inj_countable' (λ p, (pred_name p, pred_types p))
                         (λ p, mkPredicate p.1 p.2) _).
  by intros [].
Defined.

Record GroundAtom := mkGroundAtom
  { predicate : Predicate; objects : list Object }.
Record LiftedAtom := mkLiftedAtom
  { lpredicate : Predicate; variables : list Var }.

#[global] Instance GroundAtom_eq_dec : EqDecision GroundAtom.
Proof. solve_decision. Defined.
#[global] Instance GroundAtom_countable : Countable GroundAtom.
Proof.
  refine (inj_countable' (λ a, (predicate a, objects a))
                         (λ p, mkGroundAtom p.1 p.2) _).
  by intros [].
Defined.
#[global] Instance LiftedAtom_eq_dec : EqDecision LiftedAtom.
Proof. solve_decision. Defined.
#[global] Instance LiftedAtom_countable : Countable LiftedAtom.
Proof.
  refine (inj_countable' (λ a, (lpredicate a, variables a))
                         (λ p, mkLiftedAtom p.1 p.2) _).
  by intros [].
Defined.

(** A feature vector and a state: each object's features. *)
Abbreviation Array := (list Q).
Abbreviation State := (gmap Object (list Q)).

(** The classifier of every predicate: [holds cls p s objs]. *)
Definition Classifiers := Predicate → State → list Object → bool.

(** A bounded box of continuous parameters. *)
Record Box := mkBox { low : list Q; high : list Q }.

#[global] Instance Box_eq_dec : EqDecision Box.
Proof. solve_decision. Defined.

Record ParameterizedOption := mkParameterizedOption
  { opt_name : string; opt_types : list Ty; params_space : Box }.

#[global] Instance ParameterizedOption_eq_dec : EqDecision ParameterizedOption.
Proof. solve_decision. Defined.

(** A ground option ([_Option]): its parent, its objects, its parameters. *)
Record GroundOption := mkGroundOption
  { parent : ParameterizedOption; opt_objects : list Object; params : Array }.

Record Action := mkAction { arr : Array; act_option : option GroundOption }.

Abbreviation ActionTrajectory := (list State * list Action)%type.
Abbreviation Dataset := (list ActionTrajectory).

(** The seven components of a transition, in the order of the tuple. *)
Record Transition := mkTransition
  { t_state : State;
    t_next_state : State;
    t_atoms : gset GroundAtom;
    t_option : GroundOption;
    t_next_atoms : gset GroundAtom;
    t_add_effects : gset GroundAtom;
    t_delete_effects : gset GroundAtom }.

Abbreviation ObjToVarSub := (gmap Object Var).
Abbreviation VarToObjSub := (gmap Var Object).

(** ** Helpers of [utils] and [structs] *)

(** [dict(zip(keys, values))]: a later pair overrides an earlier one. *)
Definition dict_zip `{Countable K} {V} (ks : list K) (vs : list V) : gmap K V :=
  foldl (λ m kv, <[kv.1 := kv.2]> m) ∅ (zip ks vs).

(** [{v: k for k, v in sub.items()}]. *)
Definition invert_sub (sub : ObjToVarSub) : VarToObjSub :=
  foldl (λ m kv, <[kv.2 := kv.1]> m) ∅ (map_to_list sub).

(** [atom.lift(sub)] and [atom.ground(sub)]: a missing key is a [KeyError]. *)
Definition lift (sub : ObjToVarSub) (a : GroundAtom) : option LiftedAtom :=
  mkLiftedAtom (predicate a) <$> mapM (λ o, sub !! o) (objects a).

Definition ground (sub : VarToObjSub) (a : LiftedAtom) : option GroundAtom :=
  mkGroundAtom (lpredicate a) <$> mapM (λ v, sub !! v) (variables a).

(** A set comprehension [{f(x) for x in xs}] whose body may raise. *)
Definition set_mapM `{Countable A, Countable B}
    (f : A → option B) (xs : gset A) : option (gset B) :=
  list_to_set <$> mapM f (elements xs).

(** [get_object_combinations(objects, types, allow_duplicates=False)]: the
    tuples of objects of the given types, one per position.

    Modelled from the spec: [utils.get_object_combinations] is not among the
    embedded files; the spec asks for every valid object-argument
    combination, with no object used twice in one combination. *)
Fixpoint object_product (objs : list Object) (types : list Ty)
    : list (list Object) :=
  match types with
  | [] => [[]]
  | ty :: types' =>
      o ← filter (λ o, obj_type o = ty) objs;
      (o ::.) <$> object_product objs types'
  end.

Definition get_object_combinations (objs : list Object) (types : list Ty)
    : list (list Object) :=
  filter (λ choice, bool_decide (NoDup choice)) (object_product objs types).

(** [list(state)]: the objects of a state. *)
Definition state_objects (s : State) : list Object := (map_to_list s).*1.

(** [utils.abstract(state, preds)], here [utils_abstract].

    Modelled from the spec: [utils.abstract] is not among the embedded
    files; abstract atoms are computed by applying every predicate's
    classifier to every valid object-argument combination in the state. *)
Definition utils_abstract (cls : Classifiers) (s : State) (preds : gset Predicate)
    : gset GroundAtom :=
  list_to_set (
    p ← elements preds;
    choice ← get_object_combinations (state_objects s) (pred_types p);
    if cls p s choice then [mkGroundAtom p choice] else []).

(** [sorted(...)] on objects, variables and atoms compares their printed
    form.

    Modelled from the spec: the ordering of [structs] is not among the
    embedded files; the spec asks for a deterministic sort.  Objects and
    variables print as [name:type], atoms as their predicate name followed
    by their arguments. *)
Definition sort_by_key {A} (key : A → string) (l : list A) : list A :=
  merge_sort (λ a b, Is_true (String.leb (key a) (key b))) l.

Definition obj_str (o : Object) : string :=
  obj_name o +:+ ":" +:+ type_name (obj_type o).
Definition var_str (v : Var) : string :=
  var_name v +:+ ":" +:+ type_name (var_type v).
Definition ground_atom_str (a : GroundAtom) : string :=
  pred_name (predicate a) +:+ "(" +:+
  String.concat ", " (obj_str <$> objects a) +:+ ")".

Definition sorted_objects (l : list Object) : list Object := sort_by_key obj_str l.
Definition sorted_vars (l : list Var) : list Var := sort_by_key var_str l.
Definition sorted_ground_atoms (l : list GroundAtom) : list GroundAtom :=
  sort_by_key ground_atom_str l.

(** The objects of a set of ground atoms. *)
Definition atoms_objects (atoms : gset GroundAtom) : gset Object :=
  list_to_set (a ← elements atoms; objects a).

(** The naming [_partition_transitions] gives the objects of a new
    partition: in sorted order, they get the variables [?x0], [?x1], ... of
    their types. *)
Definition naming (objs : gset Object) : ObjToVarSub :=
  let objects_lst := sorted_objects (elements objs) in
  dict_zip objects_lst
           (imap (λ i o, mkVar ("?x" +:+ pretty i) (obj_type o)) objects_lst).

(** [utils.wrap_atom_predicates_ground] / [_lifted]: the same atoms over
    predicates whose names carry the given prefix.

    Modelled from the spec: the two helpers are not among the embedded
    files; each source of atoms gets a distinguishing name prefix. *)
Definition wrap_predicate (prefix : string) (p : Predicate) : Predicate :=
  mkPredicate (prefix +:+ pred_name p) (pred_types p).

Definition wrap_atom_predicates_ground (atoms : gset GroundAtom)
    (prefix : string) : gset GroundAtom :=
  set_map (λ a, mkGroundAtom (wrap_predicate prefix (predicate a)) (objects a))
          atoms.

Definition wrap_atom_predicates_lifted (atoms : gset LiftedAtom)
    (prefix : string) : gset LiftedAtom :=
  set_map (λ a, mkLiftedAtom (wrap_predicate prefix (lpredicate a)) (variables a))
          atoms.

(** [state.vec(objects)]: the objects' features, concatenated. *)
Definition vec (s : State) (objs : list Object) : option Array :=
  mjoin <$> mapM (λ o, s !! o) objs.

(** [utils.powerset(seq, exclude_empty=True)]: the non-empty subsequences,
    by increasing size, as [itertools.combinations] lists them.

    Modelled from the spec: [utils.powerset] is not among the embedded
    files; the spec asks for every non-empty subset of the parameters. *)
Fixpoint combinations {A} (l : list A) (k : nat) : list (list A) :=
  match k, l with
  | 0, _ => [[]]
  | S _, [] => []
  | S k', x :: l' => ((x ::.) <$> combinations l' k') ++ combinations l' k
  end.

Definition powerset {A} (l : list A) (exclude_empty : bool) : list (list A) :=
  n ← seq (if exclude_empty then 1 else 0)
          (S (length l) - (if exclude_empty then 1 else 0));
  combinations l n.

(** [utils.get_all_groundings(atoms, objects)]: every grounding of the
    atoms' variables over the objects, with its substitution.

    Modelled from the spec: [utils.get_all_groundings] is not among the
    embedded files; the spec asks for each valid grounding (substitution)
    of the signature's variables over the object set. *)
Definition lifted_vars (atoms : gset LiftedAtom) : gset Var :=
  list_to_set (a ← elements atoms; variables a).

Definition get_all_groundings (atoms : gset LiftedAtom) (objs : gset Object)
    : option (list (gset GroundAtom * VarToObjSub)) :=
  let sorted_variables := sorted_vars (elements (lifted_vars atoms)) in
  let types := var_type <$> sorted_variables in
  mapM (λ choice,
          let sub := dict_zip sorted_variables choice in
          ground_atoms ← set_mapM (ground sub) atoms;
          Some (ground_atoms, sub))
       (get_object_combinations (sorted_objects (elements objs)) types).

(** [Box.contains]: same shape, every coordinate within its bounds. *)
Fixpoint within (lo hi x : list Q) : bool :=
  match lo, hi, x with
  | [], [], [] => true
  | l :: lo', h :: hi', v :: x' => Qle_bool l v && Qle_bool v h && within lo' hi' x'
  | _, _, _ => false
  end.

Definition contains (space : Box) (x : Array) : bool :=
  within (low space) (high space) x.

(** ** Floating-point numbers

    Python's [float] is IEEE 754 binary64: the Standard Library's
    [spec_float] at precision 53 and exponent bound 1024, whose operations
    round to the nearest float, ties to even. *)
Abbreviation float := spec_float.

Definition prec : Z := 53.
Definition emax : Z := 1024.

(** [float(n)] of an integer, as [n * x] and [x / n] convert [n] for a
    float [x].  The integers converted are lengths and counts of lists,
    far within the range of binary64, beyond which Python raises
    [OverflowError]. *)
Definition float_of_Z (n : Z) : float := binary_normalize prec emax n 0 false.

(** [x * y] and [x / y] on floats. *)
Definition float_mul (x y : float) : float := SFmul prec emax x y.
Definition float_div (x y : float) : float := SFdiv prec emax x y.

(** [int(x)] on a float: truncation towards zero; a NaN raises
    [ValueError] and an infinity [OverflowError]. *)
Definition int_of_float (x : float) : option Z :=
  match x with
  | S754_zero _ => Some 0%Z
  | S754_finite s m e => Some (cond_Zopp s (Z.shiftl (Z.pos m) e))
  | S754_infinity _ | S754_nan => None
  end.

(** ** Settings and collaborators *)

(** The entries of [CFG] the embedded code reads. *)
Record GlobalSettings := mkGlobalSettings
  { min_data_for_operator : Z;
    max_rejection_sampling_tries : Z;
    iterative_invention_accept_score : Q;
    classifier_max_itr_sampler : nat;
    classifier_max_itr_predicate : nat;
    teacher_dataset_label_ratio : float;
    seed : Z }.

(** What the embedded files import and use as black boxes. *)
Class Collaborators := mkCollaborators
  { Rng : Type;
    Model : Type;
    Regressor : Type;
    CFG : GlobalSettings;
    (* utils *)
    action_to_option_trajectory :
      ActionTrajectory → option (list State * list GroundOption);
    unify : gset GroundAtom → gset LiftedAtom → bool * ObjToVarSub;
    (* structs: the name of [get_negation]'s predicate *)
    negation_name : string → string;
    (* numpy generators *)
    default_rng : Z → Rng;
    permutation : Rng → nat → list nat * Rng;
    choice : Rng → nat → nat → option (list nat * Rng);
    (* models *)
    MLPClassifier_fit : nat → nat → list Array → list bool → Model;
    classify : Model → Array → bool;
    NeuralGaussianRegressor_fit : list Array → list Array → Regressor;
    predict_sample : Regressor → Array → Rng → Array * Rng;
    (* gym: [Box.sample], drawing from the space's own generator *)
    box_sample : Box → Rng → Array }.

(** ** Small control helpers *)

(** A [for] loop over [l] threading an accumulator, aborted by the first
    iteration that raises. *)
Fixpoint foldlM {A B} (f : A → B → option A) (a : A) (l : list B) : option A :=
  match l with
  | [] => Some a
  | x :: l' => a' ← f a x; foldlM f a' l'
  end.

(** [enumerate(l)]. *)
Definition enumerate {A} (l : list A) : list (nat * A) :=
  zip (seq 0 (length l)) l.

(** [d[k].append(v)] on a [defaultdict(list)], keys in insertion order. *)
Fixpoint dict_append {K V} `{EqDecision K}
    (d : list (K * list V)) (k : K) (v : V) : list (K * list V) :=
  match d with
  | [] => [(k, [v])]
  | (k', vs) :: d' =>
      if decide (k' = k) then (k', vs ++ [v]) :: d'
      else (k', vs) :: dict_append d' k v
  end.

Abbreviation TransitionsByOption :=
  (list (ParameterizedOption * list Transition)).

(** ** [operator_learning.py] *)

(** The samplers an operator can carry: [_RandomSampler(option).sampler] or
    [_LearnedSampler(classifier, regressor, variables, option).sampler]. *)
Inductive Sampler `{Collaborators} :=
  | RandomSampler (_param_option : ParameterizedOption)
  | LearnedSampler (_classifier : Model) (_regressor : Regressor)
                   (_variables : list Var) (_param_option : ParameterizedOption).

Record Operator `{Collaborators} := mkOperator
  { op_name : string;
    parameters : list Var;
    preconditions : gset LiftedAtom;
    add_effects : gset LiftedAtom;
    delete_effects : gset LiftedAtom;
    op_option : ParameterizedOption;
    option_vars : list Var;
    _sampler : Sampler }.

Arguments mkOperator {_} _ _ _ _ _ _ _ _.

(** One entry of the four parallel lists [_partition_transitions] keeps
    ([option_args], [add_effects], [delete_effects], [partitions]), which
    always have the same length. *)
Record Partition := mkPartition
  { part_option_args : list Var;
    part_add_effects : gset LiftedAtom;
    part_delete_effects : gset LiftedAtom;
    part_transitions : list (Transition * ObjToVarSub) }.

Abbreviation SamplerDatum := (State * VarToObjSub * GroundOption)%type.

Section OperatorLearning.
Context `{Collaborators}.

(** [generate_transitions], the loop over the options of one trajectory. *)
Fixpoint transitions_of_options (cls : Classifiers) (predicates : gset Predicate)
    (states : list State) (i : nat) (options : list GroundOption)
    (transitions_by_option : TransitionsByOption)
    : option TransitionsByOption :=
  match options with
  | [] => Some transitions_by_option
  | opt :: options' =>
      s ← states !! i;
      s' ← states !! S i;
      let atoms := utils_abstract cls s predicates in
      let next_atoms := utils_abstract cls s' predicates in
      let add_effects := next_atoms ∖ atoms in
      let delete_effects := atoms ∖ next_atoms in
      let transition :=
        mkTransition s s' atoms opt next_atoms add_effects delete_effects in
      transitions_of_options cls predicates states (S i) options'
        (dict_append transitions_by_option (parent opt) transition)
  end.

Fixpoint generate_transitions_from (cls : Classifiers)
    (predicates : gset Predicate) (dataset : Dataset)
    (transitions_by_option : TransitionsByOption)
    : option TransitionsByOption :=
  match dataset with
  | [] => Some transitions_by_option
  | act_traj :: dataset' =>
      '(states, options) ← action_to_option_trajectory act_traj;
      guard (length states = length options + 1);;
      tbo ← transitions_of_options cls predicates states 0 options
               transitions_by_option;
      generate_transitions_from cls predicates dataset' tbo
  end.

Definition generate_transitions (cls : Classifiers) (dataset : Dataset)
    (predicates : gset Predicate) : option TransitionsByOption :=
  generate_transitions_from cls predicates dataset [].

(** [_unify]: tags the three sources and calls [utils.unify]. *)
Definition _unify
    (ground_add_effects ground_delete_effects : gset GroundAtom)
    (ground_option_args : list Object)
    (lifted_add_effects lifted_delete_effects : gset LiftedAtom)
    (lifted_option_args : list Var) : bool * ObjToVarSub :=
  let opt_arg_pred :=
    mkPredicate "OPT-ARGS" (obj_type <$> ground_option_args) in
  let f_ground_option_args : gset GroundAtom :=
    {[ mkGroundAtom opt_arg_pred ground_option_args ]} in
  let f_new_ground_add_effects :=
    wrap_atom_predicates_ground ground_add_effects "ADD-" in
  let f_new_ground_delete_effects :=
    wrap_atom_predicates_ground ground_delete_effects "DEL-" in
  let f_lifted_option_args : gset LiftedAtom :=
    {[ mkLiftedAtom opt_arg_pred lifted_option_args ]} in
  let f_new_lifted_add_effects :=
    wrap_atom_predicates_lifted lifted_add_effects "ADD-" in
  let f_new_lifted_delete_effects :=
    wrap_atom_predicates_lifted lifted_delete_effects "DEL-" in
  unify
    (f_ground_option_args ∪ f_new_ground_add_effects
       ∪ f_new_ground_delete_effects)
    (f_lifted_option_args ∪ f_new_lifted_add_effects
       ∪ f_new_lifted_delete_effects).

(** The objects mentioned in a transition's effects or option. *)
Definition effect_objects (transition : Transition) : gset Object :=
  list_to_set (atom ← elements (t_add_effects transition
                                  ∪ t_delete_effects transition);
               objects atom)
  ∪ list_to_set (opt_objects (t_option transition)).

(** The [else] branch of the partition search: a new group. *)
Definition new_partition (transition : Transition) : option Partition :=
  let objects_lst := sorted_objects (elements (effect_objects transition)) in
  let variables :=
    imap (λ i o, mkVar ("?x" +:+ pretty i) (obj_type o)) objects_lst in
  let sub := dict_zip objects_lst variables in
  option_args ← mapM (λ v, sub !! v) (opt_objects (t_option transition));
  add_effects ← set_mapM (lift sub) (t_add_effects transition);
  delete_effects ← set_mapM (lift sub) (t_delete_effects transition);
  Some (mkPartition option_args add_effects delete_effects
                    [(transition, sub)]).

(** The first partition whose effects unify takes the transition. *)
Fixpoint add_to_partitions (transition : Transition)
    (partitions : list Partition) : option (list Partition) :=
  match partitions with
  | [] => part ← new_partition transition; Some [part]
  | part :: partitions' =>
      let '(suc, sub) :=
        _unify (t_add_effects transition) (t_delete_effects transition)
               (opt_objects (t_option transition))
               (part_add_effects part) (part_delete_effects part)
               (part_option_args part) in
      if suc then
        Some (mkPartition (part_option_args part) (part_add_effects part)
                (part_delete_effects part)
                (part_transitions part ++ [(transition, sub)])
              :: partitions')
      else (part ::.) <$> add_to_partitions transition partitions'
  end.

Definition _partition_transitions (transitions : list Transition)
    : option (list Partition) :=
  foldlM (λ partitions transition, add_to_partitions transition partitions)
         [] transitions.

(** The body of the loop of [_learn_preconditions] for one member: the
    variables and the lifted atoms it yields. *)
Definition member_lifted_atoms (option_vars : list Var)
    (add_effects delete_effects : gset LiftedAtom)
    (member : Transition * ObjToVarSub) : option (list Var * gset LiftedAtom) :=
  let transition := member.1 in
  let '(suc, sub) :=
    _unify (t_add_effects transition) (t_delete_effects transition)
           (opt_objects (t_option transition))
           add_effects delete_effects option_vars in
  guard (suc = true);;
  let objs := effect_objects transition in
  let atoms :=
    filter (λ atom, Forall (λ o, o ∈ objs) (objects atom))
           (t_atoms transition) in
  lifted_atoms ← set_mapM (lift sub) atoms;
  Some (sorted_vars (elements (list_to_set (C := gset Var)
                                 (map_to_list sub).*2)),
        lifted_atoms).

(** The iterations after the first: the variables must agree, the
    preconditions are intersected. *)
Fixpoint learn_preconditions_rest (option_vars : list Var)
    (add_effects delete_effects : gset LiftedAtom)
    (variables : list Var) (preconditions : gset LiftedAtom)
    (transitions : list (Transition * ObjToVarSub))
    : option (list Var * gset LiftedAtom) :=
  match transitions with
  | [] => Some (variables, preconditions)
  | member :: transitions' =>
      '(vars, lifted_atoms) ←
        member_lifted_atoms option_vars add_effects delete_effects member;
      guard (variables = vars);;
      learn_preconditions_rest option_vars add_effects delete_effects
        variables (preconditions ∩ lifted_atoms) transitions'
  end.

(** [_learn_preconditions]; on an empty list the final [return] reads
    unbound names, which is the [None] here. *)
Definition _learn_preconditions (option_vars : list Var)
    (add_effects delete_effects : gset LiftedAtom)
    (transitions : list (Transition * ObjToVarSub))
    : option (list Var * gset LiftedAtom) :=
  match transitions with
  | [] => None
  | member :: transitions' =>
      '(variables, lifted_atoms) ←
        member_lifted_atoms option_vars add_effects delete_effects member;
      learn_preconditions_rest option_vars add_effects delete_effects
        variables lifted_atoms transitions'
  end.
End OperatorLearning.

Section SamplerLearning.
Context `{Collaborators}.

(** The assertion on the positive grounding: every precondition holds in
    the state under [var_to_obj]. *)
Definition preconditions_hold (cls : Classifiers) (state : State)
    (var_to_obj : VarToObjSub) (preconditions : gset LiftedAtom)
    : option bool :=
  forallb id <$>
    mapM (λ pre,
            objs ← mapM (λ v, var_to_obj !! v) (variables pre);
            Some (cls (lpredicate pre) state objs))
         (elements preconditions).

(** The body of the innermost loop of [_create_sampler_data], for one
    grounding of one member of partition [idx]. *)
Definition sampler_data_step (cls : Classifiers) (variables : list Var)
    (preconditions add_effects delete_effects : gset LiftedAtom)
    (idx partition_idx : nat) (member : Transition * ObjToVarSub)
    (data : list SamplerDatum * list SamplerDatum)
    (grounding : list Object)
    : option (list SamplerDatum * list SamplerDatum) :=
  let '(transition, obj_to_var) := member in
  let state := t_state transition in
  let opt := t_option transition in
  let '(positive_data, negative_data) := data in
  let otherwise :=
    let sub := dict_zip variables grounding in
    ground_add_effects ← set_mapM (ground sub) add_effects;
    ground_delete_effects ← set_mapM (ground sub) delete_effects;
    if bool_decide (ground_add_effects ⊆ t_add_effects transition)
       && bool_decide (ground_delete_effects ⊆ t_delete_effects transition)
    then Some (positive_data, negative_data)
    else Some (positive_data, negative_data ++ [(state, sub, opt)]) in
  if bool_decide (idx = partition_idx) then
    let var_to_obj := invert_sub obj_to_var in
    actual_grounding ← mapM (λ var, var_to_obj !! var) variables;
    if bool_decide (grounding = actual_grounding) then
      ok ← preconditions_hold cls state var_to_obj preconditions;
      guard (ok = true);;
      Some (positive_data ++ [(state, var_to_obj, opt)], negative_data)
    else otherwise
  else otherwise.

(** The loop over the groundings of one member. *)
Definition sampler_data_member (cls : Classifiers) (variables : list Var)
    (preconditions add_effects delete_effects : gset LiftedAtom)
    (param_option : ParameterizedOption) (idx partition_idx : nat)
    (data : list SamplerDatum * list SamplerDatum)
    (member : Transition * ObjToVarSub)
    : option (list SamplerDatum * list SamplerDatum) :=
  guard (parent (t_option member.1) = param_option);;
  let var_types := var_type <$> variables in
  let objs := state_objects (t_state member.1) in
  foldlM (sampler_data_step cls variables preconditions add_effects
            delete_effects idx partition_idx member)
         data (get_object_combinations objs var_types).

Definition _create_sampler_data (cls : Classifiers)
    (transitions : list (list (Transition * ObjToVarSub)))
    (variables : list Var)
    (preconditions add_effects delete_effects : gset LiftedAtom)
    (param_option : ParameterizedOption) (partition_idx : nat)
    : option (list SamplerDatum * list SamplerDatum) :=
  data ← foldlM (λ data '(idx, part_transitions),
                   foldlM (sampler_data_member cls variables preconditions
                             add_effects delete_effects param_option
                             idx partition_idx)
                          data part_transitions)
                ([], []) (enumerate transitions);
  target ← transitions !! partition_idx;
  guard (length data.1 = length target);;
  Some data.

(** The classifier and regressor inputs: the bias term, then the features
    of the objects bound to the variables. *)
Definition sampler_input (variables : list Var) (state : State)
    (sub : VarToObjSub) : option Array :=
  feats ← mapM (λ var, obj ← sub !! var; state !! obj) variables;
  Some ((1 : Q) :: mjoin feats).

Definition _learn_sampler (cls : Classifiers)
    (transitions : list (list (Transition * ObjToVarSub)))
    (variables : list Var)
    (preconditions add_effects delete_effects : gset LiftedAtom)
    (param_option : ParameterizedOption) (partition_idx : nat)
    : option Sampler :=
  '(positive_data, negative_data) ←
    _create_sampler_data cls transitions variables preconditions
      add_effects delete_effects param_option partition_idx;
  X_classifier ←
    mapM (λ d : SamplerDatum,
            x ← sampler_input variables d.1.1 d.1.2;
            Some (x ++ params d.2))
         (positive_data ++ negative_data);
  let y_classifier :=
    ((λ _, true) <$> positive_data) ++ ((λ _, false) <$> negative_data) in
  x0 ← head X_classifier;
  let classifier :=
    MLPClassifier_fit (length x0) (classifier_max_itr_sampler CFG)
                      X_classifier y_classifier in
  X_regressor ←
    mapM (λ d : SamplerDatum, sampler_input variables d.1.1 d.1.2)
         positive_data;
  let Y_regressor := (λ d : SamplerDatum, params d.2) <$> positive_data in
  let regressor := NeuralGaussianRegressor_fit X_regressor Y_regressor in
  Some (LearnedSampler classifier regressor variables param_option).

(** The [while ... else] of [_LearnedSampler.sampler]; [tries] counts the
    iterations left, [params] is the candidate of the last iteration
    (unbound before the first one). *)
Fixpoint rejection_loop (classifier : Model) (regressor : Regressor)
    (space : Box) (x : Array) (space_rng : Rng)
    (tries : nat) (rng : Rng) (params : option Array) : option Array :=
  match tries with
  | 0 =>
      p ← params;
      if negb (contains space p) then Some (box_sample space space_rng)
      else Some p
  | S tries' =>
      let '(p, rng') := predict_sample regressor x rng in
      if contains space p && classify classifier (x ++ p) then Some p
      else rejection_loop classifier regressor space x space_rng
             tries' rng' (Some p)
  end.

(** [_LearnedSampler.sampler]: the loop runs while
    [num_rejections <= CFG.max_rejection_sampling_tries], that is
    [max_rejection_sampling_tries + 1] times at most. *)
Definition LearnedSampler_sampler (classifier : Model) (regressor : Regressor)
    (variables : list Var) (param_option : ParameterizedOption)
    (space_rng : Rng)
    (state : State) (rng : Rng) (objs : list Object) : option Array :=
  let sub := dict_zip variables objs in
  x ← sampler_input variables state sub;
  rejection_loop classifier regressor (params_space param_option) x space_rng
    (Z.to_nat (max_rejection_sampling_tries CFG + 1)) rng None.

(** [_RandomSampler.sampler]. *)
Definition RandomSampler_sampler (param_option : ParameterizedOption)
    (space_rng : Rng)
    (state : State) (rng : Rng) (objs : list Object) : option Array :=
  Some (box_sample (params_space param_option) space_rng).

(** Calling an operator's sampler. *)
Definition sampler (smp : Sampler) (space_rng : Rng)
    (state : State) (rng : Rng) (objs : list Object) : option Array :=
  match smp with
  | RandomSampler param_option =>
      RandomSampler_sampler param_option space_rng state rng objs
  | LearnedSampler classifier regressor variables param_option =>
      LearnedSampler_sampler classifier regressor variables param_option
        space_rng state rng objs
  end.

(** The body of the loop of [learn_operators_for_option] for partition
    [i]. *)
Definition learn_operator_for_partition (cls : Classifiers)
    (param_option : ParameterizedOption) (do_sampler_learning : bool)
    (partitions : list Partition)
    (operators : list Operator) (entry : nat * Partition)
    : option (list Operator) :=
  let '(i, part) := entry in
  if bool_decide (Z.of_nat (length (part_transitions part))
                  < min_data_for_operator CFG)%Z
  then Some operators
  else if bool_decide (part_add_effects part = ∅)
          && bool_decide (part_delete_effects part = ∅)
  then Some operators
  else
    '(variables, preconditions) ←
      _learn_preconditions (part_option_args part) (part_add_effects part)
        (part_delete_effects part) (part_transitions part);
    let operator_name := opt_name param_option +:+ pretty i in
    smp ←
      (if do_sampler_learning
          && negb (bool_decide (length (low (params_space param_option)) = 0))
       then _learn_sampler cls (part_transitions <$> partitions) variables
              preconditions (part_add_effects part)
              (part_delete_effects part) param_option i
       else Some (RandomSampler param_option));
    Some (operators ++
          [mkOperator operator_name variables preconditions
             (part_add_effects part) (part_delete_effects part)
             param_option (part_option_args part) smp]).

Definition learn_operators_for_option (cls : Classifiers)
    (param_option : ParameterizedOption) (transitions : list Transition)
    (do_sampler_learning : bool) : option (list Operator) :=
  partitions ← _partition_transitions transitions;
  foldlM (learn_operator_for_partition cls param_option do_sampler_learning
            partitions)
         [] (enumerate partitions).
End SamplerLearning.

(** ** [approaches/iterative_invention_approach.py] *)

(** The fields of the approach the invention loop reads and writes; the
    classifiers of its predicates are held in [classifiers]. *)
Record IterativeInventionApproach `{Collaborators} := mkIterativeInventionApproach
  { _initial_predicates : gset Predicate;
    _learned_predicates : gset Predicate;
    _num_inventions : nat;
    _rng : Rng;
    classifiers : Classifiers }.

Arguments mkIterativeInventionApproach {_} _ _ _ _ _.

(** A freshly built predicate object: its identity and its classifier. *)
Abbreviation NewPredicate :=
  (Predicate * (State → list Object → bool))%type.

(** How a loop that needs fuel ends. *)
Inductive LoopResult (A : Type) :=
  | Finished (a : A)
  | Raised
  | OutOfFuel.
Arguments Finished {_} _.
Arguments Raised {_}.
Arguments OutOfFuel {_}.

Definition Qlt_bool (a b : Q) : bool := negb (Qle_bool b a).

(** [d[k]] on a dictionary kept as an association list. *)
Fixpoint dict_lookup {K V} `{EqDecision K} (d : list (K * V)) (k : K) : option V :=
  match d with
  | [] => None
  | (k', v) :: d' => if decide (k' = k) then Some v else dict_lookup d' k
  end.

(** [d[k] = v] for each key in turn: a key met again keeps its place. *)
Definition dict_init {K V} `{EqDecision K} (keys : list K) (v : V) : list (K * V) :=
  foldl (λ d k, if dict_lookup d k is Some _ then d else d ++ [(k, v)]) [] keys.

(** The ["pos"] and ["neg"] vectors collected for every subset of the
    operator's parameters. *)
Abbreviation InventionData :=
  (list (list Var * (list Array * list Array))).

Section IterativeInvention.
Context `{Collaborators}.

Definition _get_current_predicates (self : IterativeInventionApproach)
    : gset Predicate :=
  _initial_predicates self ∪ _learned_predicates self.

(** [Predicate.get_negation]: the name comes from [structs], the
    classifier inverts the original. *)
Definition get_negation (p : NewPredicate) : NewPredicate :=
  (mkPredicate (negation_name (pred_name p.1)) (pred_types p.1),
   λ s objs, negb (p.2 s objs)).

(** [LearnedPredicateClassifier(model).classifier]: the model applied to
    the vectorised objects. *)
Definition LearnedPredicateClassifier (model : Model)
    : State → list Object → bool :=
  λ s objs, if vec s objs is Some x then classify model x else false.

(** The classifier table once [p] carries its own classifier. *)
Definition with_classifier (cls : Classifiers) (p : NewPredicate)
    : Classifiers :=
  λ q, if decide (q = p.1) then p.2 else cls q.

(** The innermost loop of the data collection: one vector per parameter
    subset, filed under ["pos"] or ["neg"]. *)
Definition record_example (state : State) (sub : VarToObjSub)
    (positive : bool) (data : InventionData) : option InventionData :=
  mapM (λ '(params, (pos, neg)),
          predicate_objects ← mapM (λ v, sub !! v) params;
          x ← vec state predicate_objects;
          Some (if positive then (params, (pos ++ [x], neg))
                else (params, (pos, neg ++ [x]))))
       data.

(** The body of the loop over the transitions of one object group, for
    one grounding of the operator's signature. *)
Definition invention_example (opt_arg_pred : Predicate)
    (operator_add_effs operator_del_effs : gset LiftedAtom)
    (grounding : gset GroundAtom) (sub : VarToObjSub)
    (data : InventionData) (transition : Transition)
    : option InventionData :=
  let state := t_state transition in
  let ground_opt_atom :=
    mkGroundAtom opt_arg_pred (opt_objects (t_option transition)) in
  let trans_atoms :=
    wrap_atom_predicates_ground (t_atoms transition) "PRE-" in
  let trans_add_effs :=
    wrap_atom_predicates_ground (t_add_effects transition) "ADD-" in
  let trans_del_effs :=
    wrap_atom_predicates_ground (t_delete_effects transition) "DEL-" in
  let pre_opt_grounding : gset GroundAtom :=
    filter (λ atom, pred_name (predicate atom) = "OPT-ARGS"
                    ∨ String.prefix "PRE-" (pred_name (predicate atom)))
           grounding in
  if negb (bool_decide (pre_opt_grounding ⊆ trans_atoms ∪ {[ground_opt_atom]}))
  then Some data
  else
    grounding_add_effects ← set_mapM (ground sub) operator_add_effs;
    grounding_delete_effects ← set_mapM (ground sub) operator_del_effs;
    record_example state sub
      (bool_decide (trans_add_effs = grounding_add_effects)
       && bool_decide (trans_del_effs = grounding_delete_effects))
      data.

(** The transitions organised by the set of objects of their state; a
    transition of another option fails the assertion. *)
Definition group_by_objects (operator : Operator)
    (transitions : list Transition)
    : option (list (gset Object * list Transition)) :=
  foldlM (λ (d : list (gset Object * list Transition)) transition,
            guard (op_option operator = parent (t_option transition));;
            Some (dict_append d (dom (t_state transition)) transition))
         [] transitions.

(** The loops over the groundings of the signature and over the
    transitions of one object group. *)
Definition invention_group (opt_arg_pred : Predicate)
    (operator_add_effs operator_del_effs lifteds : gset LiftedAtom)
    (data : InventionData) (entry : gset Object * list Transition)
    : option InventionData :=
  groundings ← get_all_groundings lifteds entry.1;
  foldlM (λ (data : InventionData) (g : gset GroundAtom * VarToObjSub),
            foldlM (invention_example opt_arg_pred operator_add_effs
                      operator_del_effs g.1 g.2)
                   data entry.2)
         data groundings.

(** The fit of one parameter subset and the update of the best
    candidate; [best] is [best_pred] with [best_score] ([None] while the
    score is minus infinity). *)
Definition fit_candidate (num_inventions : nat)
    (best : option (NewPredicate * Q))
    (entry : list Var * (list Array * list Array))
    : option (option (NewPredicate * Q)) :=
  let '(params, (pos, neg)) := entry in
  let X := pos ++ neg in
  let Y := ((λ _, true) <$> pos) ++ ((λ _, false) <$> neg) in
  x0 ← head X;
  let model :=
    MLPClassifier_fit (length x0) (classifier_max_itr_predicate CFG) X Y in
  let correct :=
    length (filter (λ xy, classify model xy.1 = xy.2) (zip X Y)) in
  let fit_score := (Z.of_nat correct # Pos.of_nat (length Y))%Q in
  if Qlt_bool fit_score (iterative_invention_accept_score CFG)
  then Some best
  else
    let score := (fit_score - (1 # 10) * inject_Z (Z.of_nat (length params)))%Q in
    let types := var_type <$> params in
    let classifier := LearnedPredicateClassifier model in
    let pred : NewPredicate :=
      (mkPredicate ("InventedPredicate-" +:+ pretty num_inventions) types,
       classifier) in
    match best with
    | None => Some (Some (pred, score))
    | Some (_, best_score) =>
        if Qlt_bool best_score score then Some (Some (pred, score))
        else Some best
    end.

(** The end of [_invent_for_operator], once the data is collected: the
    assertion on the positives, the early [return None] when the operator
    predicts every transition, and the fits. *)
Definition choose_predicate (num_inventions : nat) (data : InventionData)
    (all_params : list Var) : option (option NewPredicate) :=
  match dict_lookup data all_params with
  | None => None
  | Some (all_pos, all_neg) =>
      if bool_decide (all_pos = []) then None
      else if bool_decide (all_neg = []) then Some None
      else
        match foldlM (fit_candidate num_inventions) None data with
        | None => None
        | Some best => Some (fst <$> best)
        end
  end.

(** [_invent_for_operator]: [Some None] is the [return None] of the
    source, the outer [None] a raised exception. *)
Definition _invent_for_operator (self : IterativeInventionApproach)
    (operator : Operator) (transitions : list Transition)
    : option (option NewPredicate) :=
  if bool_decide (parameters operator = []) then Some None
  else
    let opt_arg_pred :=
      mkPredicate "OPT-ARGS" (opt_types (op_option operator)) in
    let lifted_opt_atom := mkLiftedAtom opt_arg_pred (option_vars operator) in
    let operator_pre :=
      wrap_atom_predicates_lifted (preconditions operator) "PRE-" in
    let operator_add_effs :=
      wrap_atom_predicates_lifted (add_effects operator) "ADD-" in
    let operator_del_effs :=
      wrap_atom_predicates_lifted (delete_effects operator) "DEL-" in
    let lifteds : gset LiftedAtom :=
      operator_pre ∪ operator_add_effs ∪ operator_del_effs
        ∪ {[lifted_opt_atom]} in
    match group_by_objects operator transitions with
    | None => None
    | Some transitions_by_objects =>
        let data0 : InventionData :=
          dict_init (powerset (parameters operator) true) ([], []) in
        match foldlM (invention_group opt_arg_pred operator_add_effs
                        operator_del_effs lifteds)
                     data0 transitions_by_objects with
        | None => None
        | Some data =>
            let all_params := parameters operator in
            choose_predicate (_num_inventions self) data all_params
        end
    end.

(** The inner loop of [_invent_for_some_operator], over the operators of
    one option in the drawn order. *)
Fixpoint invent_for_operators (self : IterativeInventionApproach)
    (operators : list Operator) (option_transitions : list Transition)
    (order : list nat) : option (option NewPredicate) :=
  match order with
  | [] => Some None
  | idx2 :: order' =>
      operator ← operators !! idx2;
      new_predicate ← _invent_for_operator self operator option_transitions;
      match new_predicate with
      | Some p => Some (Some p)
      | None => invent_for_operators self operators option_transitions order'
      end
  end.

(** The outer loop of [_invent_for_some_operator], over the options in
    the drawn order; the generator is threaded through. *)
Fixpoint invent_for_options (self : IterativeInventionApproach)
    (transitions_by_option : TransitionsByOption)
    (rng : Rng) (order : list nat) : option (Rng * option NewPredicate) :=
  match order with
  | [] => Some (rng, None)
  | idx1 :: order' =>
      param_option ← transitions_by_option.*1 !! idx1;
      let option_transitions :=
        default [] (dict_lookup transitions_by_option param_option) in
      operators ←
        learn_operators_for_option (classifiers self) param_option
          option_transitions false;
      let '(order2, rng') := permutation rng (length operators) in
      new_predicate ←
        invent_for_operators self operators option_transitions order2;
      match new_predicate with
      | Some p => Some (rng', Some p)
      | None => invent_for_options self transitions_by_option rng' order'
      end
  end.

Definition _invent_for_some_operator (self : IterativeInventionApproach)
    (transitions_by_option : TransitionsByOption)
    : option (Rng * option NewPredicate) :=
  let param_options := transitions_by_option.*1 in
  let '(order, rng) := permutation (_rng self) (length param_options) in
  invent_for_options self transitions_by_option rng order.

(** The update of one stored transition with the new predicate and its
    negation. *)
Definition reabstract (cls : Classifiers)
    (new_predicate neg_new_predicate : Predicate) (t : Transition)
    : Transition :=
  let atoms :=
    t_atoms t
    ∪ utils_abstract cls (t_state t) {[new_predicate; neg_new_predicate]} in
  let next_atoms :=
    t_next_atoms t
    ∪ utils_abstract cls (t_next_state t)
        {[new_predicate; neg_new_predicate]} in
  let add_effects := next_atoms ∖ atoms in
  let delete_effects := atoms ∖ next_atoms in
  mkTransition (t_state t) (t_next_state t) atoms (t_option t) next_atoms
               add_effects delete_effects.

(** The loop over every stored transition of every option. *)
Definition reabstract_all (cls : Classifiers)
    (new_predicate neg_new_predicate : Predicate)
    (transitions_by_option : TransitionsByOption) : TransitionsByOption :=
  (λ entry : ParameterizedOption * list Transition,
     (entry.1, reabstract cls new_predicate neg_new_predicate <$> entry.2))
  <$> transitions_by_option.

(** One pass through the body of the [while True] loop: [None] is a
    raised exception, [(self', None)] the [break], [(self', Some tbo)]
    the state the next iteration starts from. *)
Definition invention_iteration (self : IterativeInventionApproach)
    (transitions_by_option : TransitionsByOption)
    : option (IterativeInventionApproach * option TransitionsByOption) :=
  '(rng, found) ← _invent_for_some_operator self transitions_by_option;
  match found with
  | None =>
      Some (mkIterativeInventionApproach (_initial_predicates self)
              (_learned_predicates self) (_num_inventions self) rng
              (classifiers self),
            None)
  | Some new_predicate =>
      let neg_new_predicate := get_negation new_predicate in
      let cls :=
        with_classifier (with_classifier (classifiers self) new_predicate)
                        neg_new_predicate in
      let self' :=
        mkIterativeInventionApproach (_initial_predicates self)
          ({[neg_new_predicate.1]}
             ∪ ({[new_predicate.1]} ∪ _learned_predicates self))
          (_num_inventions self + 1) rng cls in
      Some (self',
            Some (reabstract_all cls new_predicate.1 neg_new_predicate.1
                    transitions_by_option))
  end.

(** The [while True] loop, [fuel] iterations at most. *)
Fixpoint invention_loop (fuel : nat) (self : IterativeInventionApproach)
    (transitions_by_option : TransitionsByOption)
    : LoopResult (IterativeInventionApproach * TransitionsByOption) :=
  match fuel with
  | 0 => OutOfFuel
  | S fuel' =>
      match invention_iteration self transitions_by_option with
      | None => Raised
      | Some (self', None) => Finished (self', transitions_by_option)
      | Some (self', Some tbo) => invention_loop fuel' self' tbo
      end
  end.

(** [learn_from_offline_dataset], up to the final call of the superclass
    ([_learn_operators], outside the embedded files). *)
Definition learn_from_offline_dataset (fuel : nat)
    (self : IterativeInventionApproach) (dataset : Dataset)
    : LoopResult (IterativeInventionApproach * TransitionsByOption) :=
  match generate_transitions (classifiers self) dataset
          (_get_current_predicates self) with
  | None => Raised
  | Some transitions_by_option =>
      invention_loop fuel self transitions_by_option
  end.
End IterativeInvention.

(** ** [approaches/interactive_learning_approach.py] *)

(** What a call of [create_teacher_dataset] can come to: its result, the
    [ApproachFailure] it raises, or an error raised below it ([int] of a NaN
    or of an infinity, numpy's [ValueError] on a sample larger than the
    population, an index out of range). *)
Inductive Outcome (A : Type) :=
  | Returned (a : A)
  | ApproachFailure (msg : string)
  | OtherError.
Arguments Returned {_} _.
Arguments ApproachFailure {_} _.
Arguments OtherError {_}.

Section InteractiveLearning.
Context `{Collaborators}.

(** The body of the loop over the states of one trajectory. *)
Definition teacher_atoms (cls : Classifiers) (preds : gset Predicate)
    (ratio : float) (rng : Rng) (s : State)
    : Outcome (gset GroundAtom * Rng) :=
  let ground_atoms :=
    sorted_ground_atoms (elements (utils_abstract cls s preds)) in
  match
    int_of_float
      (float_mul (float_of_Z (Z.of_nat (length ground_atoms))) ratio)
  with
  | None => OtherError
  | Some n_samples =>
      if bool_decide (n_samples < 1)%Z then
        ApproachFailure "Need at least 1 ground atom sample"
      else
        match choice rng (length ground_atoms) (Z.to_nat n_samples) with
        | None => OtherError
        | Some (subset, rng') =>
            match mapM (λ j, ground_atoms !! j) subset with
            | None => OtherError
            | Some subset_atoms => Returned (list_to_set subset_atoms, rng')
            end
        end
  end.

Fixpoint teacher_trajectory (cls : Classifiers) (preds : gset Predicate)
    (ratio : float) (rng : Rng) (ss : list State)
    : Outcome (list (gset GroundAtom) * Rng) :=
  match ss with
  | [] => Returned ([], rng)
  | s :: ss' =>
      match teacher_atoms cls preds ratio rng s with
      | Returned (subset_atoms, rng') =>
          match teacher_trajectory cls preds ratio rng' ss' with
          | Returned (ground_atoms_traj, rng'') =>
              Returned (subset_atoms :: ground_atoms_traj, rng'')
          | ApproachFailure msg => ApproachFailure msg
          | OtherError => OtherError
          end
      | ApproachFailure msg => ApproachFailure msg
      | OtherError => OtherError
      end
  end.

Fixpoint teacher_dataset_from (cls : Classifiers) (preds : gset Predicate)
    (ratio : float) (rng : Rng) (dataset : Dataset)
    : Outcome (list (list (gset GroundAtom))) :=
  match dataset with
  | [] => Returned []
  | (ss, _) :: dataset' =>
      match teacher_trajectory cls preds ratio rng ss with
      | Returned (ground_atoms_traj, rng') =>
          match teacher_dataset_from cls preds ratio rng' dataset' with
          | Returned ground_atoms_dataset =>
              Returned (ground_atoms_traj :: ground_atoms_dataset)
          | ApproachFailure msg => ApproachFailure msg
          | OtherError => OtherError
          end
      | ApproachFailure msg => ApproachFailure msg
      | OtherError => OtherError
      end
  end.

Definition create_teacher_dataset (cls : Classifiers)
    (preds : gset Predicate) (dataset : Dataset)
    : Outcome (list (list (gset GroundAtom))) :=
  let ratio := teacher_dataset_label_ratio CFG in
  let rng := default_rng (seed CFG) in
  teacher_dataset_from cls preds ratio rng dataset.
End InteractiveLearning.

(** ** A concrete setting: one cup, one predicate, one option

    The scenario of [tests/test_sampler_learning.py], with stand-ins for
    the collaborators so that the embedded code can be run. *)
Module Scenario.

#[global] Instance GroundOption_eq_dec : EqDecision GroundOption.
Proof. solve_decision. Defined.

(** [utils.action_to_option_trajectory].

    Modelled from the spec: the helper is not among the embedded files;
    consecutive actions sharing the same option collapse to one option
    step, and an action without an option is a failure. *)
Fixpoint collapse_options (current : GroundOption)
    (states : list State) (actions : list Action)
    : option (list State * list GroundOption) :=
  match states, actions with
  | s :: states', a :: actions' =>
      o ← act_option a;
      '(new_states, options) ← collapse_options o states' actions';
      if decide (o = current) then Some (new_states, options)
      else Some (s :: new_states, o :: options)
  | [s], [] => Some ([s], [])
  | _, _ => None
  end.

Definition option_trajectory (act_traj : ActionTrajectory)
    : option (list State * list GroundOption) :=
  match act_traj with
  | (s0 :: states, a0 :: actions) =>
      o ← act_option a0;
      '(new_states, options) ← collapse_options o (s0 :: states) (a0 :: actions);
      Some (s0 :: new_states, o :: options)
  | ([s0], []) => Some ([s0], [])
  | _ => None
  end.

(** [utils.unify].

    Modelled from the spec: the unifier is not among the embedded files;
    it looks for a one-to-one assignment of the variables of the lifted
    atoms to the objects of the ground atoms under which the ground set
    lifts exactly to the lifted set. *)
Definition ground_objects (atoms : gset GroundAtom) : gset Object :=
  list_to_set (a ← elements atoms; objects a).

Definition search_unifier (ground_atoms : gset GroundAtom)
    (lifted_atoms : gset LiftedAtom) : bool * ObjToVarSub :=
  let objs := sorted_objects (elements (ground_objects ground_atoms)) in
  let vars := sorted_vars (elements (lifted_vars lifted_atoms)) in
  if bool_decide (length objs = length vars) then
    let candidates := dict_zip objs <$> permutations vars in
    match
      filter (λ sub, set_mapM (lift sub) ground_atoms = Some lifted_atoms)
             candidates
    with
    | sub :: _ => (true, sub)
    | [] => (false, ∅)
    end
  else (false, ∅).

Definition settings : GlobalSettings :=
  {| min_data_for_operator := 0;
     max_rejection_sampling_tries := 2;
     iterative_invention_accept_score := (1 # 2)%Q;
     classifier_max_itr_sampler := 500;
     classifier_max_itr_predicate := 500;
     teacher_dataset_label_ratio := float_div (float_of_Z 1) (float_of_Z 2);
     seed := 123 |}.

(** The stand-ins: generators that return the first indices in order, a
    classifier that labels every input positive, a regressor that
    proposes its first target, a box that samples its lower corner. *)
Definition stand_ins (cfg : GlobalSettings) : Collaborators :=
  {| Rng := nat;
     Model := Array → bool;
     Regressor := Array;
     CFG := cfg;
     action_to_option_trajectory := option_trajectory;
     unify := search_unifier;
     negation_name := λ name, "NOT-" +:+ name;
     default_rng := λ _, 0;
     permutation := λ rng n, (seq 0 n, S rng);
     choice := λ rng n k, if decide (k ≤ n) then Some (seq 0 k, S rng) else None;
     MLPClassifier_fit := λ _ _ _ _, (λ _, true);
     classify := λ m x, m x;
     NeuralGaussianRegressor_fit := λ _ Y, default [] (head Y);
     predict_sample := λ r _ rng, (r, S rng);
     box_sample := λ space _, low space |}.

#[global] Instance collaborators : Collaborators := stand_ins settings.

(** The same stand-ins for a teacher that keeps every atom. *)
Definition teacher_collaborators : Collaborators :=
  stand_ins
    {| min_data_for_operator := 0;
       max_rejection_sampling_tries := 2;
       iterative_invention_accept_score := (1 # 2)%Q;
       classifier_max_itr_sampler := 500;
       classifier_max_itr_predicate := 500;
       teacher_dataset_label_ratio := float_of_Z 1;
       seed := 123 |}.

Definition cup_type : Ty := mkTy "cup_type" ["feat1"].
Definition cup0 : Object := mkObject "cup0" cup_type.
Definition var_cup0 : Var := mkVar "?cup0" cup_type.
Definition pred0 : Predicate := mkPredicate "Pred0" [cup_type].

(** [Pred0] holds of a cup whose feature exceeds 0.5; no other predicate
    holds. *)
Definition cls0 : Classifiers :=
  λ p s objs,
    if decide (p = pred0) then
      match objs with
      | [o] =>
          match s !! o with
          | Some (f :: _) => Qlt_bool (1 # 2) f
          | _ => false
          end
      | _ => false
      end
    else false.

Definition dummy : ParameterizedOption :=
  mkParameterizedOption "dummy" [] (mkBox [(1 # 10)%Q] [1%Q]).
Definition dummy_option : GroundOption :=
  mkGroundOption dummy [] [(3 # 10)%Q].

Definition state_low : State := {[ cup0 := [(4 # 10)%Q] ]}.
Definition state_high : State := {[ cup0 := [(9 # 10)%Q] ]}.

Definition predicates : gset Predicate := {[ pred0 ]}.

(** Transition 1 adds [Pred0(cup0)]; transition 2 does nothing. *)
Definition transition1 : Transition :=
  let atoms := utils_abstract cls0 state_low predicates in
  let next_atoms := utils_abstract cls0 state_high predicates in
  mkTransition state_low state_high atoms dummy_option next_atoms
               (next_atoms ∖ atoms) (atoms ∖ next_atoms).

Definition transition2 : Transition :=
  let atoms := utils_abstract cls0 state_low predicates in
  let next_atoms := utils_abstract cls0 state_low predicates in
  mkTransition state_low state_low atoms dummy_option next_atoms
               (next_atoms ∖ atoms) (atoms ∖ next_atoms).

(** Transition 3 deletes [Pred0(cup0)]. *)
Definition transition3 : Transition :=
  let atoms := utils_abstract cls0 state_high predicates in
  let next_atoms := utils_abstract cls0 state_low predicates in
  mkTransition state_high state_low atoms dummy_option next_atoms
               (next_atoms ∖ atoms) (atoms ∖ next_atoms).

Definition test_transitions : list (list (Transition * ObjToVarSub)) :=
  [ [(transition1, {[ cup0 := var_cup0 ]})]; [(transition2, ∅)] ].

(** The two trajectories the transitions come from. *)
Definition dataset : Dataset :=
  [ ([state_low; state_high], [mkAction [(3 # 10)%Q] (Some dummy_option)]);
    ([state_low; state_low], [mkAction [(3 # 10)%Q] (Some dummy_option)]) ].

Definition approach0 : IterativeInventionApproach :=
  mkIterativeInventionApproach predicates ∅ 0 0 cls0.

End Scenario.

(** ** The teacher on many cups

    States with several cups in which [Pred0] holds of every cup, and the
    stand-ins of the scenario with a label ratio of one's choice. *)
Module Teaching.
Import Scenario.

Definition cup (i : nat) : Object := mkObject ("cup" +:+ pretty i) cup_type.

Definition cups (n : nat) : State :=
  list_to_map ((λ i, (cup i, [(9 # 10)%Q])) <$> seq 0 n).

Definition teacher_with (ratio : float) : Collaborators :=
  stand_ins
    {| min_data_for_operator := 0;
       max_rejection_sampling_tries := 2;
       iterative_invention_accept_score := (1 # 2)%Q;
       classifier_max_itr_sampler := 500;
       classifier_max_itr_predicate := 500;
       teacher_dataset_label_ratio := ratio;
       seed := 123 |}.

(** The floats [0.7] and [0.58]: the nearest to 7/10 and to 58/100. *)
Definition ratio_07 : float := float_div (float_of_Z 7) (float_of_Z 10).
Definition ratio_058 : float := float_div (float_of_Z 58) (float_of_Z 100).

(** The sizes of the sets a teacher dataset holds. *)
Definition sizes (result : Outcome (list (list (gset GroundAtom))))
    : option (list (list nat)) :=
  match result with
  | Returned result => Some (fmap (M := list) size <$> result)
  | _ => None
  end.
End Teaching.

(** ** A sampler whose draws differ

    The stand-ins of the scenario with a regressor that proposes, draw
    after draw, the vectors of a list. *)
Module Drawing.
Import Scenario.

Definition listed_draws : Collaborators :=
  {| Rng := nat;
     Model := Array → bool;
     Regressor := list Array;
     CFG := settings;
     action_to_option_trajectory := option_trajectory;
     unify := search_unifier;
     negation_name := λ name, "NOT-" +:+ name;
     default_rng := λ _, 0;
     permutation := λ rng n, (seq 0 n, S rng);
     choice := λ rng n k, if decide (k ≤ n) then Some (seq 0 k, S rng) else None;
     MLPClassifier_fit := λ _ _ _ _, (λ _, true);
     classify := λ m x, m x;
     NeuralGaussianRegressor_fit := λ _ Y, Y;
     predict_sample := λ r _ rng, (default [] (r !! rng), S rng);
     box_sample := λ space _, low space |}.

(** A classifier that accepts one input only: the bias, the feature 0.4
    of the cup and the parameter 0.3. *)
Definition accept_03 : @Model listed_draws :=
  λ x : Array, bool_decide (x = [1%Q; (4 # 10)%Q; (3 # 10)%Q]).

(** A regressor whose first draw, 2, is out of the bounds of the option
    and whose second draw is 0.3. *)
Definition propose_2_then_03 : @Regressor listed_draws :=
  [[2%Q]; [(3 # 10)%Q]].
End Drawing.

(** ** A unifier that keeps the naming of new partitions

    The stand-ins of the scenario with a unifier that tries one
    substitution, the naming a new partition would give the objects of the
    ground atoms, and fails when the ground atoms do not lift to the lifted
    atoms under it. *)
Module Naming.
Import Scenario.

Definition naming_unifier (ground_atoms : gset GroundAtom)
    (lifted_atoms : gset LiftedAtom) : bool * ObjToVarSub :=
  let sub := naming (atoms_objects ground_atoms) in
  if decide (set_mapM (lift sub) ground_atoms = Some lifted_atoms)
  then (true, sub) else (false, ∅).

Definition naming_collaborators : Collaborators :=
  {| Rng := nat;
     Model := Array → bool;
     Regressor := Array;
     CFG := settings;
     action_to_option_trajectory := option_trajectory;
     unify := naming_unifier;
     negation_name := λ name, "NOT-" +:+ name;
     default_rng := λ _, 0;
     permutation := λ rng n, (seq 0 n, S rng);
     choice := λ rng n k, if decide (k ≤ n) then Some (seq 0 k, S rng) else None;
     MLPClassifier_fit := λ _ _ _ _, (λ _, true);
     classify := λ m x, m x;
     NeuralGaussianRegressor_fit := λ _ Y, default [] (head Y);
     predict_sample := λ r _ rng, (r, S rng);
     box_sample := λ space _, low space |}.
End Naming.

(** ** The rest of [operator_learning.py] *)

Section LearnFromData.
Context `{Collaborators}.

(** [learn_operators_from_data]: the list [operators] the loop over the
    options builds, in the order of the dictionary's keys; the source
    returns [set(operators)]. *)
Definition learn_operators_from_data (cls : Classifiers) (dataset : Dataset)
    (predicates : gset Predicate) (do_sampler_learning : bool)
    : option (list Operator) :=
  transitions_by_option ← generate_transitions cls dataset predicates;
  foldlM (λ operators param_option,
            let option_transitions :=
              default [] (dict_lookup transitions_by_option param_option) in
            option_ops ←
              learn_operators_for_option cls param_option option_transitions
                do_sampler_learning;
            Some (operators ++ option_ops))
         [] transitions_by_option.*1.
End LearnFromData.

(** ** The rest of [approaches/interactive_learning_approach.py] *)

(** The exceptions the interactive approach can end with.
    [NumericError] stands for what [create_teacher_dataset] raises other
    than an [ApproachFailure]: a [ValueError] of numpy's [choice] or of
    [int], or an [OverflowError] of [int]. *)
Inductive Exception :=
  | AssertionError
  | KeyError
  | IndexError
  | ValueError
  | OverflowError
  | NumericError
  | UnboundLocalError
  | NotImplementedError (msg : string)
  | ApproachFailureError (msg : string).

(** A computation that returns or raises. *)
Abbreviation Result A := (Exception + A)%type.

#[global] Instance Result_ret : MRet (sum Exception) := λ A x, inr x.
#[global] Instance Result_bind : MBind (sum Exception) :=
  λ A B f m, match m with inl e => inl e | inr x => f x end.

Definition raise {A} (e : Exception) : Result A := inl e.

(** An optional value read where its absence raises [e]. *)
Definition or_raise {A} (e : Exception) (m : option A) : Result A :=
  match m with Some x => inr x | None => inl e end.

(** A [for] loop threading an accumulator, ended by the first exception. *)
Fixpoint foldlE {A B} (f : A → B → Result A) (a : A) (l : list B) : Result A :=
  match l with
  | [] => inr a
  | x :: l' => a' ← f a x; foldlE f a' l'
  end.

(** A list comprehension whose body may raise. *)
Fixpoint mapE {A B} (f : A → Result B) (l : list A) : Result (list B) :=
  match l with
  | [] => inr []
  | x :: l' => y ← f x; ys ← mapE f l'; inr (y :: ys)
  end.

(** A configuration value: [isinstance(v, float)] tells the two apart. *)
Inductive Number :=
  | Float (x : float)
  | Int (n : Z).

(** [int(x)] with its exceptions. *)
Definition int_or_raise (x : float) : Result Z :=
  match x with
  | S754_nan => raise ValueError
  | S754_infinity _ => raise OverflowError
  | _ => or_raise ValueError (int_of_float x)
  end.

(** The slice [l[:n]]: a negative [n] counts from the end. *)
Definition slice_to {A} (n : Z) (l : list A) : list A :=
  if bool_decide (n < 0)%Z then take (length l - Z.to_nat (- n)) l
  else take (Z.to_nat n) l.

(** [l.sort(key=key, reverse=True)] for float keys none of which is a
    NaN: by decreasing key, elements of equal key in their original
    order. *)
Fixpoint insert_by_key {A} (key : A → float) (x : A) (l : list A) : list A :=
  match l with
  | [] => [x]
  | y :: l' =>
      if SFleb (key y) (key x) then x :: y :: l'
      else y :: insert_by_key key x l'
  end.

Definition sort_reverse {A} (key : A → float) (l : list A) : list A :=
  foldr (insert_by_key key) [] l.

(** [np.array_equal]: same length, equal entries. *)
Definition array_equal (a b : Array) : bool :=
  bool_decide (length a = length b)
  && forallb (λ p : Q * Q, Qeq_bool p.1 p.2) (zip a b).

(** A planning task: an initial state and a goal. *)
Record Task := mkTask { init : State; goal : gset GroundAtom }.

(** The entries of [CFG] the interactive approach reads. *)
Record InteractiveSettings := mkInteractiveSettings
  { interactive_known_predicates : gset string;
    interactive_atom_type_babbled : string;
    interactive_num_babbles : Z;
    interactive_max_num_atoms_babbled : Z;
    interactive_num_tasks_babbled : Z;
    interactive_ask_strategy : string;
    interactive_ask_strategy_threshold : Number;
    interactive_ask_strategy_pct : Number }.

Abbreviation GroundAtomDataset := (list (list (gset GroundAtom))).

(** [score_goal]. *)
Definition score_goal (ground_atom_dataset : GroundAtomDataset)
    (goal : gset GroundAtom) : float :=
  let count :=
    foldl (λ count trajectory,
             foldl (λ count ground_atom_set,
                      count + (if bool_decide (goal ⊆ ground_atom_set)
                               then 1 else 0))%Z
                   count trajectory)
          1%Z ground_atom_dataset in
  float_div (float_of_Z 1) (float_of_Z count).

Module Interactive.

(** [_Teacher]; [teacher_classifiers] holds the classifiers of the
    predicates it was given. *)
Record _Teacher := mk_Teacher
  { _name_to_predicate : gmap string Predicate;
    teacher_predicates_to_learn : gset Predicate;
    _has_generated_data : bool;
    teacher_classifiers : Classifiers }.

(** The fields of [InteractiveLearningApproach]; [classifiers] holds the
    classifiers of the predicates it knows or has learned. *)
Record InteractiveLearningApproach `{Collaborators} :=
  mkInteractiveLearningApproach
  { _known_predicates : gset Predicate;
    _predicates_to_learn : gset Predicate;
    _teacher : _Teacher;
    _dataset : Dataset;
    _ground_atom_dataset : GroundAtomDataset;
    _rng : Rng;
    classifiers : Classifiers }.

Arguments mkInteractiveLearningApproach {_} _ _ _ _ _ _ _.

Section Interactive.
Context `{Collaborators}.

(** The settings, and what the approach takes from outside the embedded
    files: [utils.all_possible_ground_atoms], a single draw
    [rng.choice(n)] below [n], and the classifier a stripped predicate
    carries. *)
Variables
  (ICFG : InteractiveSettings)
  (all_possible_ground_atoms : State → gset Predicate → list GroundAtom)
  (choice_one : Rng → Z → option (nat * Rng))
  (stripped_classifier : State → list Object → bool).

(** [_Teacher.__init__]: in the dictionary a later predicate of the same
    name replaces an earlier one. *)
Definition Teacher_init (cls : Classifiers)
    (all_predicates predicates_to_learn : gset Predicate) : _Teacher :=
  mk_Teacher
    (foldl (λ m p, <[pred_name p := p]> m) ∅ (elements all_predicates))
    predicates_to_learn false cls.

Definition of_outcome {A} (o : Outcome A) : Result A :=
  match o with
  | Returned a => inr a
  | ApproachFailure msg => inl (ApproachFailureError msg)
  | OtherError => inl NumericError
  end.

(** [_Teacher.generate_data]: the teacher after the call, and what the
    call comes to. *)
Definition generate_data (self : _Teacher) (dataset : Dataset)
    : _Teacher * Result GroundAtomDataset :=
  if _has_generated_data self then (self, raise AssertionError)
  else
    (mk_Teacher (_name_to_predicate self) (teacher_predicates_to_learn self)
                true (teacher_classifiers self),
     of_outcome (create_teacher_dataset (teacher_classifiers self)
                   (teacher_predicates_to_learn self) dataset)).

(** [_Teacher.ask]. *)
Definition ask (self : _Teacher) (state : State) (ground_atom : GroundAtom)
    : Result bool :=
  predicate ← or_raise KeyError
    (_name_to_predicate self !! pred_name (predicate ground_atom));
  mret (teacher_classifiers self predicate state (objects ground_atom)).

(** [InteractiveLearningApproach.__init__]: stripping keeps a
    predicate's name and types, so the set to learn is unchanged as a
    set of predicates, and its members carry the stripped classifier. *)
Definition init (cls : Classifiers) (all_predicates : gset Predicate)
    (rng : Rng) : InteractiveLearningApproach :=
  let known : gset Predicate :=
    filter (λ p, pred_name p ∈ interactive_known_predicates ICFG)
           all_predicates in
  let predicates_to_learn := all_predicates ∖ known in
  mkInteractiveLearningApproach known predicates_to_learn
    (Teacher_init cls all_predicates predicates_to_learn) [] [] rng
    (λ p, if decide (p ∈ predicates_to_learn) then stripped_classifier
          else cls p).

Definition _get_current_predicates (self : InteractiveLearningApproach)
    : gset Predicate :=
  _known_predicates self ∪ _predicates_to_learn self.

(** [_load_dataset]; the teacher keeps its flag when its call raises. *)
Definition _load_dataset (self : InteractiveLearningApproach)
    (dataset : Dataset)
    : InteractiveLearningApproach * Result unit :=
  let '(teacher, outcome) := generate_data (_teacher self) dataset in
  match outcome with
  | inl e =>
      (mkInteractiveLearningApproach (_known_predicates self)
         (_predicates_to_learn self) teacher (_dataset self)
         (_ground_atom_dataset self) (_rng self) (classifiers self),
       inl e)
  | inr ground_atom_data =>
      (mkInteractiveLearningApproach (_known_predicates self)
         (_predicates_to_learn self) teacher (_dataset self ++ dataset)
         (_ground_atom_dataset self ++ ground_atom_data) (_rng self)
         (classifiers self),
       inr ())
  end.

Definition _ask_teacher (self : InteractiveLearningApproach)
    (state : State) (ground_atom : GroundAtom) : Result bool :=
  ask (_teacher self) state ground_atom.

(** [_get_states_to_ask]. *)
Definition _get_states_to_ask (self : InteractiveLearningApproach)
    (trajectories : Dataset) : Result (list State) :=
  let new_states := mjoin trajectories.*1 in
  let scores :=
    (λ s, score_goal (_ground_atom_dataset self)
            (utils_abstract (classifiers self) s
               (_get_current_predicates self))) <$> new_states in
  if decide (interactive_ask_strategy ICFG = "all_seen_states") then
    mret new_states
  else if decide (interactive_ask_strategy ICFG = "threshold") then
    match interactive_ask_strategy_threshold ICFG with
    | Float threshold =>
        mret ((filter (λ p : State * float, SFleb threshold p.2 = true)
                      (zip new_states scores)).*1)
    | Int _ => raise AssertionError
    end
  else if decide (interactive_ask_strategy ICFG = "top_k_percent") then
    match interactive_ask_strategy_pct ICFG with
    | Float pct =>
        n ← int_or_raise
              (float_mul (float_div pct (float_of_Z 100))
                         (float_of_Z (Z.of_nat (length new_states))));
        let states_and_scores := zip new_states scores in
        mret ((slice_to n (sort_reverse snd states_and_scores)).*1)
    | Int _ => raise AssertionError
    end
  else
    raise (NotImplementedError
             ("Ask strategy " +:+ interactive_ask_strategy ICFG
              +:+ " not supported")).

(** One babble of [glib_sample]. *)
Definition babble (ground_atom_dataset : GroundAtomDataset)
    (ground_atoms : list GroundAtom)
    (acc : list (gset GroundAtom * float) * Rng)
    : Result (list (gset GroundAtom * float) * Rng) :=
  let '(goals, rng) := acc in
  '(k, rng) ← or_raise ValueError
    (choice_one rng (interactive_max_num_atoms_babbled ICFG));
  let num_atoms := 1 + k in
  '(idxs, rng) ← or_raise ValueError
    (choice rng (length ground_atoms) num_atoms);
  atoms ← or_raise IndexError (mapM (λ i, ground_atoms !! i) idxs);
  let goal : gset GroundAtom := list_to_set atoms in
  mret (goals ++ [(goal, score_goal ground_atom_dataset goal)], rng).

(** [glib_sample]. *)
Definition glib_sample (initial_state : State) (predicates : gset Predicate)
    (ground_atom_dataset : GroundAtomDataset) : Result (list Task) :=
  if decide (interactive_atom_type_babbled ICFG = "ground") then
    let rng := default_rng (seed CFG) in
    let ground_atoms := all_possible_ground_atoms initial_state predicates in
    '(goals, _) ←
      foldlE (λ acc _, babble ground_atom_dataset ground_atoms acc)
             ([], rng)
             (seq 0 (Z.to_nat (interactive_num_babbles ICFG)));
    mret ((λ g : gset GroundAtom * float, mkTask initial_state g.1)
          <$> slice_to (interactive_num_tasks_babbled ICFG)
                (sort_reverse snd goals))
  else raise AssertionError.

(** The positive examples of [pred]: the loop over the ground atom
    dataset of [_relearn_predicates_and_operators]. *)
Definition positive_examples_of (dataset : Dataset)
    (ground_atom_dataset : GroundAtomDataset) (pred : Predicate)
    : Result (list Array) :=
  foldlE (λ positive_examples '(i, trajectory),
            foldlE (λ positive_examples '(j, ground_atom_set),
                      traj ← or_raise IndexError (dataset !! i);
                      state ← or_raise IndexError (traj.1 !! j);
                      positives ←
                        mapE (λ ground_atom : GroundAtom,
                                or_raise KeyError
                                  (vec state (objects ground_atom)))
                             (filter (λ ground_atom,
                                        predicate ground_atom = pred)
                                     (elements (ground_atom_set
                                                  : gset GroundAtom)));
                      mret (positive_examples ++ positives))
                   positive_examples (enumerate trajectory))
         [] (enumerate ground_atom_dataset).

(** The [for ... else] over [itertools.product(possible,
    positive_examples)]: [ex] is the loop variable, which keeps its last
    value when the loop ends and is unbound before the first pair;
    [Some ex] with [true] is a [break]. *)
Fixpoint product_scan (pairs : list (Array * Array)) (ex : option Array)
    : option Array * bool :=
  match pairs with
  | [] => (ex, false)
  | (ex', pos) :: pairs' =>
      if array_equal ex' pos then (Some ex', true)
      else product_scan pairs' (Some ex')
  end.

(** The negative examples of one state, and the [ex] it leaves. *)
Definition negatives_of_state (pred : Predicate)
    (positive_examples : list Array)
    (acc : list Array * option Array) (state : State)
    : Result (list Array * option Array) :=
  let '(negative_examples, ex) := acc in
  possible ← mapE (λ choice, or_raise KeyError (vec state choice))
               (get_object_combinations (state_objects state)
                  (pred_types pred));
  let pairs := ex' ← possible; pos ← positive_examples; [(ex', pos)] in
  match product_scan pairs ex with
  | (ex, true) => mret (negative_examples, ex)
  | (Some ex, false) => mret (negative_examples ++ [ex], Some ex)
  | (None, false) => raise UnboundLocalError
  end.

Definition negative_examples_of (dataset : Dataset) (pred : Predicate)
    (positive_examples : list Array) (ex : option Array)
    : Result (list Array * option Array) :=
  foldlE (λ acc (traj : ActionTrajectory),
            foldlE (negatives_of_state pred positive_examples) acc traj.1)
         ([], ex) dataset.

(** The body of the loop over the predicates to learn; the loop
    variable [ex] is threaded from one predicate to the next. *)
Definition relearn_predicate
    (acc : InteractiveLearningApproach * option Array) (pred : Predicate)
    : Result (InteractiveLearningApproach * option Array) :=
  let '(self, ex) := acc in
  if decide (pred ∈ _known_predicates self) then raise AssertionError
  else
    positive_examples ←
      positive_examples_of (_dataset self) (_ground_atom_dataset self) pred;
    '(negative_examples, ex) ←
      negative_examples_of (_dataset self) pred positive_examples ex;
    let X := positive_examples ++ negative_examples in
    let Y := ((λ _, true) <$> positive_examples)
             ++ ((λ _, false) <$> negative_examples) in
    x0 ← or_raise IndexError (head X);
    if decide (Forall (λ x, length x = length x0) X) then
      let model :=
        MLPClassifier_fit (length x0) (classifier_max_itr_predicate CFG) X Y in
      let classifier := LearnedPredicateClassifier model in
      let new_pred : NewPredicate :=
        (mkPredicate (pred_name pred) (pred_types pred), classifier) in
      mret (mkInteractiveLearningApproach (_known_predicates self)
              ((_predicates_to_learn self ∖ {[pred]}) ∪ {[new_pred.1]})
              (_teacher self) (_dataset self) (_ground_atom_dataset self)
              (_rng self) (with_classifier (classifiers self) new_pred),
            ex)
    else raise ValueError.

(** [_relearn_predicates_and_operators], up to the final call of the
    superclass ([_learn_operators], outside the embedded files). *)
Definition _relearn_predicates (self : InteractiveLearningApproach)
    : Result InteractiveLearningApproach :=
  acc ← foldlE relearn_predicate (self, None)
           (elements (_predicates_to_learn self));
  mret acc.1.

(** The body of the loop over the states to ask about. *)
Definition ask_about (self : InteractiveLearningApproach) (s : State)
    : Result InteractiveLearningApproach :=
  let ground_atoms :=
    all_possible_ground_atoms s (_get_current_predicates self) in
  '(idx, rng) ← or_raise ValueError
    (choice_one (_rng self) (Z.of_nat (length ground_atoms)));
  random_atom ← or_raise IndexError (ground_atoms !! idx);
  let self :=
    mkInteractiveLearningApproach (_known_predicates self)
      (_predicates_to_learn self) (_teacher self) (_dataset self)
      (_ground_atom_dataset self) rng (classifiers self) in
  answer ← _ask_teacher self s random_atom;
  if (answer : bool) then
    mret (mkInteractiveLearningApproach (_known_predicates self)
            (_predicates_to_learn self) (_teacher self)
            (_dataset self ++ [([s], [])])
            (_ground_atom_dataset self ++ [[ {[random_atom]} ]])
            (_rng self) (classifiers self))
  else mret self.

(** The update of the datasets once [relearn_every] episodes have been
    explored: the new trajectories are stored, then the teacher is asked
    about their states. *)
Definition ask_teacher_about (self : InteractiveLearningApproach)
    (new_trajectories : Dataset) : Result InteractiveLearningApproach :=
  let self :=
    mkInteractiveLearningApproach (_known_predicates self)
      (_predicates_to_learn self) (_teacher self)
      (_dataset self ++ new_trajectories)
      (_ground_atom_dataset self) (_rng self) (classifiers self) in
  states ← _get_states_to_ask self new_trajectories;
  foldlE ask_about self states.
End Interactive.
End Interactive.

(** * Properties *)

(** A closed equation settled by evaluating its left-hand side. *)
Ltac by_computation rhs := vm_cast_no_check (eq_refl rhs).

(** ** Loops and comprehensions *)

Lemma foldlM_app {A B} (f : A → B → option A) (a : A) (l1 l2 : list B) :
  foldlM f a (l1 ++ l2) = a' ← foldlM f a l1; foldlM f a' l2.
Proof.
  revert a. induction l1 as [|x l1 IH]; intros a; simpl; [done|].
  destruct (f a x) as [a'|]; simpl; [apply IH|done].
Qed.

(** An invariant kept by every iteration that does not raise holds of the
    result of the loop. *)
Lemma foldlM_invariant {A B} (P : A → Prop) (f : A → B → option A)
    (a a' : A) (l : list B) :
  (∀ a x a', x ∈ l → P a → f a x = Some a' → P a') →
  P a → foldlM f a l = Some a' → P a'.
Proof.
  revert a. induction l as [|x l IH]; intros a Hstep Ha; simpl.
  - by intros [= <-].
  - destruct (f a x) as [a1|] eqn:Hf; simpl; [|done].
    apply IH.
    + intros ???? ; apply Hstep. by right.
    + eapply Hstep; [by left|done|done].
Qed.

(** ** Effects of a transition (C1) *)

(** The add- and delete-effects are disjoint, and the post-state atoms are
    the pre-state atoms minus the delete-effects plus the add-effects. *)
Definition effects_consistent (t : Transition) : Prop :=
  t_add_effects t ∩ t_delete_effects t = ∅
  ∧ t_next_atoms t = (t_atoms t ∖ t_delete_effects t) ∪ t_add_effects t.

#[global] Instance effects_consistent_dec t : Decision (effects_consistent t).
Proof. unfold effects_consistent. apply _. Defined.

Definition all_consistent (tbo : TransitionsByOption) : Prop :=
  ∀ o ts t, (o, ts) ∈ tbo → t ∈ ts → effects_consistent t.

Lemma symmetric_split_consistent (s s' : State)
    (atoms next_atoms : gset GroundAtom) (o : GroundOption) :
  effects_consistent
    (mkTransition s s' atoms o next_atoms
                  (next_atoms ∖ atoms) (atoms ∖ next_atoms)).
Proof.
  split; simpl.
  - apply set_eq. intros a.
    rewrite elem_of_intersection, !elem_of_difference, elem_of_empty. tauto.
  - apply set_eq. intros a.
    rewrite elem_of_union, !elem_of_difference.
    destruct (decide (a ∈ atoms)), (decide (a ∈ next_atoms)); tauto.
Qed.

Lemma dict_append_elem {K V} `{EqDecision K} (d : list (K * list V)) k v k' vs x :
  (k', vs) ∈ dict_append d k v → x ∈ vs →
  x = v ∨ ∃ vs0, (k', vs0) ∈ d ∧ x ∈ vs0.
Proof.
  induction d as [|[k0 vs0] d IH]; simpl.
  - intros Hin Hx. apply list_elem_of_singleton in Hin. injection Hin as -> ->.
    apply list_elem_of_singleton in Hx. by left.
  - destruct (decide (k0 = k)) as [->|Hne]; intros Hin Hx;
      apply elem_of_cons in Hin as [Heq|Hin].
    + injection Heq as -> ->.
      apply elem_of_app in Hx as [Hx|Hx].
      * right. exists vs0. split; [by left|done].
      * apply list_elem_of_singleton in Hx. by left.
    + right. exists vs. split; [by right|done].
    + injection Heq as -> ->. right. exists vs0. split; [by left|done].
    + destruct (IH Hin Hx) as [->|(vs1 & ? & ?)]; [by left|].
      right. exists vs1. split; [by right|done].
Qed.

Lemma all_consistent_append tbo o t :
  all_consistent tbo → effects_consistent t →
  all_consistent (dict_append tbo o t).
Proof.
  intros Hall Ht o' ts t' Hin Ht'.
  destruct (dict_append_elem _ _ _ _ _ _ Hin Ht') as [->|(ts0 & ? & ?)];
    [done|by eapply Hall].
Qed.

Section EffectsConsistent.
Context `{Collaborators}.

Lemma transitions_of_options_consistent cls preds states i options tbo tbo' :
  all_consistent tbo →
  transitions_of_options cls preds states i options tbo = Some tbo' →
  all_consistent tbo'.
Proof.
  revert i tbo. induction options as [|opt options IH]; intros i tbo Hall; simpl.
  - by intros [= <-].
  - destruct (states !! i) as [s|]; simpl; [|done].
    destruct (states !! S i) as [s'|]; simpl; [|done].
    apply IH, all_consistent_append; [done|].
    apply symmetric_split_consistent.
Qed.

Lemma generate_transitions_from_consistent cls preds dataset tbo tbo' :
  all_consistent tbo →
  generate_transitions_from cls preds dataset tbo = Some tbo' →
  all_consistent tbo'.
Proof.
  revert tbo. induction dataset as [|act_traj dataset IH]; intros tbo Hall; simpl.
  - by intros [= <-].
  - destruct (action_to_option_trajectory act_traj) as [[states options]|];
      simpl; [|done].
    case_guard; simpl; [|done].
    destruct (transitions_of_options _ _ _ _ _ _) as [tbo1|] eqn:Hopts;
      simpl; [|done].
    apply IH. by eapply transitions_of_options_consistent.
Qed.

Lemma reabstract_consistent cls p np t :
  effects_consistent (reabstract cls p np t).
Proof. apply symmetric_split_consistent. Qed.

Lemma reabstract_all_consistent cls p np tbo :
  all_consistent (reabstract_all cls p np tbo).
Proof.
  intros o ts t Hin Ht. unfold reabstract_all in Hin.
  apply list_elem_of_fmap in Hin as ([o0 ts0] & [= -> ->] & _).
  apply list_elem_of_fmap in Ht as (t0 & -> & _).
  apply reabstract_consistent.
Qed.

(** The stores of transitions the code builds: by [generate_transitions],
    or by an iteration of the invention loop that re-abstracts a store
    with a new predicate and its negation. *)
Inductive produced : TransitionsByOption → Prop :=
  | produced_generate cls dataset preds tbo :
      generate_transitions cls dataset preds = Some tbo → produced tbo
  | produced_reabstract self tbo self' tbo' :
      invention_iteration self tbo = Some (self', Some tbo') →
      produced tbo'.

(** C1. For every transition produced by [generate_transitions], and for
    every transition once an iteration of the invention loop has
    re-abstracted it with the new predicate and its negation, the
    add-effects and the delete-effects are disjoint and the post-state
    atoms are the pre-state atoms minus the delete-effects, union the
    add-effects. *)
Theorem effects_split (tbo : TransitionsByOption) :
  produced tbo →
  ∀ o ts t, (o, ts) ∈ tbo → t ∈ ts →
    t_add_effects t ∩ t_delete_effects t = ∅
    ∧ t_next_atoms t = (t_atoms t ∖ t_delete_effects t) ∪ t_add_effects t.
Proof.
  intros Hprod. change (all_consistent tbo).
  destruct Hprod as [cls dataset preds tbo Hgen|self tbo self' tbo' Hiter].
  - eapply generate_transitions_from_consistent; [|exact Hgen].
    intros ??? []%elem_of_nil.
  - unfold invention_iteration in Hiter.
    destruct (_invent_for_some_operator self tbo) as [[rng [newp|]]|];
      simpl in Hiter; [|done|done].
    injection Hiter as _ <-. apply reabstract_all_consistent.
Qed.
End EffectsConsistent.

(** ** Set comprehensions that may raise *)

Lemma set_mapM_Some `{Countable A, Countable B} (f : A → option B)
    (X : gset A) (Y : gset B) :
  set_mapM f X = Some Y →
  (∀ x, x ∈ X → ∃ y, f x = Some y ∧ y ∈ Y)
  ∧ (∀ y, y ∈ Y → ∃ x, x ∈ X ∧ f x = Some y).
Proof.
  unfold set_mapM. intros (l & Hl & ->)%fmap_Some.
  apply mapM_Some in Hl. split.
  - intros x Hx%elem_of_elements.
    apply list_elem_of_lookup in Hx as [i Hi].
    destruct (Forall2_lookup_l _ _ _ _ _ Hl Hi) as (y & Hy & Hfx).
    exists y. split; [done|].
    apply elem_of_list_to_set, list_elem_of_lookup. eauto.
  - intros y Hy%elem_of_list_to_set.
    apply list_elem_of_lookup in Hy as [i Hi].
    destruct (Forall2_lookup_r _ _ _ _ _ Hl Hi) as (x & Hx & Hfx).
    exists x. split; [|done].
    apply elem_of_elements, list_elem_of_lookup. eauto.
Qed.

Lemma set_mapM_elem_of `{Countable A, Countable B} (f : A → option B)
    (X : gset A) (Y : gset B) (y : B) :
  set_mapM f X = Some Y → y ∈ Y ↔ ∃ x, x ∈ X ∧ f x = Some y.
Proof.
  intros [Hl Hr]%set_mapM_Some. split; [apply Hr|].
  intros (x & Hx & Hfx). destruct (Hl x Hx) as (y' & Hy' & ?). congruence.
Qed.

Lemma set_mapM_is_Some `{Countable A, Countable B} (f : A → option B)
    (X : gset A) :
  (∀ x, x ∈ X → is_Some (f x)) → is_Some (set_mapM (B := B) f X).
Proof.
  intros Hall. unfold set_mapM. apply fmap_is_Some, mapM_is_Some.
  apply Forall_forall. intros x Hx%elem_of_elements. by apply Hall.
Qed.

(** ** The preconditions of a partition *)

(** An object appears in the effects or in the option arguments of a
    transition. *)
Definition participates (t : Transition) (o : Object) : Prop :=
  (∃ atom, (atom ∈ t_add_effects t ∨ atom ∈ t_delete_effects t)
           ∧ o ∈ objects atom)
  ∨ o ∈ opt_objects (t_option t).

(** [l] is one of the transition's pre-transition atoms, every object of
    which appears in the transition's effects or option arguments, lifted
    through [sub]. *)
Definition lifted_atom_of (sub : ObjToVarSub) (t : Transition)
    (l : LiftedAtom) : Prop :=
  ∃ a, a ∈ t_atoms t
       ∧ (∀ o, o ∈ objects a → participates t o)
       ∧ lift sub a = Some l.


Lemma elem_of_effect_objects t o :
  o ∈ effect_objects t ↔ participates t o.
Proof.
  unfold effect_objects, participates.
  rewrite elem_of_union, !elem_of_list_to_set, list_elem_of_bind.
  setoid_rewrite elem_of_elements. setoid_rewrite elem_of_union.
  split; (intros [(a & H1 & H2)|Ho]; [left; exists a; tauto|by right]).
Qed.

Section PreconditionLaw.
Context `{Collaborators}.
Variables (option_vars : list Var)
          (add_effects delete_effects : gset LiftedAtom).

(** What [_learn_preconditions] gets for a member when it unifies the
    member's effects and option arguments with those of the partition. *)
Definition reunified (m : Transition * ObjToVarSub) : bool * ObjToVarSub :=
  _unify (t_add_effects m.1) (t_delete_effects m.1)
         (opt_objects (t_option m.1))
         add_effects delete_effects option_vars.


Lemma member_lifted_atoms_spec m vs L :
  member_lifted_atoms option_vars add_effects delete_effects m = Some (vs, L) →
  ∀ l, l ∈ L ↔ lifted_atom_of (reunified m).2 m.1 l.
Proof.
  unfold member_lifted_atoms, lifted_atom_of, reunified.
  destruct (_unify _ _ _ _ _ _) as [suc sub]; simpl.
  case_guard; simpl; [|done].
  destruct (set_mapM _ _) as [L'|] eqn:HL; simpl; [|done].
  intros [= _ <-] l. rewrite (set_mapM_elem_of _ _ _ _ HL).
  split.
  - intros (a & [Hobjs Ha]%elem_of_filter & Hlift). exists a.
    split_and!; [done| |done].
    intros o Ho. apply elem_of_effect_objects.
    by eapply Forall_forall in Hobjs.
  - intros (a & Ha & Hobjs & Hlift). exists a. split; [|done].
    apply elem_of_filter. split; [|done].
    apply Forall_forall. intros o Ho. by apply elem_of_effect_objects, Hobjs.
Qed.

Lemma learn_preconditions_rest_spec vars P ms vars' pre :
  learn_preconditions_rest option_vars add_effects delete_effects
    vars P ms = Some (vars', pre) →
  vars' = vars
  ∧ ∀ l, l ∈ pre
         ↔ l ∈ P ∧ ∀ m, m ∈ ms → lifted_atom_of (reunified m).2 m.1 l.
Proof.
  revert P. induction ms as [|m ms IH]; intros P; simpl.
  - intros [= <- <-]. split; [done|]. intros l. split; [|by intros []].
    intros Hl. split; [done|]. by intros m ?%elem_of_nil.
  - destruct (member_lifted_atoms _ _ _ m) as [[vs L]|] eqn:Hm; simpl; [|done].
    case_guard; simpl; [|done].
    intros [-> Hpre]%IH. split; [done|]. intros l. rewrite Hpre.
    rewrite elem_of_intersection, (member_lifted_atoms_spec _ _ _ Hm).
    split.
    + intros [[HP Hl] Hms]. split; [done|].
      intros m' [->|Hm']%elem_of_cons; [done|by apply Hms].
    + intros [HP Hms]. split_and!; [done| |].
      * apply Hms. by left.
      * intros m' Hm'. apply Hms. by right.
Qed.



End PreconditionLaw.

(** ** Loops that append to two lists *)

Lemma foldlM_emit {B C D} (f : list C * list D → B → option (list C * list D))
    (p : B → list C) (n : B → list D) (l : list B) acc acc' :
  (∀ acc x acc', x ∈ l → f acc x = Some acc' →
     acc' = (acc.1 ++ p x, acc.2 ++ n x)) →
  foldlM f acc l = Some acc' →
  acc' = (acc.1 ++ (l ≫= p), acc.2 ++ (l ≫= n)).
Proof.
  revert acc. induction l as [|x l IH]; intros acc Hstep.
  - simpl. intros [= <-]. rewrite !app_nil_r. by destruct acc.
  - rewrite !bind_cons. simpl.
    destruct (f acc x) as [acc1|] eqn:Hf; simpl; [|done].
    intros Hrun. apply IH in Hrun.
    + rewrite (Hstep _ _ _ ltac:(by left) Hf) in Hrun. simpl in Hrun.
      by rewrite <-!app_assoc in Hrun.
    + intros ?????. eapply Hstep; [by right|done].
Qed.




(** ** Object combinations *)







(** ** Substitutions built by [dict(zip(...))] *)



(** ** Positive and negative sampler examples (C3, C9) *)

Section SamplerData.
Context `{Collaborators}.
Variables (cls : Classifiers) (vars : list Var)
          (preconditions add_effects delete_effects : gset LiftedAtom)
          (param_option : ParameterizedOption) (partition_idx : nat).

(** The grounding a member records: its substitution, inverted, read at
    the variables. *)
Definition recorded_grounding (obj_to_var : ObjToVarSub)
    : option (list Object) :=
  mapM (λ var, invert_sub obj_to_var !! var) vars.

(** In the words of the spec: the grounding is the recorded grounding of
    a member of the target partition, which makes it a positive example. *)
Definition own_positive_grounding (idx : nat)
    (member : Transition * ObjToVarSub) (grounding : list Object) : bool :=
  bool_decide (idx = partition_idx)
  && bool_decide (recorded_grounding member.2 = Some grounding).

(** In the words of the spec: the target's add- and delete-effects,
    grounded under the grounding, are both subsets of the transition's
    actual add- and delete-effects. *)
Definition effects_achieved (t : Transition) (grounding : list Object)
    : bool :=
  match set_mapM (ground (dict_zip vars grounding)) add_effects,
        set_mapM (ground (dict_zip vars grounding)) delete_effects with
  | Some ground_add_effects, Some ground_delete_effects =>
      bool_decide (ground_add_effects ⊆ t_add_effects t)
      && bool_decide (ground_delete_effects ⊆ t_delete_effects t)
  | _, _ => false
  end.

Definition is_negative_example (idx : nat)
    (member : Transition * ObjToVarSub) (grounding : list Object) : bool :=
  negb (own_positive_grounding idx member grounding)
  && negb (effects_achieved member.1 grounding).

Definition positive_datum (member : Transition * ObjToVarSub) : SamplerDatum :=
  (t_state member.1, invert_sub member.2, t_option member.1).

Definition negative_datum (member : Transition * ObjToVarSub)
    (grounding : list Object) : SamplerDatum :=
  (t_state member.1, dict_zip vars grounding, t_option member.1).

Definition groundings_of (member : Transition * ObjToVarSub)
    : list (list Object) :=
  get_object_combinations (state_objects (t_state member.1))
                          (var_type <$> vars).

Definition positives_of_grounding (idx : nat)
    (member : Transition * ObjToVarSub) (grounding : list Object)
    : list SamplerDatum :=
  if own_positive_grounding idx member grounding
  then [positive_datum member] else [].

Definition negatives_of_grounding (idx : nat)
    (member : Transition * ObjToVarSub) (grounding : list Object)
    : list SamplerDatum :=
  if is_negative_example idx member grounding
  then [negative_datum member grounding] else [].

(** The examples the spec asks for, in the order of the loops. *)
Definition expected_positive_data
    (transitions : list (list (Transition * ObjToVarSub)))
    : list SamplerDatum :=
  entry ← enumerate transitions;
  member ← entry.2;
  grounding ← groundings_of member;
  positives_of_grounding entry.1 member grounding.

Definition expected_negative_data
    (transitions : list (list (Transition * ObjToVarSub)))
    : list SamplerDatum :=
  entry ← enumerate transitions;
  member ← entry.2;
  grounding ← groundings_of member;
  negatives_of_grounding entry.1 member grounding.

(** The candidates the three loops go through, in their order: every
    grounding of the variables over the objects of the state of every
    member of every partition. *)
Definition candidates
    (transitions : list (list (Transition * ObjToVarSub)))
    : list (nat * (Transition * ObjToVarSub) * list Object) :=
  entry ← enumerate transitions;
  member ← entry.2;
  grounding ← groundings_of member;
  [(entry.1, member, grounding)].

Lemma sampler_data_step_spec idx member data grounding data' :
  sampler_data_step cls vars preconditions add_effects delete_effects
    idx partition_idx member data grounding = Some data' →
  data' = (data.1 ++ positives_of_grounding idx member grounding,
           data.2 ++ negatives_of_grounding idx member grounding).
Proof.
  unfold sampler_data_step, positives_of_grounding, negatives_of_grounding,
    is_negative_example, own_positive_grounding, effects_achieved,
    recorded_grounding, positive_datum, negative_datum.
  destruct member as [t obj_to_var], data as [pos neg]; simpl.
  assert (∀ data',
    (ground_add_effects ←
       set_mapM (ground (dict_zip vars grounding)) add_effects;
     ground_delete_effects ←
       set_mapM (ground (dict_zip vars grounding)) delete_effects;
     if bool_decide (ground_add_effects ⊆ t_add_effects t)
        && bool_decide (ground_delete_effects ⊆ t_delete_effects t)
     then Some (pos, neg)
     else Some (pos, neg ++ [(t_state t, dict_zip vars grounding,
                              t_option t)])) = Some data' →
    data' = (pos ++ [],
             neg ++ (if negb (match
                        set_mapM (ground (dict_zip vars grounding))
                                 add_effects,
                        set_mapM (ground (dict_zip vars grounding))
                                 delete_effects with
                      | Some ga, Some gd =>
                          bool_decide (ga ⊆ t_add_effects t)
                          && bool_decide (gd ⊆ t_delete_effects t)
                      | _, _ => false
                      end)
                     then [(t_state t, dict_zip vars grounding,
                            t_option t)]
                     else []))) as Hotherwise.
  { intros d.
    destruct (set_mapM _ add_effects) as [ga|]; simpl; [|done].
    destruct (set_mapM _ delete_effects) as [gd|]; simpl; [|done].
    destruct (_ && _); simpl; intros [= <-]; by rewrite !app_nil_r. }
  case_bool_decide as Hidx; simpl; [|apply Hotherwise].
  destruct (mapM _ vars) as [actual|] eqn:Hactual; simpl; [|done].
  case_bool_decide as Hg; simpl.
  - subst grounding. rewrite bool_decide_eq_true_2 by done. simpl.
    destruct (preconditions_hold _ _ _ _) as [ok|]; simpl; [|done].
    case_guard; simpl; [|done]. intros [= <-]. by rewrite app_nil_r.
  - rewrite bool_decide_eq_false_2 by congruence. simpl. apply Hotherwise.
Qed.

Lemma sampler_data_member_spec idx member data data' :
  sampler_data_member cls vars preconditions add_effects delete_effects
    param_option idx partition_idx data member = Some data' →
  data' = (data.1 ++ (groundings_of member
                        ≫= positives_of_grounding idx member),
           data.2 ++ (groundings_of member
                        ≫= negatives_of_grounding idx member)).
Proof.
  unfold sampler_data_member. case_guard; simpl; [|done].
  apply foldlM_emit. intros ?????. by apply sampler_data_step_spec.
Qed.

Lemma create_sampler_data_spec transitions pos neg :
  _create_sampler_data cls transitions vars preconditions add_effects
    delete_effects param_option partition_idx = Some (pos, neg) →
  pos = expected_positive_data transitions
  ∧ neg = expected_negative_data transitions.
Proof.
  unfold _create_sampler_data.
  destruct (foldlM _ _ (enumerate transitions)) as [data|] eqn:Hloops;
    simpl; [|done].
  destruct (transitions !! partition_idx) as [target|]; simpl; [|done].
  case_guard; simpl; [|done]. intros [= ->].
  eapply (foldlM_emit _
            (λ entry, entry.2 ≫= λ member,
               groundings_of member ≫= positives_of_grounding entry.1 member)
            (λ entry, entry.2 ≫= λ member,
               groundings_of member ≫= negatives_of_grounding entry.1 member))
    in Hloops.
  - simpl in Hloops. by injection Hloops as -> ->.
  - intros acc [idx part] acc' _ Hpart. simpl.
    eapply (foldlM_emit _
              (λ member, groundings_of member
                           ≫= positives_of_grounding idx member)
              (λ member, groundings_of member
                           ≫= negatives_of_grounding idx member)); [|done].
    intros ?????. by apply sampler_data_member_spec.
Qed.

Lemma elem_of_enumerate {A} (l : list A) i x :
  (i, x) ∈ enumerate l ↔ l !! i = Some x.
Proof.
  unfold enumerate. rewrite list_elem_of_lookup. split.
  - intros (j & Hj). apply lookup_zip_Some in Hj as [Hseq Hl].
    apply lookup_seq in Hseq as [-> _]. done.
  - intros Hl. exists i. apply lookup_zip_Some. split; [|done].
    apply lookup_seq. split; [done|]. by eapply lookup_lt_Some.
Qed.

(** The negative examples of a successful call, one by one. *)
Lemma create_sampler_data_negative transitions pos neg d :
  _create_sampler_data cls transitions vars preconditions add_effects
    delete_effects param_option partition_idx = Some (pos, neg) →
  d ∈ neg ↔
  ∃ idx part member grounding,
    transitions !! idx = Some part ∧ member ∈ part
    ∧ grounding ∈ groundings_of member
    ∧ d = negative_datum member grounding
    ∧ own_positive_grounding idx member grounding = false
    ∧ effects_achieved member.1 grounding = false.
Proof.
  intros [_ ->]%create_sampler_data_spec. unfold expected_negative_data.
  rewrite list_elem_of_bind. split.
  - intros ([idx part] & Hd & Hpart%elem_of_enumerate). simpl in Hd.
    apply list_elem_of_bind in Hd as (member & Hd & Hmember).
    apply list_elem_of_bind in Hd as (grounding & Hd & Hgrounding).
    unfold negatives_of_grounding, is_negative_example in Hd.
    destruct (own_positive_grounding _ _ _) eqn:Hown; simpl in Hd;
      [by apply elem_of_nil in Hd|].
    destruct (effects_achieved _ _) eqn:Heff; simpl in Hd;
      [by apply elem_of_nil in Hd|].
    apply list_elem_of_singleton in Hd.
    by exists idx, part, member, grounding.
  - intros (idx & part & member & grounding
            & Hpart & Hmember & Hgrounding & -> & Hown & Heff).
    exists (idx, part). split; [|by apply elem_of_enumerate]. simpl.
    apply list_elem_of_bind. exists member. split; [|done].
    apply list_elem_of_bind. exists grounding. split; [|done].
    unfold negatives_of_grounding, is_negative_example.
    rewrite Hown, Heff. simpl. by left.
Qed.

(** The negative examples of a successful call, as a list: one datum for
    each candidate that is a negative example, in the order of the loops. *)
Lemma create_sampler_data_negatives transitions pos neg :
  _create_sampler_data cls transitions vars preconditions add_effects
    delete_effects param_option partition_idx = Some (pos, neg) →
  neg = (λ c, negative_datum c.1.2 c.2)
        <$> filter (λ c, is_negative_example c.1.1 c.1.2 c.2 = true)
                   (candidates transitions).
Proof.
  intros [_ ->]%create_sampler_data_spec.
  unfold expected_negative_data, candidates.
  induction (enumerate transitions) as [|[idx part] entries IH]; [done|].
  rewrite !bind_cons, filter_app, fmap_app, IH. f_equal. simpl.
  clear IH. induction part as [|member part IH]; [done|].
  rewrite !bind_cons, filter_app, fmap_app, IH. f_equal.
  clear IH. induction (groundings_of member) as [|g gs IH]; [done|].
  rewrite !bind_cons, filter_app, fmap_app, IH. f_equal.
  unfold negatives_of_grounding. rewrite filter_cons. simpl.
  by destruct (is_negative_example idx member g).
Qed.
End SamplerData.



Section SamplerPositives.
Context `{Collaborators}.
Variables (cls : Classifiers) (vars : list Var)
          (preconditions add_effects delete_effects : gset LiftedAtom)
          (param_option : ParameterizedOption) (partition_idx : nat).


Hypothesis effects_closed :
  ∀ l v, l ∈ add_effects ∪ delete_effects → v ∈ variables l →
         v ∈ vars.





End SamplerPositives.

(** ** Inverting a recorded substitution *)

Definition sub_injective (sub : ObjToVarSub) : Prop :=
  ∀ o1 o2 v, sub !! o1 = Some v → sub !! o2 = Some v → o1 = o2.

Lemma invert_sub_lookup (sub : ObjToVarSub) o v :
  sub_injective sub → sub !! o = Some v → invert_sub sub !! v = Some o.
Proof.
  intros Hinj Hov. unfold invert_sub.
  assert (∀ l : list (Object * Var),
            (∀ o' v', (o', v') ∈ l → sub !! o' = Some v') →
            (o, v) ∈ l →
            ∀ m : VarToObjSub,
              foldl (λ m kv, <[kv.2:=kv.1]> m) m l !! v = Some o) as Hfold.
  { induction l as [|[o' v'] l IH] using rev_ind; intros Hl Hin m.
    - by apply elem_of_nil in Hin.
    - rewrite foldl_app. simpl.
      destruct (decide (v' = v)) as [->|Hne].
      + rewrite lookup_insert_eq. f_equal.
        apply (Hinj o' o v); [|done]. apply Hl, elem_of_app. right. by left.
      + rewrite lookup_insert_ne by done. apply IH.
        * intros ???. apply Hl, elem_of_app. by left.
        * apply elem_of_app in Hin as [?|Hin]; [done|].
          apply list_elem_of_singleton in Hin. congruence. }
  apply Hfold.
  - intros o' v' Hin. by apply elem_of_map_to_list in Hin.
  - by apply elem_of_map_to_list.
Qed.

(** Grounding a lifted atom through the inverted substitution gives the
    ground atom back. *)
Lemma ground_lift (sub : ObjToVarSub) (a : GroundAtom) (l : LiftedAtom) :
  sub_injective sub → lift sub a = Some l →
  mapM (λ v, invert_sub sub !! v) (variables l) = Some (objects a)
  ∧ lpredicate l = predicate a.
Proof.
  intros Hinj. unfold lift. intros (vs & Hvs & ->)%fmap_Some. simpl.
  split; [|done]. apply mapM_Some. apply mapM_Some in Hvs.
  induction Hvs as [|o v objs vs Hov _ IH]; constructor; [|done].
  by apply invert_sub_lookup.
Qed.


(** What [utils.abstract] returns is true of the state. *)
Lemma utils_abstract_holds (cls : Classifiers) (s : State)
    (preds : gset Predicate) (a : GroundAtom) :
  a ∈ utils_abstract cls s preds ↔
  predicate a ∈ preds
  ∧ objects a ∈ get_object_combinations (state_objects s)
                  (pred_types (predicate a))
  ∧ cls (predicate a) s (objects a) = true.
Proof.
  unfold utils_abstract. rewrite elem_of_list_to_set, list_elem_of_bind.
  split.
  - intros (p & Ha & Hp%elem_of_elements).
    apply list_elem_of_bind in Ha as (choice & Ha & Hchoice).
    destruct (cls p s choice) eqn:Hcls; [|by apply elem_of_nil in Ha].
    apply list_elem_of_singleton in Ha. by subst a.
  - intros (Hp & Hchoice & Hcls). exists (predicate a).
    split; [|by apply elem_of_elements].
    apply list_elem_of_bind. exists (objects a). split; [|done].
    rewrite Hcls. destruct a. by left.
Qed.

(** ** The learned sampler (C6, C10) *)

Section RejectionSampling.
Context `{Collaborators}.
Variables (classifier : Model) (regressor : Regressor) (space : Box)
          (x : Array) (space_rng : Rng).

(** The generator before the [i]-th draw (counting from 0) and the
    candidate that draw proposes. *)
Fixpoint rng_before (rng : Rng) (i : nat) : Rng :=
  match i with
  | 0 => rng
  | S i' => rng_before (predict_sample regressor x rng).2 i'
  end.

Definition draw (rng : Rng) (i : nat) : Array :=
  (predict_sample regressor x (rng_before rng i)).1.

(** In the words of the spec: the candidate lies within the parameter
    space and the classifier labels bias, state features and candidate
    positive. *)
Definition accepted (p : Array) : bool :=
  contains space p && classify classifier (x ++ p).

(** What is returned once the tries are used up. *)
Definition fallback (p : Array) : Array :=
  if contains space p then p else box_sample space space_rng.

Lemma rejection_loop_accept tries rng last i :
  i < tries → accepted (draw rng i) = true →
  (∀ j, j < i → accepted (draw rng j) = false) →
  rejection_loop classifier regressor space x space_rng tries rng last
  = Some (draw rng i).
Proof.
  revert rng last i. induction tries as [|tries IH]; intros rng last i Hi Hacc Hrej;
    [lia|].
  simpl. destruct (predict_sample regressor x rng) as [p rng'] eqn:Hp.
  destruct i as [|i].
  - unfold draw, accepted in Hacc. simpl in Hacc. rewrite Hp in Hacc.
    simpl in Hacc. rewrite Hacc. unfold draw. simpl. by rewrite Hp.
  - pose proof (Hrej 0 ltac:(lia)) as H0.
    unfold draw, accepted in H0. simpl in H0. rewrite Hp in H0. simpl in H0.
    rewrite H0.
    rewrite (IH rng' (Some p) i); [|lia| |].
    + unfold draw. simpl. by rewrite Hp.
    + unfold draw in *. simpl in Hacc. by rewrite Hp in Hacc.
    + intros j Hj. specialize (Hrej (S j) ltac:(lia)).
      unfold draw in *. simpl in Hrej. by rewrite Hp in Hrej.
Qed.

Lemma rejection_loop_exhaust tries rng last :
  (∀ j, j < tries → accepted (draw rng j) = false) →
  rejection_loop classifier regressor space x space_rng tries rng last
  = fallback <$> (if tries is 0 then last else Some (draw rng (tries - 1))).
Proof.
  revert rng last. induction tries as [|tries IH]; intros rng last Hrej.
  - simpl. destruct last as [p|]; [|done]. simpl. unfold fallback.
    by destruct (contains space p).
  - simpl. destruct (predict_sample regressor x rng) as [p rng'] eqn:Hp.
    pose proof (Hrej 0 ltac:(lia)) as H0.
    unfold draw, accepted in H0. simpl in H0. rewrite Hp in H0. simpl in H0.
    rewrite H0. rewrite IH.
    + destruct tries as [|tries]; simpl.
      * unfold draw. simpl. by rewrite Hp.
      * unfold draw. simpl. rewrite Hp. simpl. by rewrite Nat.sub_0_r.
    + intros j Hj. specialize (Hrej (S j) ltac:(lia)).
      unfold draw in *. simpl in Hrej. by rewrite Hp in Hrej.
Qed.

Lemma rejection_loop_in_bounds tries rng last p :
  contains space (box_sample space space_rng) = true →
  rejection_loop classifier regressor space x space_rng tries rng last
  = Some p →
  contains space p = true.
Proof.
  intros Hbox. revert rng last.
  induction tries as [|tries IH]; intros rng last; simpl.
  - destruct last as [q|]; simpl; [|done].
    destruct (contains space q) eqn:Hq; simpl; intros [= <-]; done.
  - destruct (predict_sample regressor x rng) as [q rng'].
    destruct (contains space q) eqn:Hq; simpl.
    + destruct (classify classifier (x ++ q)); [by intros [= <-]|apply IH].
    + apply IH.
Qed.

Lemma rejection_loop_is_Some tries rng last :
  0 < tries ∨ is_Some last →
  is_Some (rejection_loop classifier regressor space x space_rng
             tries rng last).
Proof.
  revert rng last. induction tries as [|tries IH]; intros rng last Hor; simpl.
  - destruct Hor as [?|[q ->]]; [lia|]. simpl. by destruct (negb _).
  - destruct (predict_sample regressor x rng) as [q rng'].
    destruct (_ && _); [done|]. apply IH. right. done.
Qed.
End RejectionSampling.

Section LearnedSampler.
Context `{Collaborators}.
Variables (classifier : Model) (regressor : Regressor)
          (variables : list Var) (param_option : ParameterizedOption)
          (space_rng : Rng).

(** The input of the models is the bias term followed by the state
    features of the objects bound to the variables. *)
Lemma sampler_input_features (state : State) (sub : VarToObjSub)
    (feats : list Array) :
  Forall2 (λ var f, ∃ obj, sub !! var = Some obj ∧ state !! obj = Some f)
          variables feats →
  sampler_input variables state sub = Some (1%Q :: mjoin feats).
Proof.
  intros Hfeats. unfold sampler_input.
  assert (mapM (λ var, obj ← sub !! var; state !! obj) variables
          = Some feats) as ->; [|done].
  apply mapM_Some. eapply Forall2_impl; [exact Hfeats|].
  intros var f (obj & -> & Hf). done.
Qed.

(** C6. Let [x] be the bias term 1 followed by the features, in the
    state, of the objects bound to the sampler's variables, in the order
    of the variables.  The sampler returns the first of its at most
    [max_rejection_sampling_tries + 1] draws that lies within the option's
    parameter space and that the classifier labels positive on [x]
    followed by the draw; when none does, it returns the last draw if that
    lies within the space, and a sample of the space otherwise. *)
Theorem learned_sampler_rejection (state : State) (rng : Rng)
    (objs : list Object) (feats : list Array) :
  (0 ≤ max_rejection_sampling_tries CFG)%Z →
  Forall2 (λ var f, ∃ obj, dict_zip variables objs !! var = Some obj
                           ∧ state !! obj = Some f)
          variables feats →
  let x := 1%Q :: mjoin feats in
  let space := params_space param_option in
  let last := Z.to_nat (max_rejection_sampling_tries CFG) in
  let result :=
    LearnedSampler_sampler classifier regressor variables param_option
      space_rng state rng objs in
  (∀ i, i ≤ last →
     contains space (draw regressor x rng i)
     && classify classifier (x ++ draw regressor x rng i) = true →
     (∀ j, j < i →
        contains space (draw regressor x rng j)
        && classify classifier (x ++ draw regressor x rng j) = false) →
     result = Some (draw regressor x rng i))
  ∧ ((∀ j, j ≤ last →
        contains space (draw regressor x rng j)
        && classify classifier (x ++ draw regressor x rng j) = false) →
     result = Some (if contains space (draw regressor x rng last)
                    then draw regressor x rng last
                    else box_sample space space_rng)).
Proof.
  intros Hmax Hx x space last result. subst result.
  unfold LearnedSampler_sampler.
  rewrite (sampler_input_features _ _ _ Hx). simpl. fold x.
  replace (Z.to_nat (max_rejection_sampling_tries CFG + 1)) with (S last)
    by (subst last; lia).
  split.
  - intros i Hi Hacc Hrej. apply rejection_loop_accept; [lia|done|done].
  - intros Hrej. rewrite rejection_loop_exhaust.
    + simpl. by rewrite Nat.sub_0_r.
    + intros j Hj. apply Hrej. lia.
Qed.

(** C10. Whatever the state, the generator and the object binding, a
    parameter vector the learned sampler returns lies within the option's
    parameter space, given that the space's own [sample] does; and the
    sampler does return one when its input vector can be built and the
    number of tries is not negative. *)
Theorem learned_sampler_in_bounds (state : State) (rng : Rng)
    (objs : list Object) :
  contains (params_space param_option)
           (box_sample (params_space param_option) space_rng) = true →
  (∀ p,
     LearnedSampler_sampler classifier regressor variables param_option
       space_rng state rng objs = Some p →
     contains (params_space param_option) p = true)
  ∧ ((0 ≤ max_rejection_sampling_tries CFG)%Z →
     is_Some (sampler_input variables state (dict_zip variables objs)) →
     is_Some (LearnedSampler_sampler classifier regressor variables
                param_option space_rng state rng objs)).
Proof.
  intros Hbox. unfold LearnedSampler_sampler. split.
  - intros p. destruct (sampler_input _ _ _) as [x|]; simpl; [|done].
    by apply rejection_loop_in_bounds.
  - intros Hmax [x ->]. simpl. apply rejection_loop_is_Some. left. lia.
Qed.
End LearnedSampler.

(** ** Operators come from large enough partitions with effects (C8) *)

Lemma numbered_name_inj (name : string) (i j : nat) :
  name +:+ pretty i = name +:+ pretty j → i = j.
Proof. intros Heq%(inj (String.app name)). by apply (inj pretty). Qed.

Section OperatorsOfPartitions.
Context `{Collaborators}.
Variables (cls : Classifiers) (param_option : ParameterizedOption)
          (do_sampler_learning : bool).

(** The operator [op] was learned from partition [i]. *)
Definition learned_from (partitions : list Partition) (op : Operator)
    (i : nat) (part : Partition) : Prop :=
  partitions !! i = Some part
  ∧ op_name op = opt_name param_option +:+ pretty i
  ∧ add_effects op = part_add_effects part
  ∧ delete_effects op = part_delete_effects part
  ∧ op_option op = param_option.

Definition large_enough (part : Partition) : Prop :=
  (min_data_for_operator CFG ≤ Z.of_nat (length (part_transitions part)))%Z.

Definition has_effects (part : Partition) : Prop :=
  part_add_effects part ∪ part_delete_effects part ≠ ∅.

Lemma learn_operator_for_partition_spec partitions operators i part operators' :
  partitions !! i = Some part →
  learn_operator_for_partition cls param_option do_sampler_learning
    partitions operators (i, part) = Some operators' →
  operators' = operators
  ∨ ∃ op, operators' = operators ++ [op]
          ∧ learned_from partitions op i part
          ∧ large_enough part ∧ has_effects part.
Proof.
  intros Hpart. unfold learn_operator_for_partition.
  case_bool_decide as Hlen; [intros [= <-]; by left|].
  destruct (bool_decide (part_add_effects part = ∅)
            && bool_decide (part_delete_effects part = ∅)) eqn:Heff;
    [intros [= <-]; by left|].
  destruct (_learn_preconditions _ _ _ _) as [[variables preconditions]|];
    simpl; [|done].
  destruct (if do_sampler_learning && _ then _ else _) as [smp|];
    simpl; [|done].
  intros [= <-]. right. eexists. split; [done|].
  split; [by repeat split|]. split.
  - unfold large_enough. lia.
  - unfold has_effects. intros Hempty.
    apply empty_union_L in Hempty as [Ha Hd].
    by rewrite !bool_decide_eq_true_2 in Heff.
Qed.

(** C8. Every operator [learn_operators_for_option] returns comes from a
    partition with at least [min_data_for_operator] transitions and with
    a non-empty union of add- and delete-effects; a partition with too
    few transitions, or with both effect sets empty, gives no operator. *)
Theorem operators_from_partitions (transitions : list Transition)
    (operators : list Operator) :
  learn_operators_for_option cls param_option transitions
    do_sampler_learning = Some operators →
  ∃ partitions,
    _partition_transitions transitions = Some partitions
    ∧ (∀ op, op ∈ operators →
         ∃ i part,
           learned_from partitions op i part
           ∧ large_enough part
           ∧ add_effects op ∪ delete_effects op ≠ ∅)
    ∧ (∀ i part, partitions !! i = Some part →
         ¬ large_enough part
         ∨ (part_add_effects part = ∅ ∧ part_delete_effects part = ∅) →
         ∀ op, op ∈ operators →
           op_name op ≠ opt_name param_option +:+ pretty i).
Proof.
  unfold learn_operators_for_option.
  destruct (_partition_transitions transitions) as [partitions|];
    simpl; [|done].
  intros Hloop. exists partitions. split; [done|].
  assert (∀ op, op ∈ operators →
            ∃ i part, learned_from partitions op i part
                      ∧ large_enough part ∧ has_effects part) as Hall.
  { revert Hloop. apply (foldlM_invariant
      (λ ops, ∀ op, op ∈ ops →
         ∃ i part, learned_from partitions op i part
                   ∧ large_enough part ∧ has_effects part)).
    - intros ops [i part] ops' Hin%elem_of_enumerate Hops Hstep.
      destruct (learn_operator_for_partition_spec _ _ _ _ _ Hin Hstep)
        as [->|(op' & -> & Hop')]; [done|].
      intros op [Hop| ->%list_elem_of_singleton]%elem_of_app;
        [by apply Hops|by exists i, part].
    - by intros op ?%elem_of_nil. }
  split.
  - intros op Hop. destruct (Hall op Hop) as (i & part & Hfrom & Hlarge & Heff).
    exists i, part. split_and!; [done|done|].
    destruct Hfrom as (_ & _ & -> & -> & _). done.
  - intros i part Hpart Hskip op Hop Hname.
    destruct (Hall op Hop) as (j & part' & Hfrom & Hlarge & Heff).
    destruct Hfrom as (Hpart' & Hname' & _).
    rewrite Hname' in Hname. apply numbered_name_inj in Hname as ->.
    rewrite Hpart in Hpart'. injection Hpart' as <-.
    destruct Hskip as [Hsmall|[Ha Hd]]; [done|].
    apply Heff. rewrite Ha, Hd. apply (left_id_L ∅ (∪)).
Qed.
End OperatorsOfPartitions.

(** ** The sparse teacher dataset (C5) *)

(** The number of atoms the code keeps of [n]: [int(n * ratio)], the
    truncation of the binary64 product. *)
Definition n_samples (r : float) (n : nat) : option Z :=
  int_of_float (float_mul (float_of_Z (Z.of_nat n)) r).

(** In the words of the spec: floor(r × n). *)
Definition label_count (r : Q) (n : nat) : Z :=
  Qfloor (r * inject_Z (Z.of_nat n))%Q.

(** The rational a finite float stands for. *)
Definition float_value (x : float) : Q :=
  match x with
  | S754_finite s m e =>
      (inject_Z (cond_Zopp s (Z.pos m))
       * (if bool_decide (0 ≤ e)%Z then inject_Z (2 ^ e)
          else / inject_Z (2 ^ (- e))))%Q
  | _ => 0%Q
  end.

Lemma sorted_ground_atoms_Permutation (l : list GroundAtom) :
  sorted_ground_atoms l ≡ₚ l.
Proof. apply merge_sort_Permutation. Qed.

(** Distinct positions of a list without repetition hold distinct
    elements. *)
Lemma NoDup_lookups {A} (l : list A) (js : list nat) (xs : list A) :
  NoDup l → NoDup js → mapM (λ j, l !! j) js = Some xs → NoDup xs.
Proof.
  intros Hl Hjs Hxs. apply mapM_Some in Hxs. revert Hjs.
  induction Hxs as [|j x js xs Hj Hrest IH]; intros Hjs; [apply NoDup_nil_2|].
  apply NoDup_cons in Hjs as [Hj' Hjs]. apply NoDup_cons_2; [|by apply IH].
  intros Hx. apply list_elem_of_lookup in Hx as [i Hi].
  destruct (Forall2_lookup_r _ _ _ _ _ Hrest Hi) as (j' & Hj'' & Hlj').
  assert (j = j') as -> by exact (NoDup_lookup l j j' x Hl Hj Hlj').
  apply Hj'. by eapply list_elem_of_lookup_2.
Qed.

Section TeacherDataset.
Context `{Collaborators}.
Variables (cls : Classifiers) (preds : gset Predicate).

(** numpy's [choice] without replacement: [k] distinct positions below
    [n] whenever [k] does not exceed [n], and a [ValueError] when it
    does. *)
Definition choice_without_replacement : Prop :=
  (∀ rng n k l rng', choice rng n k = Some (l, rng') →
     length l = k ∧ NoDup l ∧ ∀ j, j ∈ l → j < n)
  ∧ (∀ rng n k, k ≤ n → is_Some (choice rng n k))
  ∧ (∀ rng n k, n < k → choice rng n k = None).

(** The number of ground atoms of a state over the predicates. *)
Definition n_atoms (s : State) : nat := size (utils_abstract cls s preds).

(** The atoms kept for a state: atoms of the state, as many as
    [int(n * ratio)] (the elements of a set are distinct). *)
Definition sparse_atoms (r : float) (s : State) (atoms : gset GroundAtom)
    : Prop :=
  atoms ⊆ utils_abstract cls s preds
  ∧ n_samples r (n_atoms s) = Some (Z.of_nat (size atoms))
  ∧ 1 ≤ size atoms.

(** The state has enough atoms for the ratio: [int(n * ratio)] is at
    least 1, and at most [n]. *)
Definition enough (r : float) (s : State) : Prop :=
  ∃ k, n_samples r (n_atoms s) = Some k ∧ (1 ≤ k ≤ Z.of_nat (n_atoms s))%Z.

Lemma ground_atoms_length (s : State) :
  length (sorted_ground_atoms (elements (utils_abstract cls s preds)))
  = n_atoms s.
Proof. unfold n_atoms. by rewrite sorted_ground_atoms_Permutation. Qed.

Lemma teacher_atoms_returned (r : float) (rng rng' : Rng) (s : State) atoms :
  choice_without_replacement →
  teacher_atoms cls preds r rng s = Returned (atoms, rng') →
  sparse_atoms r s atoms.
Proof.
  intros (Hsound & _ & _). unfold teacher_atoms, sparse_atoms, n_samples.
  rewrite ground_atoms_length.
  set (ground_atoms :=
         sorted_ground_atoms (elements (utils_abstract cls s preds))).
  assert (NoDup ground_atoms) as Hnodup.
  { unfold ground_atoms. rewrite sorted_ground_atoms_Permutation.
    apply NoDup_elements. }
  destruct (int_of_float _) as [k|]; [|done].
  case_bool_decide as Hk; [done|].
  destruct (choice _ _ _) as [[subset rng1]|] eqn:Hchoice; [|done].
  destruct (Hsound _ _ _ _ _ Hchoice) as (Hlen & Hsubset & _).
  destruct (mapM _ subset) as [subset_atoms|] eqn:Hget; [|done].
  intros [= <- <-].
  assert (size (list_to_set (C := gset GroundAtom) subset_atoms)
          = Z.to_nat k) as Hsize.
  { rewrite size_list_to_set by (by eapply NoDup_lookups).
    apply mapM_Some, Forall2_length in Hget. lia. }
  split_and!.
  - intros a Ha%elem_of_list_to_set.
    apply mapM_Some in Hget. apply list_elem_of_lookup in Ha as [i Hi].
    destruct (Forall2_lookup_r _ _ _ _ _ Hget Hi) as (j & _ & Hj).
    apply list_elem_of_lookup_2 in Hj. unfold ground_atoms in Hj.
    rewrite sorted_ground_atoms_Permutation in Hj.
    by apply elem_of_elements in Hj.
  - rewrite Hsize. f_equal. lia.
  - rewrite Hsize. lia.
Qed.

Lemma teacher_atoms_enough (r : float) (rng : Rng) (s : State) :
  choice_without_replacement → enough r s →
  ∃ atoms rng', teacher_atoms cls preds r rng s = Returned (atoms, rng').
Proof.
  intros (Hsound & Htotal & _) (k & Hk & Hrange).
  unfold teacher_atoms. unfold n_samples in Hk.
  rewrite ground_atoms_length, Hk.
  rewrite bool_decide_eq_false_2 by lia.
  destruct (Htotal rng (n_atoms s) (Z.to_nat k))
    as [[subset rng'] Hchoice]; [lia|].
  rewrite Hchoice.
  destruct (Hsound _ _ _ _ _ Hchoice) as (_ & _ & Hbelow).
  destruct (mapM _ subset) as [subset_atoms|] eqn:Hget; [by eexists _, _|].
  exfalso. apply eq_None_not_Some in Hget. apply Hget, mapM_is_Some.
  apply Forall_forall. intros j Hj. simpl.
  apply lookup_lt_is_Some. rewrite ground_atoms_length. by apply Hbelow.
Qed.

Lemma teacher_atoms_few (r : float) (rng : Rng) (s : State) k :
  n_samples r (n_atoms s) = Some k → (k < 1)%Z →
  teacher_atoms cls preds r rng s
  = ApproachFailure "Need at least 1 ground atom sample".
Proof.
  intros Hk Hfew. unfold teacher_atoms. unfold n_samples in Hk.
  rewrite ground_atoms_length, Hk. by rewrite bool_decide_eq_true_2.
Qed.

Lemma teacher_atoms_many (r : float) (rng : Rng) (s : State) k :
  choice_without_replacement →
  n_samples r (n_atoms s) = Some k → (Z.of_nat (n_atoms s) < k)%Z →
  teacher_atoms cls preds r rng s = OtherError.
Proof.
  intros (_ & _ & Hlarge) Hk Hmany. unfold teacher_atoms.
  unfold n_samples in Hk. rewrite ground_atoms_length, Hk.
  rewrite bool_decide_eq_false_2 by lia. by rewrite Hlarge by lia.
Qed.

Lemma teacher_trajectory_app (r : float) (rng : Rng) (ss1 ss2 : list State) :
  teacher_trajectory cls preds r rng (ss1 ++ ss2)
  = match teacher_trajectory cls preds r rng ss1 with
    | Returned (traj1, rng1) =>
        match teacher_trajectory cls preds r rng1 ss2 with
        | Returned (traj2, rng2) => Returned (traj1 ++ traj2, rng2)
        | ApproachFailure msg => ApproachFailure msg
        | OtherError => OtherError
        end
    | ApproachFailure msg => ApproachFailure msg
    | OtherError => OtherError
    end.
Proof.
  revert rng. induction ss1 as [|s ss1 IH]; intros rng; simpl.
  - by destruct (teacher_trajectory _ _ _ _ ss2) as [[??]| |].
  - destruct (teacher_atoms _ _ _ _ _) as [[atoms rng1]| |]; [|done..].
    rewrite IH.
    destruct (teacher_trajectory _ _ _ rng1 ss1) as [[traj1 rng2]| |];
      [|done..].
    by destruct (teacher_trajectory _ _ _ rng2 ss2) as [[??]| |].
Qed.

Lemma teacher_trajectory_returned (r : float) (rng rng' : Rng)
    (ss : list State) traj :
  choice_without_replacement →
  teacher_trajectory cls preds r rng ss = Returned (traj, rng') →
  Forall2 (sparse_atoms r) ss traj.
Proof.
  intros Hchoice. revert rng traj.
  induction ss as [|s ss IH]; intros rng traj; simpl.
  - intros [= <- <-]. constructor.
  - destruct (teacher_atoms _ _ _ _ _) as [[atoms rng1]| |] eqn:Hs; [|done..].
    destruct (teacher_trajectory _ _ _ _ _) as [[traj1 rng2]| |] eqn:Hss;
      [|done..].
    intros [= <- <-]. constructor; [by eapply teacher_atoms_returned|].
    by eapply IH.
Qed.

Lemma teacher_trajectory_enough (r : float) (rng : Rng) (ss : list State) :
  choice_without_replacement → Forall (enough r) ss →
  ∃ traj rng', teacher_trajectory cls preds r rng ss = Returned (traj, rng').
Proof.
  intros Hchoice Hall. revert rng.
  induction Hall as [|s ss Hs Hss IH]; intros rng; simpl.
  - by eexists _, _.
  - destruct (teacher_atoms_enough r rng s Hchoice Hs)
      as (atoms & rng1 & ->).
    destruct (IH rng1) as (traj & rng2 & ->). by eexists _, _.
Qed.

(** The states are gone through in order, trajectory after trajectory:
    the dataset returns or fails as its states in a row do. *)
Lemma teacher_dataset_from_states (r : float) (rng : Rng)
    (dataset : Dataset) :
  match teacher_trajectory cls preds r rng (mjoin dataset.*1) with
  | Returned _ =>
      ∃ result, teacher_dataset_from cls preds r rng dataset
                = Returned result
  | ApproachFailure msg =>
      teacher_dataset_from cls preds r rng dataset = ApproachFailure msg
  | OtherError => teacher_dataset_from cls preds r rng dataset = OtherError
  end.
Proof.
  revert rng. induction dataset as [|[ss acts] dataset IH]; intros rng.
  - simpl. by eexists.
  - cbn [fmap list_fmap fst mjoin list_join teacher_dataset_from].
    rewrite teacher_trajectory_app.
    destruct (teacher_trajectory _ _ _ rng ss) as [[traj1 rng1]| |];
      [|done..].
    specialize (IH rng1).
    destruct (teacher_trajectory _ _ _ rng1 _) as [[traj2 rng2]| |].
    + destruct IH as [result ->]. by eexists.
    + by rewrite IH.
    + by rewrite IH.
Qed.

Lemma teacher_dataset_from_returned (r : float) (rng : Rng)
    (dataset : Dataset) result :
  choice_without_replacement →
  teacher_dataset_from cls preds r rng dataset = Returned result →
  Forall2 (λ traj atoms_traj, Forall2 (sparse_atoms r) traj.1 atoms_traj)
          dataset result.
Proof.
  intros Hchoice. revert rng result.
  induction dataset as [|[ss acts] dataset IH]; intros rng result; simpl.
  - intros [= <-]. constructor.
  - destruct (teacher_trajectory _ _ _ _ _) as [[traj rng1]| |] eqn:Hss;
      [|done..].
    destruct (teacher_dataset_from _ _ _ _ _) as [result1| |] eqn:Hrest;
      [|done..].
    intros [= <-]. constructor; [by eapply teacher_trajectory_returned|].
    by eapply IH.
Qed.

(** C5, as the code has it.  With numpy's sampling without replacement
    and a label ratio [r], a binary64 float: let [k] be [int(n * r)] for a
    state with [n] ground atoms over the predicates, the product being
    that of binary64 and [int] truncating.  When
    [create_teacher_dataset] returns, it holds for every state of the
    dataset, in order, a set of exactly [k] atoms of that state, and [k]
    is at least 1.  It returns whenever [k] is between 1 and [n] for every
    state.  At the first state for which it is not, the call raises an
    [ApproachFailure], with no retry, when [k] is below 1, and numpy's
    error when [k] exceeds [n]. *)
Theorem teacher_dataset_ratio (dataset : Dataset) :
  let r := teacher_dataset_label_ratio CFG in
  choice_without_replacement →
  (∀ result,
     create_teacher_dataset cls preds dataset = Returned result →
     Forall2 (λ traj atoms_traj, Forall2 (sparse_atoms r) traj.1 atoms_traj)
             dataset result)
  ∧ (Forall (enough r) (mjoin dataset.*1) →
     ∃ result, create_teacher_dataset cls preds dataset = Returned result)
  ∧ (∀ good s rest k,
       mjoin dataset.*1 = good ++ s :: rest →
       Forall (enough r) good →
       n_samples r (n_atoms s) = Some k →
       ((k < 1)%Z →
        create_teacher_dataset cls preds dataset
        = ApproachFailure "Need at least 1 ground atom sample")
       ∧ ((Z.of_nat (n_atoms s) < k)%Z →
          create_teacher_dataset cls preds dataset = OtherError)).
Proof.
  intros r Hchoice. unfold create_teacher_dataset. fold r.
  set (rng := default_rng (seed CFG)).
  pose proof (teacher_dataset_from_states r rng dataset) as Hstates.
  split_and!.
  - intros result. by apply teacher_dataset_from_returned.
  - intros Hall.
    destruct (teacher_trajectory_enough r rng _ Hchoice Hall)
      as (traj & rng' & Htraj).
    by rewrite Htraj in Hstates.
  - intros good s rest k Hsplit Hgood Hk.
    rewrite Hsplit, teacher_trajectory_app in Hstates.
    destruct (teacher_trajectory_enough r rng _ Hchoice Hgood)
      as (traj & rng' & Htraj).
    rewrite Htraj in Hstates. cbn [teacher_trajectory] in Hstates.
    split; intros Hbad.
    + by rewrite (teacher_atoms_few r rng' s k Hk Hbad) in Hstates.
    + by rewrite (teacher_atoms_many r rng' s k Hchoice Hk Hbad) in Hstates.
Qed.
End TeacherDataset.

(** ** The invention loop (C4, C7) *)

(** The name of the candidate of the iteration that starts with [n]
    inventions made. *)
Definition invented_name (n : nat) : string :=
  "InventedPredicate-" +:+ pretty n.


Section CandidateName.
Context `{Collaborators}.

Lemma fit_candidate_name num best entry best' :
  (∀ p, best = Some p → pred_name p.1.1 = invented_name num) →
  fit_candidate num best entry = Some best' →
  ∀ p, best' = Some p → pred_name p.1.1 = invented_name num.
Proof.
  intros Hbest. unfold fit_candidate.
  destruct entry as [params [pos neg]].
  destruct (head (pos ++ neg)) as [x0|]; simpl; [|done].
  destruct (Qlt_bool _ _); [by intros [= <-]|].
  destruct best as [[bp bs]|].
  - destruct (Qlt_bool bs _); intros [= <-] p [= <-]; [done|].
    by apply (Hbest (bp, bs)).
  - by intros [= <-] p [= <-].
Qed.

Lemma choose_predicate_name num data all_params p :
  choose_predicate num data all_params = Some (Some p) →
  pred_name p.1 = invented_name num.
Proof.
  unfold choose_predicate.
  destruct (dict_lookup data all_params) as [[all_pos all_neg]|]; [|done].
  case_bool_decide; [done|]. case_bool_decide; [done|].
  destruct (foldlM _ _ _) as [best|] eqn:Hfits; [|done].
  intros [= Hp].
  assert (∀ q, best = Some q → pred_name q.1.1 = invented_name num)
    as Hname.
  { eapply (foldlM_invariant
              (λ best, ∀ q, best = Some q →
                            pred_name q.1.1 = invented_name num));
      [| |exact Hfits].
    - intros b e b' _ Hb Hstep. by eapply fit_candidate_name.
    - done. }
  destruct best as [[p' score]|]; [|done].
  injection Hp as <-. by apply (Hname (p', score)).
Qed.

Lemma invent_for_operator_name self operator transitions p :
  _invent_for_operator self operator transitions = Some (Some p) →
  pred_name p.1 = invented_name (_num_inventions self).
Proof.
  unfold _invent_for_operator. case_bool_decide; [done|].
  destruct (group_by_objects _ _) as [groups|]; [|done].
  destruct (foldlM _ _ groups) as [data|]; [|done].
  apply choose_predicate_name.
Qed.



End CandidateName.

(** [k] iterations of the loop, each of which finds a candidate. *)
Fixpoint inventions `{Collaborators} (k : nat)
    (self : IterativeInventionApproach) (tbo : TransitionsByOption)
    : option (IterativeInventionApproach * TransitionsByOption) :=
  match k with
  | 0 => Some (self, tbo)
  | S k' =>
      match invention_iteration self tbo with
      | Some (self', Some tbo') => inventions k' self' tbo'
      | _ => None
      end
  end.

Section InventionLoop.
Context `{Collaborators}.



End InventionLoop.

(** ** When the invention loop ends (C7) *)

Section LoopEnds.
Context `{Collaborators}.

Lemma invention_iteration_counter self tbo self' r :
  invention_iteration self tbo = Some (self', r) →
  _num_inventions self'
  = _num_inventions self + (if r is Some _ then 1 else 0).
Proof.
  unfold invention_iteration.
  destruct (_invent_for_some_operator self tbo) as [[rng [new|]]|];
    simpl; [| |done].
  - intros [= <- <-]. done.
  - intros [= <- <-]. simpl. lia.
Qed.

Lemma inventions_counter k self tbo self' tbo' :
  inventions k self tbo = Some (self', tbo') →
  _num_inventions self' = _num_inventions self + k.
Proof.
  revert self tbo. induction k as [|k IH]; intros self tbo; simpl.
  - intros [= <- <-]. lia.
  - destruct (invention_iteration self tbo) as [[self1 [tbo1|]]|] eqn:Hiter;
      [|done|done].
    intros Hrest%IH. apply invention_iteration_counter in Hiter. lia.
Qed.

(** C7, as the code has it.  The invention loop ends exactly when some
    iteration finds no candidate: a run that ends has first gone through
    [k] iterations that each found one, for some [k], and its counter has
    grown by [k]; no bound on [k] is set. *)
Theorem invention_loop_ends fuel self tbo self' tbo' :
  invention_loop fuel self tbo = Finished (self', tbo') ↔
  ∃ k self_k,
    k < fuel
    ∧ inventions k self tbo = Some (self_k, tbo')
    ∧ invention_iteration self_k tbo' = Some (self', None)
    ∧ _num_inventions self' = _num_inventions self + k.
Proof.
  revert self tbo. induction fuel as [|fuel IH]; intros self tbo; simpl.
  - split; [done|]. intros (k & _ & ? & _). lia.
  - destruct (invention_iteration self tbo) as [[self1 [tbo1|]]|] eqn:Hiter.
    + rewrite IH. split.
      * intros (k & self_k & Hk & Hinv & Hlast & Hcount).
        exists (S k), self_k. simpl. rewrite Hiter. split_and!; [lia|done..|].
        apply invention_iteration_counter in Hiter. lia.
      * intros (k & self_k & Hk & Hinv & Hlast & Hcount).
        destruct k as [|k]; simpl in Hinv.
        { injection Hinv as <- <-. rewrite Hlast in Hiter. done. }
        rewrite Hiter in Hinv. exists k, self_k.
        split_and!; [lia|done..|].
        apply invention_iteration_counter in Hiter. lia.
    + split.
      * intros [= <- <-]. exists 0, self. simpl.
        split_and!; [lia|done|done|].
        apply invention_iteration_counter in Hiter. lia.
      * intros (k & self_k & Hk & Hinv & Hlast & Hcount).
        destruct k as [|k]; simpl in Hinv.
        { injection Hinv as <- <-. rewrite Hlast in Hiter.
          by injection Hiter as <-. }
        by rewrite Hiter in Hinv.
    + split; [done|].
      intros (k & self_k & Hk & Hinv & Hlast & Hcount).
      destruct k as [|k]; simpl in Hinv.
      { injection Hinv as <- <-. by rewrite Hlast in Hiter. }
      by rewrite Hiter in Hinv.
Qed.
End LoopEnds.

(** ** A run of the invention loop that never ends (C7) *)

(** The transition with [A] added to its pre- and post-state atoms; its
    effects stay as they are. *)
Definition add_atoms (A : gset GroundAtom) (t : Transition) : Transition :=
  mkTransition (t_state t) (t_next_state t) (t_atoms t ∪ A) (t_option t)
               (t_next_atoms t ∪ A) (t_add_effects t) (t_delete_effects t).

Definition add_atoms_part (A : gset GroundAtom) (part : Partition) : Partition :=
  mkPartition (part_option_args part) (part_add_effects part)
              (part_delete_effects part)
              (prod_map (add_atoms A) id <$> part_transitions part).

Lemma add_atoms_empty (t : Transition) : add_atoms ∅ t = t.
Proof.
  destruct t. unfold add_atoms. simpl. f_equal; apply (right_id_L ∅ (∪)).
Qed.

Section PartitionsIgnoreAtoms.
Context `{Collaborators}.

(** The partitioner looks at the effects and the option of a transition
    only. *)
Lemma new_partition_add_atoms A t :
  new_partition (add_atoms A t) = add_atoms_part A <$> new_partition t.
Proof.
  unfold new_partition, effect_objects.
  cbn [add_atoms t_add_effects t_delete_effects t_option].
  destruct (mapM _ (opt_objects (t_option t))) as [option_args|]; [|done].
  simpl. destruct (set_mapM _ (t_add_effects t)) as [add|]; [|done].
  simpl. destruct (set_mapM _ (t_delete_effects t)) as [del|]; done.
Qed.

Lemma add_to_partitions_add_atoms A t (partitions : list Partition) :
  add_to_partitions (add_atoms A t) (add_atoms_part A <$> partitions)
  = fmap (M := list) (add_atoms_part A) <$> add_to_partitions t partitions.
Proof.
  induction partitions as [|part partitions IH].
  - simpl. rewrite new_partition_add_atoms.
    by destruct (new_partition t).
  - cbn [fmap list_fmap add_to_partitions].
    cbn [add_atoms add_atoms_part t_add_effects t_delete_effects t_option
           part_add_effects part_delete_effects part_option_args
           part_transitions].
    destruct (_unify _ _ _ _ _ _) as [[] sub].
    + cbn [fmap option_fmap option_map list_fmap]. do 2 f_equal.
      unfold add_atoms_part.
      cbn [part_option_args part_add_effects part_delete_effects
             part_transitions].
      f_equal. by rewrite fmap_app.
    + rewrite IH. by destruct (add_to_partitions t partitions).
Qed.

Lemma partition_transitions_add_atoms A transitions :
  _partition_transitions (add_atoms A <$> transitions)
  = fmap (M := list) (add_atoms_part A) <$> _partition_transitions transitions.
Proof.
  unfold _partition_transitions.
  change (@nil Partition) with (add_atoms_part A <$> @nil Partition) at 1.
  generalize (@nil Partition).
  induction transitions as [|t transitions IH]; intros partitions; [done|].
  simpl. rewrite add_to_partitions_add_atoms.
  destruct (add_to_partitions t partitions) as [partitions'|]; [|done].
  simpl. apply IH.
Qed.
End PartitionsIgnoreAtoms.

Module Divergence.
Import Scenario.

Definition x0 : Var := mkVar "?x0" cup_type.
Definition pred0_cup0 : GroundAtom := mkGroundAtom pred0 [cup0].
Definition lifted0 : LiftedAtom := mkLiftedAtom pred0 [x0].
Definition sub0 : ObjToVarSub := {[ cup0 := x0 ]}.
Definition ground0 : VarToObjSub := dict_zip [x0] [cup0].
Definition ts0 : list Transition := [transition1; transition2].
Definition part0 : Partition :=
  mkPartition [] {[lifted0]} ∅ [(transition1, sub0)].
Definition part1 : Partition := mkPartition [] ∅ ∅ [(transition2, ∅)].

(** The store of transitions after some iterations: the two transitions
    of the scenario, with the atoms [A] of the invented predicates. *)
Definition store (A : gset GroundAtom) : TransitionsByOption :=
  [(dummy, add_atoms A <$> ts0)].

(** The operator learned from the first partition, with preconditions
    [pre]. *)
Definition operator0 (pre : gset LiftedAtom) : Operator :=
  mkOperator (opt_name dummy +:+ pretty 0) [x0] pre {[lifted0]} ∅ dummy []
             (RandomSampler dummy).

(** The candidate of the iteration that starts with [n] inventions: named
    after [n], over cups, with the classifier the stand-in fits. *)
Definition candidate (n : nat) : NewPredicate :=
  (mkPredicate (invented_name n) [cup_type],
   LearnedPredicateClassifier (λ _, true)).

Definition candidate_atom (n : nat) : GroundAtom :=
  mkGroundAtom (candidate n).1 [cup0].

(** *** What can be computed once and for all *)

Lemma generate_ts0 :
  generate_transitions cls0 dataset predicates = Some [(dummy, ts0)].
Proof. by_computation (Some [(dummy, ts0)]). Qed.

Lemma partition_ts0 : _partition_transitions ts0 = Some [part0; part1].
Proof. by_computation (Some [part0; part1]). Qed.

Lemma unify_transition1 :
  _unify (t_add_effects transition1) (t_delete_effects transition1)
         (opt_objects (t_option transition1)) {[lifted0]} ∅ []
  = (true, sub0).
Proof. by_computation (true, sub0). Qed.

Lemma effect_objects_transition1 : effect_objects transition1 = {[cup0]}.
Proof. by_computation ({[cup0]} : gset Object). Qed.

Lemma transition1_fields :
  t_atoms transition1 = ∅ ∧ t_next_atoms transition1 = {[pred0_cup0]}
  ∧ t_add_effects transition1 = {[pred0_cup0]}
  ∧ t_delete_effects transition1 = ∅.
Proof.
  split_and!;
    [by_computation (∅ : gset GroundAtom)
    |by_computation ({[pred0_cup0]} : gset GroundAtom)
    |by_computation ({[pred0_cup0]} : gset GroundAtom)
    |by_computation (∅ : gset GroundAtom)].
Qed.

Lemma transition2_fields :
  t_atoms transition2 = ∅ ∧ t_next_atoms transition2 = ∅
  ∧ t_add_effects transition2 = ∅ ∧ t_delete_effects transition2 = ∅.
Proof. split_and!; by_computation (∅ : gset GroundAtom). Qed.

Lemma sorted_range_sub0 :
  sorted_vars (elements (list_to_set (C := gset Var) (map_to_list sub0).*2))
  = [x0].
Proof. by_computation [x0]. Qed.

Lemma store_empty : store ∅ = [(dummy, ts0)].
Proof.
  unfold store, ts0. simpl. by rewrite !add_atoms_empty.
Qed.

(** *** The operator of an iteration *)

(** The preconditions are lifted atoms of [A]. *)
Definition lifted_from (A : gset GroundAtom) (pre : gset LiftedAtom) : Prop :=
  ∀ l, l ∈ pre → ∃ a, a ∈ A ∧ lift sub0 a = Some l.

Lemma member_lifted_atoms_store A :
  ∃ pre,
    member_lifted_atoms [] {[lifted0]} ∅ (add_atoms A transition1, sub0)
    = Some ([x0], pre)
    ∧ lifted_from A pre.
Proof.
  unfold member_lifted_atoms.
  cbn [fst add_atoms t_add_effects t_delete_effects t_option t_atoms].
  rewrite unify_transition1.
  change (effect_objects (add_atoms A transition1))
    with (effect_objects transition1).
  rewrite effect_objects_transition1, sorted_range_sub0.
  destruct transition1_fields as (-> & _).
  rewrite (left_id_L ∅ (∪)).
  destruct (set_mapM_is_Some (lift sub0)
              (filter (λ atom, Forall (λ o, o ∈ ({[cup0]} : gset Object))
                                      (objects atom)) A))
    as [pre Hpre].
  { intros a [Hobjs _]%elem_of_filter. unfold lift.
    apply fmap_is_Some, mapM_is_Some.
    eapply Forall_impl; [exact Hobjs|]. intros o ->%elem_of_singleton.
    simpl. unfold sub0. rewrite lookup_singleton_eq. by eexists. }
  exists pre. case_guard; [|done]. simpl. rewrite Hpre. simpl.
  split; [done|]. intros l Hl.
  apply (set_mapM_elem_of _ _ _ _ Hpre) in Hl as (a & Ha & Hlift).
  apply elem_of_filter in Ha as [_ Ha]. by exists a.
Qed.

Lemma learn_operator_part0 cls partitions operators A pre :
  member_lifted_atoms [] {[lifted0]} ∅ (add_atoms A transition1, sub0)
  = Some ([x0], pre) →
  learn_operator_for_partition cls dummy false partitions operators
    (0, add_atoms_part A part0)
  = Some (operators ++ [operator0 pre]).
Proof.
  intros Hmember. unfold learn_operator_for_partition.
  cbn [add_atoms_part part0 part_transitions part_add_effects
         part_delete_effects part_option_args fmap list_fmap prod_map
         fst snd id length].
  rewrite bool_decide_eq_false_2
    by (change (min_data_for_operator CFG) with 0%Z; lia).
  rewrite (bool_decide_eq_false_2 ({[lifted0]} = ∅))
    by (apply (non_empty_singleton_L (C := gset LiftedAtom))).
  cbn [andb _learn_preconditions].
  rewrite Hmember.
  by cbn [mbind option_bind learn_preconditions_rest andb].
Qed.

Lemma learn_operator_part1 cls partitions operators A :
  learn_operator_for_partition cls dummy false partitions operators
    (1, add_atoms_part A part1)
  = Some operators.
Proof.
  unfold learn_operator_for_partition.
  cbn [add_atoms_part part1 part_transitions part_add_effects
         part_delete_effects part_option_args fmap list_fmap prod_map
         fst snd id length].
  rewrite bool_decide_eq_false_2
    by (change (min_data_for_operator CFG) with 0%Z; lia).
  by rewrite !bool_decide_eq_true_2 by done.
Qed.

Lemma learn_operators_store cls A :
  ∃ pre,
    learn_operators_for_option cls dummy (add_atoms A <$> ts0) false
    = Some [operator0 pre]
    ∧ lifted_from A pre.
Proof.
  destruct (member_lifted_atoms_store A) as (pre & Hmember & Hpre).
  exists pre. split; [|done].
  unfold learn_operators_for_option.
  rewrite partition_transitions_add_atoms, partition_ts0.
  cbn [fmap option_fmap option_map list_fmap mbind option_bind].
  unfold enumerate. cbn [length seq zip zip_with foldlM].
  rewrite (learn_operator_part0 _ _ _ _ _ Hmember).
  cbn [mbind option_bind app].
  by rewrite learn_operator_part1.
Qed.

(** *** The classification problem of an iteration *)

Definition opt_arg_pred0 : Predicate := mkPredicate "OPT-ARGS" (opt_types dummy).
Definition add_effs0 : gset LiftedAtom :=
  wrap_atom_predicates_lifted {[lifted0]} "ADD-".
Definition del_effs0 : gset LiftedAtom :=
  wrap_atom_predicates_lifted ∅ "DEL-".
Definition signature (pre : gset LiftedAtom) : gset LiftedAtom :=
  wrap_atom_predicates_lifted pre "PRE-" ∪ add_effs0 ∪ del_effs0
    ∪ {[mkLiftedAtom opt_arg_pred0 []]}.

Definition data0 : InventionData := [([x0], ([], []))].
Definition data1 : InventionData := [([x0], ([[(4 # 10)%Q]], []))].
Definition data2 : InventionData :=
  [([x0], ([[(4 # 10)%Q]], [[(4 # 10)%Q]]))].

Lemma group_by_objects_store pre A :
  group_by_objects (operator0 pre) (add_atoms A <$> ts0)
  = Some [({[cup0]}, add_atoms A <$> ts0)].
Proof.
  unfold group_by_objects, ts0.
  cbn [fmap list_fmap foldlM operator0 op_option add_atoms t_option t_state].
  case_guard as Hg; [|by destruct Hg].
  case_guard as Hg'; [|by destruct Hg'].
  cbn [mret option_ret mbind option_bind dict_append].
  rewrite decide_True by reflexivity. cbn [app].
  change (t_state transition1) with state_low.
  unfold state_low. by rewrite dom_singleton_L.
Qed.

Lemma powerset_parameters :
  dict_init (powerset [x0] true) (([], []) : list Array * list Array) = data0.
Proof. by_computation data0. Qed.

Lemma invert_sub0 : invert_sub sub0 = ground0.
Proof. by_computation ground0. Qed.

Lemma sub0_injective : sub_injective sub0.
Proof.
  unfold sub0. intros o1 o2 v H1 H2.
  apply lookup_singleton_Some in H1 as [<- _].
  by apply lookup_singleton_Some in H2 as [<- _].
Qed.

Lemma ground0_lift a l :
  lift sub0 a = Some l → ground ground0 l = Some a.
Proof.
  intros Hlift.
  destruct (ground_lift sub0 a l sub0_injective Hlift) as [Hobjs Hp].
  unfold ground. rewrite <-invert_sub0, Hobjs, Hp. by destruct a.
Qed.

Lemma elem_of_wrap_lifted (X : gset LiftedAtom) prefix l :
  l ∈ wrap_atom_predicates_lifted X prefix ↔
  ∃ l', l = mkLiftedAtom (wrap_predicate prefix (lpredicate l'))
                         (variables l')
        ∧ l' ∈ X.
Proof. unfold wrap_atom_predicates_lifted. apply elem_of_map. Qed.

Lemma elem_of_wrap_ground (X : gset GroundAtom) prefix g :
  g ∈ wrap_atom_predicates_ground X prefix ↔
  ∃ g', g = mkGroundAtom (wrap_predicate prefix (predicate g'))
                         (objects g')
        ∧ g' ∈ X.
Proof. unfold wrap_atom_predicates_ground. apply elem_of_map. Qed.

(** The atoms of the signature, grounded: a tagged atom of [A], the
    tagged add-effect, or the option atom. *)
Lemma signature_grounded A pre l :
  lifted_from A pre → l ∈ signature pre →
  (∃ a, a ∈ A
        ∧ l = mkLiftedAtom (wrap_predicate "PRE-" (predicate a))
                           (variables l)
        ∧ lift sub0 a = Some (mkLiftedAtom (predicate a) (variables l))
        ∧ ground ground0 l
          = Some (mkGroundAtom (wrap_predicate "PRE-" (predicate a))
                               (objects a)))
  ∨ (l = mkLiftedAtom (wrap_predicate "ADD-" pred0) [x0]
     ∧ ground ground0 l
       = Some (mkGroundAtom (wrap_predicate "ADD-" pred0) [cup0]))
  ∨ (l = mkLiftedAtom opt_arg_pred0 []
     ∧ ground ground0 l = Some (mkGroundAtom opt_arg_pred0 [])).
Proof.
  intros Hpre. unfold signature.
  rewrite !elem_of_union, elem_of_singleton.
  intros [[[Hl|Hl]|Hl]|Hl].
  - left. apply elem_of_wrap_lifted in Hl as (l' & -> & Hl').
    destruct (Hpre l' Hl') as (a & Ha & Hlift).
    pose proof (ground0_lift a l' Hlift) as Hground.
    assert (lpredicate l' = predicate a) as Hp.
    { unfold lift in Hlift. apply fmap_Some in Hlift as (vs & _ & ->). done. }
    exists a. simpl. rewrite <-Hp. split_and!; [done|done|by destruct l'|].
    unfold ground in *. simpl.
    destruct (mapM _ (variables l')) as [objs|]; [|done].
    simpl in *. injection Hground as Hg. rewrite <-Hg. done.
  - right. left. apply elem_of_wrap_lifted in Hl as (l' & -> & Hl').
    unfold add_effs0 in Hl'. apply elem_of_singleton in Hl' as ->.
    split; [done|]. by_computation (Some (mkGroundAtom (wrap_predicate "ADD-" pred0) [cup0])).
  - apply elem_of_wrap_lifted in Hl as (l' & _ & []%elem_of_empty).
  - right. right. subst l. split; [done|].
    by_computation (Some (mkGroundAtom opt_arg_pred0 [])).
Qed.

Lemma elem_of_lifted_vars (X : gset LiftedAtom) v :
  v ∈ lifted_vars X ↔ ∃ l, l ∈ X ∧ v ∈ variables l.
Proof.
  unfold lifted_vars. rewrite elem_of_list_to_set, list_elem_of_bind.
  by setoid_rewrite elem_of_elements; split; intros (l & ? & ?); exists l.
Qed.

Lemma lift_sub0_variables a l v :
  lift sub0 a = Some l → v ∈ variables l → v = x0.
Proof.
  unfold lift. intros (vs & Hvs & ->)%fmap_Some Hv. simpl in Hv.
  apply mapM_Some in Hvs.
  apply list_elem_of_lookup in Hv as [i Hi].
  destruct (Forall2_lookup_r _ _ _ _ _ Hvs Hi) as (o & _ & Ho).
  unfold sub0 in Ho. by apply lookup_singleton_Some in Ho as [_ <-].
Qed.

Lemma signature_vars A pre :
  lifted_from A pre → lifted_vars (signature pre) = {[x0]}.
Proof.
  intros Hpre. apply set_eq. intros v.
  rewrite elem_of_lifted_vars, elem_of_singleton. split.
  - intros (l & Hl & Hv).
    destruct (signature_grounded A pre l Hpre Hl)
      as [(a & _ & _ & Hlift & _)|[[-> _]|[-> _]]].
    + by eapply (lift_sub0_variables a).
    + simpl in Hv. by apply list_elem_of_singleton in Hv.
    + simpl in Hv. by apply elem_of_nil in Hv.
  - intros ->. exists (mkLiftedAtom (wrap_predicate "ADD-" pred0) [x0]).
    split; [|by left]. unfold signature, add_effs0.
    rewrite !elem_of_union. left. left. right.
    apply elem_of_wrap_lifted. exists lifted0. split; [done|].
    by apply elem_of_singleton.
Qed.

Lemma sorted_vars_x0 : sorted_vars [x0] = [x0].
Proof. by_computation [x0]. Qed.

Lemma combinations_cup0 :
  get_object_combinations (sorted_objects [cup0]) (var_type <$> [x0])
  = [[cup0]].
Proof. by_computation [[cup0]]. Qed.

(** The one grounding of the signature over the objects of the states. *)
Lemma get_all_groundings_store A pre :
  lifted_from A pre →
  ∃ G,
    get_all_groundings (signature pre) {[cup0]} = Some [(G, ground0)]
    ∧ ∀ g, g ∈ G ↔ ∃ l, l ∈ signature pre ∧ ground ground0 l = Some g.
Proof.
  intros Hpre. unfold get_all_groundings.
  rewrite (signature_vars A pre Hpre), !elements_singleton, sorted_vars_x0,
    combinations_cup0.
  cbn [mapM]. fold ground0.
  destruct (set_mapM_is_Some (ground ground0) (signature pre)) as [G HG].
  { intros l Hl.
    destruct (signature_grounded A pre l Hpre Hl)
      as [(a & _ & _ & _ & ->)|[[_ ->]|[_ ->]]]; by eexists. }
  exists G. rewrite HG. split; [done|].
  intros g. by apply set_mapM_elem_of.
Qed.

Definition ground_add0 : gset GroundAtom :=
  wrap_atom_predicates_ground {[pred0_cup0]} "ADD-".

Lemma ground_add_effs0 :
  set_mapM (ground ground0) add_effs0 = Some ground_add0.
Proof. by_computation (Some ground_add0). Qed.

Lemma ground_del_effs0 :
  set_mapM (ground ground0) del_effs0 = Some (∅ : gset GroundAtom).
Proof. by_computation (Some (∅ : gset GroundAtom)). Qed.

Lemma transition1_predicted :
  bool_decide (wrap_atom_predicates_ground (t_add_effects transition1) "ADD-"
               = ground_add0)
  && bool_decide (wrap_atom_predicates_ground (t_delete_effects transition1)
                    "DEL-" = ∅)
  = true.
Proof. by_computation true. Qed.

Lemma transition2_not_predicted :
  bool_decide (wrap_atom_predicates_ground (t_add_effects transition2) "ADD-"
               = ground_add0)
  && bool_decide (wrap_atom_predicates_ground (t_delete_effects transition2)
                    "DEL-" = ∅)
  = false.
Proof. by_computation false. Qed.

Lemma record_transition1 :
  record_example (t_state transition1) ground0 true data0 = Some data1.
Proof. by_computation (Some data1). Qed.

Lemma record_transition2 :
  record_example (t_state transition2) ground0 false data1 = Some data2.
Proof. by_computation (Some data2). Qed.

(** The preconditions and the option arguments of the signature can be
    bound to both transitions. *)
Lemma pre_opt_grounding_bound A pre G t :
  lifted_from A pre →
  (∀ g, g ∈ G ↔ ∃ l, l ∈ signature pre ∧ ground ground0 l = Some g) →
  opt_objects (t_option t) = [] →
  filter (λ atom, pred_name (predicate atom) = "OPT-ARGS"
                  ∨ String.prefix "PRE-" (pred_name (predicate atom))) G
  ⊆ wrap_atom_predicates_ground (t_atoms t ∪ A) "PRE-"
    ∪ {[mkGroundAtom opt_arg_pred0 (opt_objects (t_option t))]}.
Proof.
  intros Hpre HG Hobjs g [Htag Hg]%elem_of_filter.
  apply HG in Hg as (l & Hl & Hground).
  rewrite elem_of_union, elem_of_singleton, Hobjs.
  destruct (signature_grounded A pre l Hpre Hl)
    as [(a & Ha & _ & _ & Hg)|[[_ Hg]|[_ Hg]]];
    rewrite Hg in Hground; injection Hground as <-.
  - left. apply elem_of_wrap_ground. exists a. split; [done|].
    apply elem_of_union. by right.
  - exfalso. vm_compute in Htag. by destruct Htag.
  - by right.
Qed.

Lemma invention_example_store A pre G data t :
  lifted_from A pre →
  (∀ g, g ∈ G ↔ ∃ l, l ∈ signature pre ∧ ground ground0 l = Some g) →
  opt_objects (t_option t) = [] →
  invention_example opt_arg_pred0 add_effs0 del_effs0 G ground0 data
    (add_atoms A t)
  = record_example (t_state t) ground0
      (bool_decide (wrap_atom_predicates_ground (t_add_effects t) "ADD-"
                    = ground_add0)
       && bool_decide (wrap_atom_predicates_ground (t_delete_effects t)
                         "DEL-" = ∅))
      data.
Proof.
  intros Hpre HG Hobjs. unfold invention_example.
  cbn [add_atoms t_state t_option t_atoms t_add_effects t_delete_effects].
  rewrite bool_decide_eq_true_2 by (by eapply pre_opt_grounding_bound).
  cbn [negb]. rewrite ground_add_effs0, ground_del_effs0. done.
Qed.

Lemma invention_group_store A pre :
  lifted_from A pre →
  invention_group opt_arg_pred0 add_effs0 del_effs0 (signature pre) data0
    ({[cup0]}, add_atoms A <$> ts0)
  = Some data2.
Proof.
  intros Hpre. unfold invention_group. cbn [fst snd].
  destruct (get_all_groundings_store A pre Hpre) as (G & -> & HG).
  cbn [mbind option_bind foldlM fmap list_fmap ts0 fst snd].
  rewrite (invention_example_store A pre G data0 transition1 Hpre HG)
    by reflexivity.
  rewrite transition1_predicted, record_transition1.
  cbn [mbind option_bind].
  rewrite (invention_example_store A pre G data1 transition2 Hpre HG)
    by reflexivity.
  rewrite transition2_not_predicted, record_transition2.
  done.
Qed.

Lemma choose_candidate n :
  choose_predicate n data2 [x0] = Some (Some (candidate n)).
Proof. by_computation (Some (Some (candidate n))). Qed.

(** The operator mispredicts the second transition, and the stand-in
    classifier passes the acceptance score: a candidate is found. *)
Lemma invent_for_operator_store self A pre :
  lifted_from A pre →
  _invent_for_operator self (operator0 pre) (add_atoms A <$> ts0)
  = Some (Some (candidate (_num_inventions self))).
Proof.
  intros Hpre. unfold _invent_for_operator.
  cbn [operator0 parameters preconditions add_effects
         delete_effects op_option option_vars].
  rewrite bool_decide_eq_false_2 by done.
  rewrite group_by_objects_store, powerset_parameters.
  cbn [foldlM].
  change (wrap_atom_predicates_lifted pre "PRE-"
          ∪ wrap_atom_predicates_lifted {[lifted0]} "ADD-"
          ∪ wrap_atom_predicates_lifted ∅ "DEL-"
          ∪ {[mkLiftedAtom (mkPredicate "OPT-ARGS" (opt_types dummy)) []]})
    with (signature pre).
  change (mkPredicate "OPT-ARGS" (opt_types dummy)) with opt_arg_pred0.
  change (wrap_atom_predicates_lifted {[lifted0]} "ADD-") with add_effs0.
  change (wrap_atom_predicates_lifted ∅ "DEL-") with del_effs0.
  rewrite (invention_group_store A pre Hpre).
  cbn [mbind option_bind]. apply choose_candidate.
Qed.

Lemma invent_for_some_operator_store self A :
  ∃ rng,
    _invent_for_some_operator self (store A)
    = Some (rng, Some (candidate (_num_inventions self))).
Proof.
  destruct (learn_operators_store (classifiers self) A) as (pre & Hops & Hpre).
  exists (S (S (_rng self))).
  unfold _invent_for_some_operator, store.
  cbn [fmap list_fmap fst length permutation collaborators stand_ins seq
         invent_for_options lookup list_lookup mbind option_bind
         dict_lookup].
  rewrite decide_True by done. cbn [default from_option id].
  rewrite Hops.
  cbn [mbind option_bind length permutation collaborators stand_ins seq
         invent_for_operators lookup list_lookup].
  by rewrite (invent_for_operator_store self A pre Hpre).
Qed.

(** *** Re-abstraction with the candidate and its negation *)

Lemma state_objects_low : state_objects state_low = [cup0].
Proof. by_computation [cup0]. Qed.
Lemma state_objects_high : state_objects state_high = [cup0].
Proof. by_computation [cup0]. Qed.
Lemma vec_low : vec state_low [cup0] = Some [(4 # 10)%Q].
Proof. by_computation (Some [(4 # 10)%Q]). Qed.
Lemma vec_high : vec state_high [cup0] = Some [(9 # 10)%Q].
Proof. by_computation (Some [(9 # 10)%Q]). Qed.
Lemma combinations_cups :
  get_object_combinations [cup0] [cup_type] = [[cup0]].
Proof. by_computation [[cup0]]. Qed.

Lemma candidate_not_negation n :
  (candidate n).1 ≠ (get_negation (candidate n)).1.
Proof. intros Heq. apply (f_equal pred_name) in Heq. discriminate Heq. Qed.

Lemma candidate_atom_not_pred0 n : candidate_atom n ≠ pred0_cup0.
Proof. intros Heq. apply (f_equal (pred_name ∘ predicate)) in Heq. discriminate Heq. Qed.

(** The candidate holds of the cup in both states, its negation in
    neither. *)
Lemma abstract_candidate cls n s x :
  state_objects s = [cup0] → vec s [cup0] = Some x →
  utils_abstract
    (with_classifier (with_classifier cls (candidate n))
                     (get_negation (candidate n)))
    s {[(candidate n).1; (get_negation (candidate n)).1]}
  = {[candidate_atom n]}.
Proof.
  intros Hobjs Hvec. apply set_eq. intros a.
  rewrite utils_abstract_holds, Hobjs, elem_of_singleton,
    elem_of_union, !elem_of_singleton.
  unfold with_classifier. split.
  - intros ([Hp|Hp] & Hcomb & Hcls); rewrite Hp in Hcomb, Hcls;
      cbn [candidate get_negation fst snd pred_types] in Hcomb;
      rewrite combinations_cups in Hcomb;
      apply list_elem_of_singleton in Hcomb.
    + clear Hcls. destruct a as [p objs].
      cbn [predicate objects] in Hp, Hcomb. by subst.
    + exfalso. rewrite decide_True in Hcls by done.
      rewrite Hcomb in Hcls. cbn [get_negation snd candidate] in Hcls.
      unfold LearnedPredicateClassifier in Hcls. by rewrite Hvec in Hcls.
  - intros ->. cbn [candidate_atom predicate objects].
    split_and!; [by left| |].
    + cbn [candidate fst pred_types]. rewrite combinations_cups. by left.
    + rewrite decide_False by apply candidate_not_negation.
      rewrite decide_True by done. cbn [candidate snd].
      unfold LearnedPredicateClassifier. by rewrite Hvec.
Qed.

Lemma difference_added `{Countable T} (p : T) (X : gset T) :
  p ∉ X → ({[p]} ∪ X) ∖ (∅ ∪ X) = {[p]}.
Proof.
  intros Hp. apply set_eq. intros a.
  rewrite elem_of_difference, !elem_of_union, elem_of_singleton,
    elem_of_empty.
  split; [tauto|]. intros ->. tauto.
Qed.

Lemma difference_kept `{Countable T} (X Y : gset T) :
  (∅ ∪ X) ∖ (Y ∪ X) = ∅.
Proof.
  apply set_eq. intros a.
  rewrite elem_of_difference, !elem_of_union, elem_of_empty. tauto.
Qed.

Lemma reabstract_store cls n A :
  pred0_cup0 ∉ A →
  reabstract_all
    (with_classifier (with_classifier cls (candidate n))
                     (get_negation (candidate n)))
    (candidate n).1 (get_negation (candidate n)).1 (store A)
  = store (A ∪ {[candidate_atom n]}).
Proof.
  intros HA. unfold reabstract_all, store, ts0.
  cbn [fmap list_fmap fst snd].
  destruct transition1_fields as (Ha1 & Hn1 & Hadd1 & Hdel1).
  destruct transition2_fields as (Ha2 & Hn2 & Hadd2 & Hdel2).
  assert (pred0_cup0 ∉ A ∪ {[candidate_atom n]}) as HA'.
  { rewrite elem_of_union, elem_of_singleton.
    intros [Hin|Heq]; [exact (HA Hin)|].
    symmetry in Heq. exact (candidate_atom_not_pred0 n Heq). }
  assert (reabstract
            (with_classifier (with_classifier cls (candidate n))
                             (get_negation (candidate n)))
            (candidate n).1 (get_negation (candidate n)).1
            (add_atoms A transition1)
          = add_atoms (A ∪ {[candidate_atom n]}) transition1) as ->.
  { unfold reabstract, add_atoms.
    cbn [t_state t_next_state t_atoms t_next_atoms t_option
           t_add_effects t_delete_effects].
    change (t_state transition1) with state_low.
    change (t_next_state transition1) with state_high.
    rewrite (abstract_candidate cls n state_low _ state_objects_low vec_low),
      (abstract_candidate cls n state_high _ state_objects_high vec_high).
    rewrite Ha1, Hn1, Hadd1, Hdel1, <-!(assoc_L (∪)).
    by rewrite (difference_added _ _ HA'), difference_kept. }
  assert (reabstract
            (with_classifier (with_classifier cls (candidate n))
                             (get_negation (candidate n)))
            (candidate n).1 (get_negation (candidate n)).1
            (add_atoms A transition2)
          = add_atoms (A ∪ {[candidate_atom n]}) transition2) as ->.
  { unfold reabstract, add_atoms.
    cbn [t_state t_next_state t_atoms t_next_atoms t_option
           t_add_effects t_delete_effects].
    change (t_state transition2) with state_low.
    change (t_next_state transition2) with state_low.
    rewrite (abstract_candidate cls n state_low _ state_objects_low vec_low).
    rewrite Ha2, Hn2, Hadd2, Hdel2, <-!(assoc_L (∪)).
    by rewrite !difference_kept. }
  done.
Qed.

(** *** The loop *)

(** Whatever the state of the approach, an iteration on such a store
    finds a candidate and leaves such a store. *)
Lemma invention_iteration_store self A :
  pred0_cup0 ∉ A →
  ∃ self' A',
    invention_iteration self (store A) = Some (self', Some (store A'))
    ∧ pred0_cup0 ∉ A'.
Proof.
  intros HA. destruct (invent_for_some_operator_store self A) as [rng Hfound].
  unfold invention_iteration. rewrite Hfound.
  cbn [mbind option_bind].
  rewrite (reabstract_store _ _ A HA).
  eexists _, _. split; [done|].
  rewrite elem_of_union, elem_of_singleton.
  intros [Hin|Heq]; [exact (HA Hin)|]. symmetry in Heq.
  exact (candidate_atom_not_pred0 _ Heq).
Qed.

Lemma invention_loop_store fuel self A :
  pred0_cup0 ∉ A → invention_loop fuel self (store A) = OutOfFuel.
Proof.
  revert self A. induction fuel as [|fuel IH]; intros self A HA; [done|].
  destruct (invention_iteration_store self A HA) as (self' & A' & Hiter & HA').
  simpl. rewrite Hiter. by apply IH.
Qed.

Lemma learn_from_offline_dataset_runs_on fuel :
  learn_from_offline_dataset fuel approach0 dataset = OutOfFuel.
Proof.
  unfold learn_from_offline_dataset.
  change (classifiers approach0) with cls0.
  replace (_get_current_predicates approach0) with predicates
    by (by_computation (_get_current_predicates approach0)).
  rewrite generate_ts0, <-store_empty.
  apply invention_loop_store. apply not_elem_of_empty.
Qed.
End Divergence.

(** ** The dictionary of transitions *)

Lemma dict_lookup_append {K V} `{EqDecision K} (d : list (K * list V)) k v k' :
  dict_lookup (dict_append d k v) k'
  = if decide (k = k') then Some (default [] (dict_lookup d k) ++ [v])
    else dict_lookup d k'.
Proof.
  induction d as [|[k0 vs] d IH]; simpl; [by case_decide|].
  destruct (decide (k0 = k)) as [->|Hne]; simpl.
  - destruct (decide (k = k')); done.
  - rewrite IH. destruct (decide (k0 = k')) as [->|Hne'];
      destruct (decide (k = k')); congruence.
Qed.

Lemma dict_append_inv {K V} `{EqDecision K} (d : list (K * list V)) k v k' vs :
  (k', vs) ∈ dict_append d k v →
  (k', vs) ∈ d
  ∨ (k' = k ∧ ∃ vs0, vs = vs0 ++ [v] ∧ (vs0 = [] ∨ (k, vs0) ∈ d)).
Proof.
  induction d as [|[k0 vs0] d IH]; simpl.
  - intros [= -> ->]%list_elem_of_singleton. right. split; [done|].
    exists []. split; [done|by left].
  - destruct (decide (k0 = k)) as [->|Hne];
      intros [Heq|Hin]%elem_of_cons.
    + injection Heq as -> ->. right. split; [done|].
      exists vs0. split; [done|]. right. by left.
    + left. by right.
    + injection Heq as -> ->. left. by left.
    + destruct (IH Hin) as [?|(-> & vs1 & -> & Hvs1)]; [left; by right|].
      right. split; [done|]. exists vs1. split; [done|].
      destruct Hvs1 as [->|?]; [by left|right; by right].
Qed.

Lemma dict_append_keys {K V} `{EqDecision K} (d : list (K * list V)) k v :
  (dict_append d k v).*1 = if decide (k ∈ d.*1) then d.*1 else d.*1 ++ [k].
Proof.
  induction d as [|[k0 vs0] d IH].
  - rewrite decide_False; [done|]. by intros ?%elem_of_nil.
  - cbn [dict_append]. destruct (decide (k0 = k)) as [->|Hne];
      rewrite !fmap_cons; cbn [fst].
    + rewrite decide_True; [done|]. by left.
    + rewrite IH. destruct (decide (k ∈ d.*1)) as [Hin|Hnin].
      * rewrite decide_True; [done|]. by right.
      * rewrite decide_False; [done|].
        intros [?|?]%elem_of_cons; [congruence|done].
Qed.

Lemma dict_append_NoDup {K V} `{EqDecision K} (d : list (K * list V)) k v :
  NoDup d.*1 → NoDup (dict_append d k v).*1.
Proof.
  intros Hd. rewrite dict_append_keys. destruct (decide (k ∈ d.*1)); [done|].
  apply NoDup_app. split_and!; [done| |apply NoDup_singleton].
  intros x Hx ->%list_elem_of_singleton. done.
Qed.

(** In a dictionary with distinct keys, membership and lookup agree. *)
Lemma dict_lookup_elem_of {K V} `{EqDecision K} (d : list (K * V)) k v :
  NoDup d.*1 → (k, v) ∈ d ↔ dict_lookup d k = Some v.
Proof.
  induction d as [|[k0 v0] d IH]; simpl; intros Hnd.
  - split; [by intros ?%elem_of_nil|done].
  - apply NoDup_cons in Hnd as [Hk0 Hnd].
    destruct (decide (k0 = k)) as [->|Hne].
    + split.
      * intros [[= ->]|Hin]%elem_of_cons; [done|].
        destruct Hk0. apply list_elem_of_fmap. by exists (k, v).
      * intros [= ->]. by left.
    + rewrite <-IH by done. split.
      * intros [[= -> ->]|?]%elem_of_cons; done.
      * intros ?. by right.
Qed.

Section GenerateTransitions.
Context `{Collaborators}.
Variables (cls : Classifiers) (predicates : gset Predicate).

(** What [generate_transitions] keeps true of its dictionary: the keys
    are distinct, no key has an empty list, and every transition is
    filed under the parent of its option, with the abstractions of its
    two states and their symmetric split. *)
Definition filed (o : ParameterizedOption) (t : Transition) : Prop :=
  parent (t_option t) = o
  ∧ t_atoms t = utils_abstract cls (t_state t) predicates
  ∧ t_next_atoms t = utils_abstract cls (t_next_state t) predicates
  ∧ t_add_effects t = t_next_atoms t ∖ t_atoms t
  ∧ t_delete_effects t = t_atoms t ∖ t_next_atoms t.

Definition well_filed (tbo : TransitionsByOption) : Prop :=
  NoDup tbo.*1
  ∧ ∀ o ts, (o, ts) ∈ tbo → ts ≠ [] ∧ ∀ t, t ∈ ts → filed o t.

Lemma well_filed_append tbo t :
  well_filed tbo → filed (parent (t_option t)) t →
  well_filed (dict_append tbo (parent (t_option t)) t).
Proof.
  intros [Hnd Hall] Ht. split; [by apply dict_append_NoDup|].
  intros o ts [Hin|(-> & ts0 & -> & Hts0)]%dict_append_inv; [by apply Hall|].
  split; [by destruct ts0|].
  intros t' [Ht'| ->%list_elem_of_singleton]%elem_of_app; [|done].
  destruct Hts0 as [->|Hin]; [by apply elem_of_nil in Ht'|].
  by apply (Hall _ _ Hin).
Qed.

Lemma transitions_of_options_filed states i options tbo tbo' :
  well_filed tbo →
  transitions_of_options cls predicates states i options tbo = Some tbo' →
  well_filed tbo'.
Proof.
  revert i tbo. induction options as [|opt options IH]; intros i tbo Hwf; simpl.
  - by intros [= <-].
  - destruct (states !! i) as [s|]; simpl; [|done].
    destruct (states !! S i) as [s'|]; simpl; [|done].
    apply IH.
    exact (well_filed_append tbo
             (mkTransition s s' _ opt _ _ _) Hwf
             (conj eq_refl (conj eq_refl (conj eq_refl (conj eq_refl eq_refl))))).
Qed.

Lemma generate_transitions_from_filed (dataset : Dataset)
    (tbo0 tbo : TransitionsByOption) :
  well_filed tbo0 →
  generate_transitions_from cls predicates dataset tbo0 = Some tbo →
  well_filed tbo.
Proof.
  revert tbo0. induction dataset as [|act_traj dataset' IH];
    intros tbo0 Hwf; simpl.
  - by intros [= <-].
  - destruct (action_to_option_trajectory act_traj) as [[states options]|];
      simpl; [|done].
    case_guard; simpl; [|done].
    destruct (transitions_of_options _ _ _ _ _ _) as [tbo1|] eqn:Hopts;
      simpl; [|done].
    apply IH. by eapply transitions_of_options_filed.
Qed.

Lemma generate_transitions_well_filed (dataset : Dataset)
    (tbo : TransitionsByOption) :
  generate_transitions cls dataset predicates = Some tbo → well_filed tbo.
Proof.
  apply generate_transitions_from_filed.
  split; [constructor|by intros ?? ?%elem_of_nil].
Qed.
End GenerateTransitions.

(** * The partitions of [_partition_transitions] *)

(** ** Substitutions over distinct keys *)

Lemma foldl_insert_lookup `{Countable K} {V} (l : list (K * V)) k v :
  NoDup l.*1 →
  foldl (λ (m : gmap K V) kv, <[kv.1 := kv.2]> m) ∅ l !! k = Some v
  ↔ (k, v) ∈ l.
Proof.
  induction l as [|[k0 v0] l IH] using rev_ind; intros Hnd.
  - simpl. rewrite lookup_empty. split; [done|by intros ?%elem_of_nil].
  - rewrite fmap_app in Hnd. apply NoDup_app in Hnd as (Hl & Hk0 & _).
    rewrite foldl_app. simpl. rewrite elem_of_app, list_elem_of_singleton.
    destruct (decide (k0 = k)) as [->|Hne].
    + rewrite lookup_insert_eq. split.
      * intros [= ->]. by right.
      * intros [Hin|[= ->]]; [|done]. exfalso. apply (Hk0 k).
        -- apply list_elem_of_fmap. by exists (k, v).
        -- by left.
    + rewrite lookup_insert_ne by done. rewrite IH by done. split.
      * intros ?. by left.
      * intros [?|[= ??]]; [done|congruence].
Qed.

Lemma dict_zip_lookup `{Countable K} {V} (ks : list K) (vs : list V) k v :
  NoDup ks → length ks = length vs →
  dict_zip ks vs !! k = Some v ↔ ∃ i, ks !! i = Some k ∧ vs !! i = Some v.
Proof.
  intros Hnd Hlen. unfold dict_zip.
  rewrite foldl_insert_lookup by (rewrite fst_zip by lia; done).
  rewrite list_elem_of_lookup. split.
  - intros [i Hi]. exists i. apply lookup_zip_with_Some in Hi
      as (k' & v' & [= -> ->] & ? & ?). done.
  - intros (i & Hk & Hv). exists i. apply lookup_zip_with_Some. eauto.
Qed.

Lemma sorted_objects_Permutation (l : list Object) : sorted_objects l ≡ₚ l.
Proof. apply merge_sort_Permutation. Qed.

(** ** The naming of a new partition *)





Section NewPartition.
Context `{Collaborators}.

(** The sorted objects of a transition and the variables they get. *)
Definition objects_lst (t : Transition) : list Object :=
  sorted_objects (elements (effect_objects t)).

Definition fresh_variables (t : Transition) : list Var :=
  imap (λ i o, mkVar ("?x" +:+ pretty i) (obj_type o)) (objects_lst t).

Definition fresh_sub (t : Transition) : ObjToVarSub :=
  dict_zip (objects_lst t) (fresh_variables t).

Lemma objects_lst_NoDup t : NoDup (objects_lst t).
Proof.
  unfold objects_lst. rewrite sorted_objects_Permutation.
  apply NoDup_elements.
Qed.

Lemma elem_of_objects_lst t o : o ∈ objects_lst t ↔ o ∈ effect_objects t.
Proof.
  unfold objects_lst. rewrite sorted_objects_Permutation.
  apply elem_of_elements.
Qed.

Lemma fresh_sub_lookup t o v :
  fresh_sub t !! o = Some v
  ↔ ∃ i, objects_lst t !! i = Some o
         ∧ v = mkVar ("?x" +:+ pretty i) (obj_type o).
Proof.
  unfold fresh_sub. rewrite dict_zip_lookup.
  - unfold fresh_variables. split.
    + intros (i & Ho & Hv). exists i. split; [done|].
      rewrite list_lookup_imap, Ho in Hv. simpl in Hv. congruence.
    + intros (i & Ho & ->). exists i. split; [done|].
      by rewrite list_lookup_imap, Ho.
  - apply objects_lst_NoDup.
  - unfold fresh_variables. by rewrite length_imap.
Qed.

Lemma fresh_sub_is_Some t o :
  o ∈ effect_objects t → is_Some (fresh_sub t !! o).
Proof.
  intros Ho%elem_of_objects_lst. apply list_elem_of_lookup in Ho as [i Hi].
  eexists. apply fresh_sub_lookup. eauto.
Qed.

Lemma fresh_sub_injective t : sub_injective (fresh_sub t).
Proof.
  intros o1 o2 v (i1 & Ho1 & ->)%fresh_sub_lookup (i2 & Ho2 & Hv)%fresh_sub_lookup.
  injection Hv as Hname _. apply numbered_name_inj in Hname. subst i2.
  congruence.
Qed.

Lemma lift_fresh_is_Some t (a : GroundAtom) :
  (∀ o, o ∈ objects a → o ∈ effect_objects t) →
  is_Some (lift (fresh_sub t) a).
Proof.
  intros Hobjs. unfold lift. apply fmap_is_Some, mapM_is_Some.
  apply Forall_forall. intros o Ho. by apply fresh_sub_is_Some, Hobjs.
Qed.

Lemma effect_objects_option t o :
  o ∈ opt_objects (t_option t) → o ∈ effect_objects t.
Proof.
  intros Ho. unfold effect_objects. apply elem_of_union. right.
  by apply elem_of_list_to_set.
Qed.

Lemma effect_objects_atom t a o :
  a ∈ t_add_effects t ∪ t_delete_effects t → o ∈ objects a →
  o ∈ effect_objects t.
Proof.
  intros Ha Ho. unfold effect_objects. apply elem_of_union. left.
  apply elem_of_list_to_set, list_elem_of_bind. exists a.
  split; [done|]. by apply elem_of_elements.
Qed.

(** A new partition can always be made: every object the substitution is
    asked for is one of those it was built from. *)
Lemma new_partition_is_Some t :
  ∃ option_args add_effs del_effs,
    new_partition t
    = Some (mkPartition option_args add_effs del_effs [(t, fresh_sub t)])
    ∧ mapM (λ o, fresh_sub t !! o) (opt_objects (t_option t))
      = Some option_args
    ∧ set_mapM (lift (fresh_sub t)) (t_add_effects t) = Some add_effs
    ∧ set_mapM (lift (fresh_sub t)) (t_delete_effects t) = Some del_effs.
Proof.
  unfold new_partition. fold (objects_lst t). fold (fresh_variables t).
  fold (fresh_sub t).
  destruct (mapM_is_Some_2 (λ o, fresh_sub t !! o) (opt_objects (t_option t)))
    as [option_args Hargs].
  { apply Forall_forall. intros o Ho.
    by apply fresh_sub_is_Some, effect_objects_option. }
  destruct (set_mapM_is_Some (lift (fresh_sub t)) (t_add_effects t))
    as [add_effs Hadd].
  { intros a Ha. apply lift_fresh_is_Some. intros o Ho.
    apply (effect_objects_atom t a); [|done]. apply elem_of_union. by left. }
  destruct (set_mapM_is_Some (lift (fresh_sub t)) (t_delete_effects t))
    as [del_effs Hdel].
  { intros a Ha. apply lift_fresh_is_Some. intros o Ho.
    apply (effect_objects_atom t a); [|done]. apply elem_of_union. by right. }
  exists option_args, add_effs, del_effs.
  rewrite Hargs, Hadd, Hdel. done.
Qed.
End NewPartition.

(** ** The partitions of [_partition_transitions] *)

Section Partitions.
Context `{Collaborators}.

(** The unification of a transition with a partition's effects. *)
Definition unify_with (t : Transition) (part : Partition)
    : bool * ObjToVarSub :=
  _unify (t_add_effects t) (t_delete_effects t) (opt_objects (t_option t))
         (part_add_effects part) (part_delete_effects part)
         (part_option_args part).

(** The partition once [(t, sub)] has joined it. *)
Definition joined (part : Partition) (t : Transition) (sub : ObjToVarSub)
    : Partition :=
  mkPartition (part_option_args part) (part_add_effects part)
    (part_delete_effects part) (part_transitions part ++ [(t, sub)]).

(** The partition [t] founds. *)
Definition founded_by (t : Transition) (part : Partition) : Prop :=
  new_partition t = Some part ∧ part_transitions part = [(t, fresh_sub t)].

Lemma add_to_partitions_first_fit t parts :
  (∃ i part sub,
     parts !! i = Some part
     ∧ unify_with t part = (true, sub)
     ∧ (∀ j part', j < i → parts !! j = Some part' →
          (unify_with t part').1 = false)
     ∧ add_to_partitions t parts = Some (<[i := joined part t sub]> parts))
  ∨ ((∀ part, part ∈ parts → (unify_with t part).1 = false)
     ∧ ∃ part, founded_by t part
               ∧ add_to_partitions t parts = Some (parts ++ [part])).
Proof.
  induction parts as [|part parts IH]; simpl.
  - right. split; [by intros ? ?%elem_of_nil|].
    destruct (new_partition_is_Some t) as (oa & ae & de & Hnew & _).
    eexists. split; [split; [exact Hnew|done]|]. by rewrite Hnew.
  - fold (unify_with t part).
    destruct (unify_with t part) as [[|] sub] eqn:Hunify.
    + left. exists 0, part, sub. split_and!; [done|done| |done].
      intros j ? ?. lia.
    + destruct IH as [(i & part' & sub' & Hi & Hu & Hfirst & ->)
                     |(Hnone & part' & Hfound & ->)].
      * left. exists (S i), part', sub'. split_and!; [done|done| |done].
        intros [|j] part'' Hj; simpl.
        -- intros [= <-]. by rewrite Hunify.
        -- apply Hfirst. lia.
      * right. split.
        -- intros part'' [->|?]%elem_of_cons; [by rewrite Hunify|by apply Hnone].
        -- by exists part'.
Qed.

Lemma members_insert (parts : list Partition) i part t sub :
  parts !! i = Some part →
  mjoin (part_transitions <$> <[i := joined part t sub]> parts)
  ≡ₚ mjoin (part_transitions <$> parts) ++ [(t, sub)].
Proof.
  revert i. induction parts as [|p parts IH]; intros [|i]; simpl; try done.
  - intros [= ->]. rewrite <-!app_assoc. apply Permutation_app_head.
    apply Permutation_app_comm.
  - intros Hi. rewrite (IH _ Hi). by rewrite app_assoc.
Qed.

(** The members of the partitions, and that none is empty. *)
Definition partitioned (transitions : list Transition)
    (partitions : list Partition) : Prop :=
  (mjoin (part_transitions <$> partitions)).*1 ≡ₚ transitions
  ∧ Forall (λ part, part_transitions part ≠ []) partitions.

Lemma add_to_partitions_partitioned t transitions parts :
  partitioned transitions parts →
  ∃ parts', add_to_partitions t parts = Some parts'
            ∧ partitioned (transitions ++ [t]) parts'.
Proof.
  intros [Hperm Hne].
  destruct (add_to_partitions_first_fit t parts)
    as [(i & part & sub & Hi & _ & _ & ->)|(_ & part & [_ Hmem] & ->)].
  - eexists. split; [done|]. split.
    + rewrite (members_insert _ _ _ _ _ Hi), fmap_app, Hperm. done.
    + apply Forall_insert; [done|]. simpl. by destruct (part_transitions part).
  - eexists. split; [done|]. split.
    + rewrite fmap_app, join_app, fmap_app. simpl. rewrite Hmem. simpl.
      by rewrite Hperm.
    + apply Forall_app. split; [done|]. constructor; [|constructor].
      by rewrite Hmem.
Qed.

Lemma partition_transitions_partitioned (transitions : list Transition) :
  ∃ partitions,
    _partition_transitions transitions = Some partitions
    ∧ partitioned transitions partitions.
Proof.
  unfold _partition_transitions.
  induction transitions as [|t transitions IH] using rev_ind.
  - exists []. split; [done|]. split; [done|constructor].
  - destruct IH as (parts & Hparts & Hpartitioned).
    rewrite foldlM_app, Hparts. simpl.
    destruct (add_to_partitions_partitioned t _ _ Hpartitioned)
      as (parts' & -> & Hpartitioned').
    by exists parts'.
Qed.
End Partitions.

(** ** The member that founds a partition *)

Lemma ground_lifted (sub : ObjToVarSub) (a : GroundAtom) (l : LiftedAtom) :
  sub_injective sub → lift sub a = Some l →
  ground (invert_sub sub) l = Some a.
Proof.
  intros Hinj Hlift. destruct (ground_lift sub a l Hinj Hlift) as [Hobjs Hp].
  unfold ground. rewrite Hobjs, Hp. by destruct a.
Qed.

Lemma set_ground_lifted (sub : ObjToVarSub) (X : gset GroundAtom)
    (L : gset LiftedAtom) :
  sub_injective sub → set_mapM (lift sub) X = Some L →
  set_mapM (ground (invert_sub sub)) L = Some X.
Proof.
  intros Hinj Hlift. destruct (set_mapM_Some _ _ _ Hlift) as [HX HL].
  destruct (set_mapM_is_Some (ground (invert_sub sub)) L) as [X' HX'].
  { intros l Hl. destruct (HL l Hl) as (a & _ & Ha). exists a.
    by apply ground_lifted. }
  rewrite HX'. f_equal. apply set_eq. intros a.
  rewrite (set_mapM_elem_of _ _ _ a HX'). split.
  - intros (l & Hl & Hground). destruct (HL l Hl) as (a' & Ha' & Hlift').
    rewrite (ground_lifted sub a' l Hinj Hlift') in Hground. congruence.
  - intros Ha. destruct (HX a Ha) as (l & Hl & HlL). exists l.
    split; [done|]. by apply ground_lifted.
Qed.

Section Founders.
Context `{Collaborators}.

(** The partition still stands as its first member founded it, and each
    later member is recorded with the substitution the unification of its
    effects with the partition's returned. *)
Definition founded (part : Partition) : Prop :=
  ∃ t rest,
    part_transitions part = (t, fresh_sub t) :: rest
    ∧ mapM (λ o, fresh_sub t !! o) (opt_objects (t_option t))
      = Some (part_option_args part)
    ∧ set_mapM (lift (fresh_sub t)) (t_add_effects t)
      = Some (part_add_effects part)
    ∧ set_mapM (lift (fresh_sub t)) (t_delete_effects t)
      = Some (part_delete_effects part)
    ∧ Forall (λ m, unify_with m.1 part = (true, m.2)) rest.

Lemma add_to_partitions_founded t parts parts' :
  Forall founded parts → add_to_partitions t parts = Some parts' →
  Forall founded parts'.
Proof.
  intros Hall.
  destruct (add_to_partitions_first_fit t parts)
    as [(i & part & sub & Hi & Hu & _ & ->)|(_ & part & [Hnew Hmem] & ->)];
    intros [= <-].
  - apply Forall_insert; [done|].
    destruct (proj1 (Forall_lookup _ _) Hall i part Hi)
      as (t0 & rest & Hmem & Hargs & Hadd & Hdel & Hrest).
    exists t0, (rest ++ [(t, sub)]). simpl. rewrite Hmem.
    split_and!; [done..|].
    apply Forall_app. split; [exact Hrest|]. by constructor.
  - apply Forall_app. split; [done|]. constructor; [|constructor].
    destruct (new_partition_is_Some t) as (oa & ae & de & Hnew' & ? & ? & ?).
    rewrite Hnew in Hnew'. injection Hnew' as ->. by exists t, [].
Qed.

Lemma partition_transitions_founded transitions partitions :
  _partition_transitions transitions = Some partitions →
  Forall founded partitions.
Proof.
  unfold _partition_transitions.
  apply (foldlM_invariant (Forall founded)); [|constructor].
  intros parts t parts' _. apply add_to_partitions_founded.
Qed.
End Founders.

(** * What the code expects of [utils.unify] *)


Lemma lift_variables (sub : ObjToVarSub) (a : GroundAtom) (l : LiftedAtom) v :
  lift sub a = Some l → v ∈ variables l → ∃ o, sub !! o = Some v.
Proof.
  unfold lift. intros (vs & Hvs & ->)%fmap_Some. simpl. intros Hv.
  apply mapM_Some in Hvs. apply list_elem_of_lookup in Hv as [i Hi].
  destruct (Forall2_lookup_r _ _ _ _ _ Hvs Hi) as (o & _ & Ho). eauto.
Qed.

Lemma sorted_vars_Permutation (l : list Var) : sorted_vars l ≡ₚ l.
Proof. apply merge_sort_Permutation. Qed.

Lemma elem_of_sub_values (sub : ObjToVarSub) v :
  v ∈ sorted_vars (elements (list_to_set (C := gset Var) (map_to_list sub).*2))
  ↔ ∃ o, sub !! o = Some v.
Proof.
  rewrite sorted_vars_Permutation, elem_of_elements, elem_of_list_to_set,
    list_elem_of_fmap.
  split.
  - intros ([o v'] & -> & Hin%elem_of_map_to_list). by exists o.
  - intros [o Ho]. exists (o, v). split; [done|]. by apply elem_of_map_to_list.
Qed.



Section UnifyContract.
Context `{Collaborators}.












End UnifyContract.

(** * The positive examples of [_create_sampler_data] *)






Section PositiveExamples.
Context `{Collaborators}.
Variables (cls : Classifiers) (predicates : gset Predicate).




End PositiveExamples.

(** ** The claims on the one-cup scenario *)

Import Scenario.

(** C3. In [_create_sampler_data], the negative examples are, in the order
    of the loops, one example for each grounding of the variables over the
    objects of a transition that is not the recorded grounding of a member
    of the target partition (which is a positive example) and under which
    the target's add- and delete-effects are not both included in the
    transition's add- and delete-effects: such a grounding is added, once
    each time the loops meet it, and no other is.  On the one cup, with the
    partitions "adds Pred0" and "no effect", the first partition gets 1
    positive and 1 negative example and the second 1 positive and no
    negative example. *)
Theorem sampler_negative_examples :
  (∀ (C : Collaborators) cls transitions vars preconditions add_effects
     delete_effects param_option partition_idx pos neg,
     _create_sampler_data cls transitions vars preconditions add_effects
       delete_effects param_option partition_idx = Some (pos, neg) →
     neg = (λ c, negative_datum vars c.1.2 c.2)
           <$> filter
                 (λ c, negb (own_positive_grounding vars partition_idx
                              c.1.1 c.1.2 c.2)
                       && negb (effects_achieved vars add_effects
                                  delete_effects c.1.2.1 c.2) = true)
                 (candidates vars transitions))
  ∧ prod_map length length
      <$> _create_sampler_data cls0 test_transitions [var_cup0] ∅
            {[mkLiftedAtom pred0 [var_cup0]]} ∅ dummy 0
    = Some (1, 1)
  ∧ prod_map length length
      <$> _create_sampler_data cls0 test_transitions [] ∅ ∅ ∅ dummy 1
    = Some (1, 0).
Proof.
  split_and!.
  - intros C cls transitions vars preconditions add_effects delete_effects
      param_option partition_idx pos neg Hdata.
    by eapply create_sampler_data_negatives.
  - by_computation (Some (1, 1)).
  - by_computation (Some (1, 0)).
Qed.

(** C7, as the spec has it, fails: on the two trajectories of the one cup,
    the operator learned for "adds Pred0" has one parameter, hence one
    non-empty parameter subset, and mispredicts the trajectory in which
    nothing changes; the stand-in classifier labels every sample positive,
    which passes the acceptance score of one half, so every iteration
    invents a predicate that changes no effect, and the loop never ends. *)
Lemma invention_loop_never_ends :
  fmap (M := list) (λ op, length (powerset (parameters op) true))
    <$> learn_operators_for_option cls0 dummy Divergence.ts0 false
  = Some [1]
  ∧ ¬ ∃ fuel result,
        learn_from_offline_dataset fuel approach0 dataset = Finished result.
Proof.
  split.
  - by_computation (Some [1]).
  - intros (fuel & result & Hrun).
    by rewrite Divergence.learn_from_offline_dataset_runs_on in Hrun.
Qed.

(** C5, as the spec has it, fails.  With the ratio 0.58 and a state of 50
    ground atoms, the binary64 product is just below 29 and the teacher
    keeps 28 atoms, where floor(0.58 × 50) is 29.  The other way round, with
    the ratio 0.7 and a state of 10 ground atoms the binary64 product is 7
    and the teacher keeps 7 atoms, where the float 0.7 stands for a number
    below 7/10, 10 times which has floor 6. *)
Lemma teacher_dataset_not_floor :
  n_atoms cls0 predicates (Teaching.cups 50) = 50
  ∧ Teaching.sizes
      (create_teacher_dataset (H := Teaching.teacher_with Teaching.ratio_058)
         cls0 predicates [([Teaching.cups 50], [])])
    = Some [[28]]
  ∧ label_count (58 # 100) 50 = 29%Z
  ∧ n_atoms cls0 predicates (Teaching.cups 10) = 10
  ∧ Teaching.sizes
      (create_teacher_dataset (H := Teaching.teacher_with Teaching.ratio_07)
         cls0 predicates [([Teaching.cups 10], [])])
    = Some [[7]]
  ∧ label_count (float_value Teaching.ratio_07) 10 = 6%Z.
Proof.
  split_and!.
  - by_computation 50.
  - by_computation (Some [[28]]).
  - reflexivity.
  - by_computation 10.
  - by_computation (Some [[7]]).
  - by_computation 6%Z.
Qed.

(** ** The theorems at work on the scenario *)

Import Scenario.

(** C1 on the first transition of the scenario. *)
Lemma effects_split_witness :
  generate_transitions cls0 dataset predicates
  = Some [(dummy, [transition1; transition2])]
  ∧ t_add_effects transition1 ∩ t_delete_effects transition1 = ∅
  ∧ t_next_atoms transition1
    = (t_atoms transition1 ∖ t_delete_effects transition1)
      ∪ t_add_effects transition1.
Proof.
  assert (generate_transitions cls0 dataset predicates
          = Some [(dummy, [transition1; transition2])]) as Hgen.
  { by_computation (Some [(dummy, [transition1; transition2])]). }
  split; [exact Hgen|].
  apply (effects_split [(dummy, [transition1; transition2])]
           (produced_generate cls0 dataset predicates _ Hgen)
           dummy [transition1; transition2] transition1).
  - apply list_elem_of_here.
  - apply list_elem_of_here.
Defined.




Definition part3 : Partition :=
  mkPartition [] ∅ {[Divergence.lifted0]}
    [(transition3, Divergence.sub0); (transition3, Divergence.sub0)].






(** The stand-in for numpy's [choice] samples without replacement. *)
Lemma first_indices_without_replacement (cfg : GlobalSettings) :
  choice_without_replacement (H := stand_ins cfg).
Proof.
  split_and!.
  - intros rng n k l rng'. simpl. case_decide as Hk; [|done].
    intros [= <- _]. split_and!.
    + apply length_seq.
    + apply NoDup_seq.
    + intros j Hj%elem_of_seq. lia.
  - intros rng n k Hk. simpl. rewrite decide_True by done. by eexists.
  - intros rng n k Hk. simpl. rewrite decide_False by lia. done.
Defined.

(** C5, as the code has it, with the ratio 0.7 on a state of ten ground
    atoms: [int(10 * 0.7)] is 7, and the teacher dataset is returned. *)
Lemma teacher_dataset_ratio_witness :
  ∃ result,
    create_teacher_dataset (H := Teaching.teacher_with Teaching.ratio_07)
      cls0 predicates [([Teaching.cups 10], [])]
    = Returned result.
Proof.
  apply (proj1 (proj2 (teacher_dataset_ratio
                         (H := Teaching.teacher_with Teaching.ratio_07)
                         cls0 predicates [([Teaching.cups 10], [])]
                         (first_indices_without_replacement _)))).
  repeat constructor. exists 7%Z.
  assert (n_atoms cls0 predicates (Teaching.cups 10) = 10) as ->
    by by_computation 10.
  split; [reflexivity|]. lia.
Defined.

(** A classifier that accepts every input and a regressor that proposes
    0.3, within the bounds of the option. *)
Definition accept_all : @Model collaborators := λ _ : Array, true.
Definition propose_03 : @Regressor collaborators := [(3 # 10)%Q].

(** C6 on a sampler with the variable [?cup0] bound to the cup: the input
    is the bias and the feature 0.4 of the cup; the first draw, 2, is out
    of bounds and rejected, and the second draw, 0.3, is returned. *)
Lemma learned_sampler_rejection_witness :
  LearnedSampler_sampler (H := Drawing.listed_draws) Drawing.accept_03
    Drawing.propose_2_then_03 [var_cup0] dummy 0 state_low 0 [cup0]
  = Some [(3 # 10)%Q].
Proof.
  apply (proj1 (learned_sampler_rejection (H := Drawing.listed_draws)
                  Drawing.accept_03 Drawing.propose_2_then_03 [var_cup0]
                  dummy 0 state_low 0 [cup0] [[(4 # 10)%Q]]
                  ltac:(discriminate)
                  ltac:(repeat constructor; exists cup0;
                        split; reflexivity)) 1).
  - simpl. lia.
  - reflexivity.
  - intros j Hj. assert (j = 0) as -> by lia. reflexivity.
Defined.

(** C10 on that sampler: what it returns is within the bounds. *)
Lemma learned_sampler_in_bounds_witness :
  contains (params_space dummy) [(3 # 10)%Q] = true.
Proof.
  apply (proj1 (learned_sampler_in_bounds accept_all propose_03 [] dummy 0
                  state_low 0 [] ltac:(vm_compute; reflexivity))).
  vm_compute. reflexivity.
Defined.

(** C8 on the two transitions of the scenario: one operator, from the
    partition that adds [Pred0]. *)
Lemma operators_from_partitions_witness :
  ∃ partitions,
    _partition_transitions Divergence.ts0 = Some partitions
    ∧ (∀ op, op ∈ [Divergence.operator0 ∅] →
         ∃ i part,
           learned_from dummy partitions op i part
           ∧ large_enough part
           ∧ add_effects op ∪ delete_effects op ≠ ∅)
    ∧ (∀ i part, partitions !! i = Some part →
         ¬ large_enough part
         ∨ (part_add_effects part = ∅ ∧ part_delete_effects part = ∅) →
         ∀ op, op ∈ [Divergence.operator0 ∅] →
           op_name op ≠ opt_name dummy +:+ pretty i).
Proof.
  apply (operators_from_partitions cls0 dummy false Divergence.ts0).
  by_computation (Some [Divergence.operator0 ∅]).
Defined.


(** C7, as the code has it, on an empty store: the first iteration finds no
    candidate and the loop ends with no invention. *)
Lemma invention_loop_ends_witness :
  ∃ k self_k,
    k < 1
    ∧ inventions k approach0 [] = Some (self_k, [])
    ∧ invention_iteration self_k []
      = Some (@mkIterativeInventionApproach collaborators predicates ∅ 0 1 cls0, None)
    ∧ 0 = _num_inventions approach0 + k.
Proof.
  apply (proj1 (invention_loop_ends 1 approach0 []
                  (@mkIterativeInventionApproach collaborators predicates ∅ 0 1 cls0) [])).
  reflexivity.
Defined.

(** * Further properties *)

Section GenerateTransitions.
Context `{Collaborators}.
Variables (cls : Classifiers) (predicates : gset Predicate).

(** X1. In the dictionary [generate_transitions] returns the keys are
    distinct, no list is empty, and each transition is filed under the
    parent of its own option; its atoms are the abstractions of its two
    states under the given predicates. *)
Theorem generate_transitions_filed (dataset : Dataset)
    (tbo : TransitionsByOption) :
  generate_transitions cls dataset predicates = Some tbo →
  NoDup tbo.*1
  ∧ ∀ o ts, (o, ts) ∈ tbo →
      ts ≠ []
      ∧ ∀ t, t ∈ ts →
          parent (t_option t) = o
          ∧ t_atoms t = utils_abstract cls (t_state t) predicates
          ∧ t_next_atoms t = utils_abstract cls (t_next_state t) predicates.
Proof.
  intros Hrun.
  destruct (generate_transitions_well_filed _ _ _ _ Hrun) as [Hnd Hall].
  split; [done|]. intros o ts Hin. destruct (Hall o ts Hin) as [Hne Hts].
  split; [done|]. intros t Ht. destruct (Hts t Ht) as (? & ? & ? & _). done.
Qed.

(** The steps of one trajectory: each option with the state before it
    and the state after it. *)
Definition steps_of (traj : list State * list GroundOption)
    : list (State * State * GroundOption) :=
  zip (zip traj.1 (tail traj.1)) traj.2.

Definition step_of (t : Transition) : State * State * GroundOption :=
  (t_state t, t_next_state t, t_option t).

Lemma transitions_of_options_steps states i options tbo tbo' po :
  transitions_of_options cls predicates states i options tbo = Some tbo' →
  step_of <$> default [] (dict_lookup tbo' po)
  = (step_of <$> default [] (dict_lookup tbo po))
    ++ filter (λ st, parent st.2 = po)
         (zip (zip (drop i states) (drop (S i) states)) options).
Proof.
  revert i tbo. induction options as [|opt options IH]; intros i tbo; simpl.
  - intros [= <-]. by rewrite zip_with_nil_r, filter_nil, app_nil_r.
  - destruct (states !! i) as [s|] eqn:Hs; simpl; [|done].
    destruct (states !! S i) as [s'|] eqn:Hs'; simpl; [|done].
    intros Hrun. rewrite (IH _ _ Hrun), dict_lookup_append.
    rewrite (drop_S _ _ _ Hs), (drop_S _ _ _ Hs'). simpl.
    rewrite filter_cons. simpl.
    destruct (decide (parent opt = po)) as [Heq|Hne].
    + cbn [default from_option id]. rewrite fmap_app, <-app_assoc.
      subst po. done.
    + done.
Qed.

(** X2. The transitions filed under an option are, in the order of the
    dataset, the steps of that option: one transition per option of each
    trajectory, from the state before it to the state after it. *)
Theorem generate_transitions_steps (dataset : Dataset)
    (trajectories : list (list State * list GroundOption))
    (tbo : TransitionsByOption) (po : ParameterizedOption) :
  mapM action_to_option_trajectory dataset = Some trajectories →
  generate_transitions cls dataset predicates = Some tbo →
  (λ t, (t_state t, t_next_state t, t_option t))
    <$> default [] (dict_lookup tbo po)
  = filter (λ st, parent st.2 = po)
      (trajectories ≫= λ traj, zip (zip traj.1 (tail traj.1)) traj.2).
Proof.
  unfold generate_transitions. intros Htrajs Hrun.
  change (λ t, (t_state t, t_next_state t, t_option t)) with step_of.
  change (λ traj, zip (zip traj.1 (tail traj.1)) traj.2) with steps_of.
  assert (∀ tbo0,
            generate_transitions_from cls predicates dataset tbo0 = Some tbo →
            step_of <$> default [] (dict_lookup tbo po)
            = (step_of <$> default [] (dict_lookup tbo0 po))
              ++ filter (λ st, parent st.2 = po) (trajectories ≫= steps_of))
    as Hgen.
  { clear Hrun. revert trajectories Htrajs.
    induction dataset as [|act_traj dataset' IH];
      intros trajectories Htrajs tbo0; simpl.
    - injection Htrajs as <-. intros [= <-]. by rewrite app_nil_r.
    - simpl in Htrajs.
      destruct (action_to_option_trajectory act_traj) as [[states options]|];
        simpl in *; [|done].
      destruct (mapM action_to_option_trajectory dataset') as [trajs|];
        simpl in *; [|done].
      injection Htrajs as <-.
      case_guard; simpl; [|done].
      destruct (transitions_of_options _ _ _ _ _ _) as [tbo1|] eqn:Hopts;
        simpl; [|done].
      intros Hrun. rewrite (IH trajs eq_refl _ Hrun).
      rewrite (transitions_of_options_steps _ _ _ _ _ _ Hopts).
      change (((states, options) :: trajs) ≫= steps_of)
        with (steps_of (states, options) ++ (trajs ≫= steps_of)).
      rewrite filter_app, <-app_assoc. by do 2 f_equal. }
  by rewrite (Hgen [] Hrun).
Qed.

Lemma transitions_of_options_is_Some states i options tbo :
  is_Some (transitions_of_options cls predicates states i options tbo)
  ↔ options = [] ∨ i + length options < length states.
Proof.
  revert i tbo. induction options as [|opt options IH]; intros i tbo; simpl.
  - split; [by left|by eexists].
  - destruct (states !! i) as [s|] eqn:Hs; simpl.
    + destruct (states !! S i) as [s'|] eqn:Hs'; simpl.
      * rewrite IH. apply lookup_lt_Some in Hs'. split.
        -- intros [->|?]; right; simpl; lia.
        -- intros [?|?]; [done|]. right. lia.
      * apply lookup_ge_None in Hs'. split; [by intros []|].
        intros [?|?]; [done|lia].
    + apply lookup_ge_None in Hs. split; [by intros []|].
      intros [?|?]; [done|lia].
Qed.

(** X3. [generate_transitions] returns exactly when every trajectory is
    converted to options and has one state more than it has options;
    the look-ups of the states never fail then. *)
Theorem generate_transitions_returns (dataset : Dataset) :
  is_Some (generate_transitions cls dataset predicates)
  ↔ Forall (λ act_traj,
              ∃ states options,
                action_to_option_trajectory act_traj = Some (states, options)
                ∧ length states = length options + 1)
           dataset.
Proof.
  unfold generate_transitions. generalize (@nil (ParameterizedOption * list Transition)).
  induction dataset as [|act_traj dataset' IH]; intros tbo0; simpl.
  - split; [constructor|by eexists].
  - rewrite Forall_cons.
    destruct (action_to_option_trajectory act_traj) as [[states options]|];
      simpl.
    + case_guard as Hlen; simpl.
      * destruct (transitions_of_options cls predicates states 0 options tbo0)
          as [tbo1|] eqn:Hopts; simpl.
        -- rewrite IH. split; [|by intros []].
           intros ?. split; [|done]. by exists states, options.
        -- assert (is_Some (transitions_of_options cls predicates states 0
                              options tbo0)) as [? Hsome].
           { apply transitions_of_options_is_Some. right. lia. }
           congruence.
      * split; [by intros []|].
        intros [(states' & options' & [= <- <-] & ?) _]. done.
    + split; [by intros []|]. intros [(? & ? & ? & _) _]. done.
Qed.
End GenerateTransitions.

(** ** More on the partitions of [_partition_transitions] *)

Section Partitions.
Context `{Collaborators}.

(** X4. [_partition_transitions] always returns: no lookup in the
    substitution of a new partition can fail.  Every transition is a
    member of exactly one partition, and no partition is empty. *)
Theorem partition_transitions_total (transitions : list Transition) :
  ∃ partitions,
    _partition_transitions transitions = Some partitions
    ∧ (mjoin (part_transitions <$> partitions)).*1 ≡ₚ transitions
    ∧ Forall (λ part, part_transitions part ≠ []) partitions.
Proof.
  destruct (partition_transitions_partitioned transitions)
    as (partitions & Hrun & Hperm & Hne).
  by exists partitions.
Qed.

(** X5. First fit: the transition that comes last joins the first
    partition, in the order of their creation, whose effects and option
    arguments unify with its own, under the substitution the unifier
    returns; it founds a new partition, the last one, exactly when no
    partition unifies. *)
Theorem partition_transitions_first_fit (transitions : list Transition)
    (t : Transition) (partitions : list Partition) :
  _partition_transitions transitions = Some partitions →
  (∃ i part sub,
     partitions !! i = Some part
     ∧ unify_with t part = (true, sub)
     ∧ (∀ j part', j < i → partitions !! j = Some part' →
          (unify_with t part').1 = false)
     ∧ _partition_transitions (transitions ++ [t])
       = Some (<[i := joined part t sub]> partitions))
  ∨ ((∀ part, part ∈ partitions → (unify_with t part).1 = false)
     ∧ ∃ part,
         new_partition t = Some part
         ∧ part_transitions part = [(t, fresh_sub t)]
         ∧ _partition_transitions (transitions ++ [t])
           = Some (partitions ++ [part])).
Proof.
  unfold _partition_transitions. intros Hparts.
  rewrite foldlM_app, Hparts. simpl.
  destruct (add_to_partitions_first_fit t partitions)
    as [(i & part & sub & Hi & Hu & Hfirst & ->)
       |(Hnone & part & [Hnew Hmem] & ->)].
  - left. by exists i, part, sub.
  - right. split; [done|]. by exists part.
Qed.

(** One list of partitions continues another: the partitions of the
    first keep their place, their lifted effects and option arguments,
    and their members, which more may follow. *)
Definition continues (parts parts' : list Partition) : Prop :=
  ∀ i part, parts !! i = Some part →
    ∃ part', parts' !! i = Some part'
             ∧ part_option_args part' = part_option_args part
             ∧ part_add_effects part' = part_add_effects part
             ∧ part_delete_effects part' = part_delete_effects part
             ∧ part_transitions part `prefix_of` part_transitions part'.

Lemma continues_refl parts : continues parts parts.
Proof. intros i part Hi. by exists part. Qed.

Lemma continues_trans parts1 parts2 parts3 :
  continues parts1 parts2 → continues parts2 parts3 → continues parts1 parts3.
Proof.
  intros H12 H23 i part Hi.
  destruct (H12 i part Hi) as (part2 & Hi2 & Ho2 & Ha2 & Hd2 & Hpre2).
  destruct (H23 i part2 Hi2) as (part3 & Hi3 & Ho3 & Ha3 & Hd3 & Hpre3).
  exists part3. split_and!; [done|congruence..|]. by etrans.
Qed.

Lemma add_to_partitions_continues t parts parts' :
  add_to_partitions t parts = Some parts' → continues parts parts'.
Proof.
  destruct (add_to_partitions_first_fit t parts)
    as [(i & part & sub & Hi & _ & _ & ->)|(_ & part & _ & ->)];
    intros [= <-] j partj Hj.
  - destruct (decide (i = j)) as [->|Hne].
    + rewrite Hi in Hj. injection Hj as <-.
      exists (joined part t sub). split_and!; [|done..|].
      * apply list_lookup_insert_eq. by apply lookup_lt_Some in Hi.
      * by apply prefix_app_r.
    + exists partj. split_and!; [|done..]. by rewrite list_lookup_insert_ne.
  - exists partj. split_and!; [|done..]. by apply lookup_app_l_Some.
Qed.

(** X6. More data never disturbs the partitions found so far: the
    partitions of a list of transitions stay, at the same indices and
    with the same lifted effects and option arguments, when further
    transitions follow, and keep their members in order. *)
Theorem partition_transitions_continue
    (transitions more : list Transition) (partitions partitions' : list Partition) :
  _partition_transitions transitions = Some partitions →
  _partition_transitions (transitions ++ more) = Some partitions' →
  ∀ i part, partitions !! i = Some part →
    ∃ part', partitions' !! i = Some part'
             ∧ part_option_args part' = part_option_args part
             ∧ part_add_effects part' = part_add_effects part
             ∧ part_delete_effects part' = part_delete_effects part
             ∧ part_transitions part `prefix_of` part_transitions part'.
Proof.
  unfold _partition_transitions. intros Hparts. rewrite foldlM_app, Hparts.
  simpl. clear Hparts. intros Hrun. change (continues partitions partitions').
  revert partitions Hrun.
  induction more as [|t more IH]; intros parts; simpl.
  - intros [= <-]. apply continues_refl.
  - destruct (add_to_partitions t parts) as [parts1|] eqn:Hadd; simpl; [|done].
    intros Hrun. eapply continues_trans; [|by apply IH].
    by eapply add_to_partitions_continues.
Qed.
End Partitions.

Section Founders.
Context `{Collaborators}.

(** X7. Each partition keeps, as its first member, the transition that
    founded it, with a substitution that is one-to-one, respects types
    and is defined on exactly the objects of the transition's effects
    and option.  The partition's lifted effects are that transition's
    effects lifted through it, and grounding them, and the lifted option
    arguments, through the inverted substitution gives the transition's
    own effects and option objects back. *)
Theorem partition_founder_round_trip (transitions : list Transition)
    (partitions : list Partition) (part : Partition) :
  _partition_transitions transitions = Some partitions →
  part ∈ partitions →
  ∃ t sub rest,
    part_transitions part = (t, sub) :: rest
    ∧ (∀ o, is_Some (sub !! o) ↔ o ∈ effect_objects t)
    ∧ (∀ o v, sub !! o = Some v → var_type v = obj_type o)
    ∧ (∀ o1 o2 v, sub !! o1 = Some v → sub !! o2 = Some v → o1 = o2)
    ∧ set_mapM (lift sub) (t_add_effects t) = Some (part_add_effects part)
    ∧ set_mapM (lift sub) (t_delete_effects t)
      = Some (part_delete_effects part)
    ∧ set_mapM (ground (invert_sub sub)) (part_add_effects part)
      = Some (t_add_effects t)
    ∧ set_mapM (ground (invert_sub sub)) (part_delete_effects part)
      = Some (t_delete_effects t)
    ∧ mapM (λ v, invert_sub sub !! v) (part_option_args part)
      = Some (opt_objects (t_option t)).
Proof.
  intros Hparts Hpart.
  destruct (proj1 (Forall_forall _ _)
              (partition_transitions_founded _ _ Hparts) part Hpart)
    as (t & rest & Hmem & Hargs & Hadd & Hdel & _).
  exists t, (fresh_sub t), rest.
  pose proof (fresh_sub_injective t) as Hinj.
  split_and!; [done| | |exact Hinj|done|done| | |].
  - intros o. split.
    + intros [v (i & Hi & _)%fresh_sub_lookup].
      apply elem_of_objects_lst, list_elem_of_lookup. eauto.
    + apply fresh_sub_is_Some.
  - by intros o v (i & _ & ->)%fresh_sub_lookup.
  - by apply set_ground_lifted.
  - by apply set_ground_lifted.
  - apply mapM_Some. apply mapM_Some in Hargs.
    induction Hargs as [|o v objs vs Hov _ IH]; constructor; [|done].
    by apply invert_sub_lookup.
Qed.
End Founders.

(** ** The operators of [learn_operators_for_option] *)

Lemma foldlM_ext {A B} (f g : A → B → option A) (a : A) (l : list B) :
  (∀ a x, x ∈ l → f a x = g a x) → foldlM f a l = foldlM g a l.
Proof.
  revert a. induction l as [|x l IH]; intros a Hfg; simpl; [done|].
  rewrite Hfg by (by left). destruct (g a x) as [a'|]; simpl; [|done].
  apply IH. intros ???. apply Hfg. by right.
Qed.

(** A loop that appends at most one element per entry: what it appends
    comes, in order, from some of the entries. *)
Lemma foldlM_emitted {A B} (R : B → A → Prop)
    (f : list A → B → option (list A)) (l : list B) (acc acc' : list A) :
  (∀ acc x acc', x ∈ l → f acc x = Some acc' →
     acc' = acc ∨ ∃ a, acc' = acc ++ [a] ∧ R x a) →
  foldlM f acc l = Some acc' →
  ∃ xs emitted,
    acc' = acc ++ emitted ∧ sublist xs l ∧ Forall2 R xs emitted.
Proof.
  revert acc. induction l as [|x l IH]; intros acc Hstep; simpl.
  - intros [= <-]. exists [], []. rewrite app_nil_r.
    split_and!; [done|constructor|constructor].
  - destruct (f acc x) as [acc1|] eqn:Hf; simpl; [|done].
    intros Hrun.
    destruct (IH acc1 ltac:(intros ?????; eapply Hstep; [by right|done]) Hrun)
      as (xs & emitted & -> & Hsub & Hall).
    destruct (Hstep _ _ _ ltac:(by left) Hf) as [->|(a & -> & Ha)].
    + exists xs, emitted. split_and!; [done| |done]. by apply sublist_cons.
    + exists (x :: xs), (a :: emitted). split_and!.
      * by rewrite <-app_assoc.
      * by apply sublist_skip.
      * by constructor.
Qed.

Lemma StronglySorted_sublist {A} (R : A → A → Prop) (l1 l2 : list A) :
  sublist l1 l2 → StronglySorted R l2 → StronglySorted R l1.
Proof.
  induction 1 as [|x l1 l2 Hsub IH|x l1 l2 Hsub IH]; intros Hs.
  - constructor.
  - apply StronglySorted_inv in Hs as [Hs Hx]. constructor; [by apply IH|].
    apply Forall_forall. intros y Hy.
    eapply Forall_forall in Hx; [done|]. by eapply elem_of_sublist.
  - apply StronglySorted_inv in Hs as [Hs _]. by apply IH.
Qed.

Lemma StronglySorted_seq (k n : nat) : StronglySorted lt (seq k n).
Proof.
  revert k. induction n as [|n IH]; intros k; simpl; constructor; [apply IH|].
  apply Forall_forall. intros j Hj%elem_of_seq. lia.
Qed.

Lemma enumerate_fst {A} (l : list A) : (enumerate l).*1 = seq 0 (length l).
Proof. unfold enumerate. apply fst_zip. by rewrite length_seq. Qed.

Lemma members_length (parts : list Partition) :
  Forall (λ part, part_transitions part ≠ []) parts →
  length parts ≤ length (mjoin (part_transitions <$> parts)).
Proof.
  induction 1 as [|part parts Hne _ IH]; [done|].
  change (mjoin (part_transitions <$> part :: parts))
    with (part_transitions part ++ mjoin (part_transitions <$> parts)).
  rewrite length_app. destruct (part_transitions part); [done|].
  cbn [length]. lia.
Qed.

Section OperatorsOfOption.
Context `{Collaborators}.
Variables (cls : Classifiers) (param_option : ParameterizedOption).

(** X8. The operators learned for an option have pairwise distinct
    names, come in the order of their partitions, and are no more than
    the transitions they were learned from. *)
Theorem operators_named_apart (transitions : list Transition)
    (do_sampler_learning : bool) (operators : list Operator) :
  learn_operators_for_option cls param_option transitions
    do_sampler_learning = Some operators →
  NoDup (op_name <$> operators)
  ∧ length operators ≤ length transitions
  ∧ ∃ indices,
      op_name <$> operators
      = (λ i, opt_name param_option +:+ pretty i) <$> indices
      ∧ StronglySorted lt indices.
Proof.
  unfold learn_operators_for_option.
  destruct (partition_transitions_partitioned transitions)
    as (partitions & -> & Hperm & Hne). simpl.
  intros Hloop.
  assert (∀ ops (entry : nat * Partition) ops',
            entry ∈ enumerate partitions →
            learn_operator_for_partition cls param_option do_sampler_learning
              partitions ops entry = Some ops' →
            ops' = ops
            ∨ ∃ op, ops' = ops ++ [op]
                    ∧ op_name op
                      = opt_name param_option +:+ pretty entry.1) as Hstep.
  { intros ops [i part] ops' Hin%elem_of_enumerate Hrun.
    destruct (learn_operator_for_partition_spec cls param_option
                do_sampler_learning _ _ _ _ _ Hin Hrun)
      as [->|(op & -> & (_ & Hname & _) & _)]; [by left|].
    right. by exists op. }
  destruct (foldlM_emitted
              (λ (entry : nat * Partition) (op : Operator),
                 op_name op = opt_name param_option +:+ pretty entry.1)
              _ _ _ _ Hstep Hloop)
    as (entries & emitted & -> & Hsub & Hnames).
  rewrite app_nil_l.
  assert (op_name <$> emitted
          = (λ i, opt_name param_option +:+ pretty i) <$> entries.*1) as Heq.
  { clear Hsub Hloop. induction Hnames as [|[i part] op entries emitted Hop _ IH];
      [done|]. rewrite !fmap_cons. cbn [fst] in *. by rewrite Hop, IH. }
  assert (sublist entries.*1 (seq 0 (length partitions))) as Hidx.
  { rewrite <-enumerate_fst. by apply fmap_sublist. }
  split_and!.
  - rewrite Heq. apply NoDup_fmap_2.
    + intros i j. apply numbered_name_inj.
    + eapply sublist_NoDup; [apply NoDup_seq|done].
  - rewrite <-(length_fmap op_name), Heq, length_fmap.
    apply sublist_length in Hidx. rewrite length_seq, length_fmap in Hidx.
    pose proof (members_length _ Hne) as Hlen.
    rewrite <-Hperm, !length_fmap. lia.
  - exists entries.*1. split; [done|].
    eapply StronglySorted_sublist; [done|]. apply StronglySorted_seq.
Qed.

(** X9. For an option whose parameter space has no dimension, asking
    for sampler learning changes nothing: no classifier or regressor is
    fitted, and every operator carries the random sampler. *)
Theorem no_sampler_without_parameters (transitions : list Transition)
    (do_sampler_learning : bool) (operators : list Operator) :
  length (low (params_space param_option)) = 0 →
  learn_operators_for_option cls param_option transitions
    do_sampler_learning = Some operators →
  learn_operators_for_option cls param_option transitions false
    = Some operators
  ∧ ∀ op, op ∈ operators → _sampler op = RandomSampler param_option.
Proof.
  intros Hdim. unfold learn_operators_for_option.
  destruct (_partition_transitions transitions) as [partitions|];
    simpl; [|done].
  assert (∀ ops entry,
            learn_operator_for_partition cls param_option do_sampler_learning
              partitions ops entry
            = learn_operator_for_partition cls param_option false
                partitions ops entry) as Hsame.
  { intros ops [i part]. unfold learn_operator_for_partition.
    rewrite (bool_decide_eq_true_2 _ Hdim), andb_false_r. done. }
  intros Hloop.
  rewrite (foldlM_ext _ _ _ _ (λ ops entry _, Hsame ops entry)) in Hloop.
  split; [done|]. revert Hloop.
  apply (foldlM_invariant
           (λ ops, ∀ op, op ∈ ops → _sampler op = RandomSampler param_option)).
  - intros ops [i part] ops' _ Hops. unfold learn_operator_for_partition.
    case_bool_decide; [by intros [= <-]|].
    destruct (_ && _); [by intros [= <-]|].
    destruct (_learn_preconditions _ _ _ _) as [[vars pre]|]; simpl; [|done].
    intros [= <-] op [?| ->%list_elem_of_singleton]%elem_of_app;
      [by apply Hops|done].
  - by intros op ?%elem_of_nil.
Qed.
End OperatorsOfOption.

(** ** The variables of an operator *)

Section OperatorVariables.
Context `{Collaborators}.

(** What the code expects of [utils.unify]: a substitution it returns
    lifts the ground atoms to exactly the lifted atoms. *)
Definition unify_sound : Prop :=
  ∀ ground_atoms lifted_atoms sub,
    unify ground_atoms lifted_atoms = (true, sub) →
    set_mapM (lift sub) ground_atoms = Some lifted_atoms.

(** Every variable of the atoms and of the list is one of [vars]. *)
Definition closed_under (vars : list Var) (atoms : gset LiftedAtom)
    (args : list Var) : Prop :=
  (∀ l v, l ∈ atoms → v ∈ variables l → v ∈ vars)
  ∧ (∀ v, v ∈ args → v ∈ vars).

Lemma member_lifted_atoms_closed option_vars add_effs del_effs m vars L :
  member_lifted_atoms option_vars add_effs del_effs m = Some (vars, L) →
  (∀ l v, l ∈ L → v ∈ variables l → v ∈ vars)
  ∧ (unify_sound → closed_under vars (add_effs ∪ del_effs) option_vars).
Proof.
  unfold member_lifted_atoms.
  destruct (_unify _ _ _ _ _ _) as [suc sub] eqn:Hunify; simpl.
  case_guard as Hsuc; simpl; [|done]. subst suc.
  destruct (set_mapM _ _) as [L'|] eqn:HL; simpl; [|done].
  intros [= <- <-]. split.
  - intros l v Hl Hv. apply elem_of_sub_values.
    apply (set_mapM_elem_of _ _ _ l HL) in Hl as (a & _ & Hlift).
    by eapply lift_variables.
  - intros Hsound. unfold _unify in Hunify. apply Hsound in Hunify.
    destruct (set_mapM_Some _ _ _ Hunify) as [_ Hback].
    assert (∀ l', l' ∈ ({[mkLiftedAtom
                             (mkPredicate "OPT-ARGS"
                                (obj_type <$> opt_objects (t_option m.1)))
                             option_vars]} : gset LiftedAtom)
                        ∪ wrap_atom_predicates_lifted add_effs "ADD-"
                        ∪ wrap_atom_predicates_lifted del_effs "DEL-" →
                  ∀ v, v ∈ variables l' →
                    v ∈ sorted_vars
                          (elements (list_to_set (C := gset Var)
                                       (map_to_list sub).*2))) as Hvars.
    { intros l' Hl' v Hv. apply elem_of_sub_values.
      destruct (Hback l' Hl') as (g & _ & Hlift). by eapply lift_variables. }
    split.
    + intros l v [Hl|Hl]%elem_of_union Hv.
      * apply (Hvars (mkLiftedAtom (wrap_predicate "ADD-" (lpredicate l))
                        (variables l))); [|done].
        apply elem_of_union. left. apply elem_of_union. right.
        apply elem_of_map. by exists l.
      * apply (Hvars (mkLiftedAtom (wrap_predicate "DEL-" (lpredicate l))
                        (variables l))); [|done].
        apply elem_of_union. right. apply elem_of_map. by exists l.
    + intros v Hv.
      apply (Hvars (mkLiftedAtom
                      (mkPredicate "OPT-ARGS"
                         (obj_type <$> opt_objects (t_option m.1)))
                      option_vars)); [|done].
      apply elem_of_union. left. apply elem_of_union. left.
      by apply elem_of_singleton.
Qed.

Lemma learn_preconditions_closed option_vars add_effs del_effs ms vars pre :
  _learn_preconditions option_vars add_effs del_effs ms = Some (vars, pre) →
  (∀ l v, l ∈ pre → v ∈ variables l → v ∈ vars)
  ∧ (unify_sound → closed_under vars (add_effs ∪ del_effs) option_vars).
Proof.
  destruct ms as [|m ms]; simpl; [done|].
  destruct (member_lifted_atoms _ _ _ m) as [[vs L]|] eqn:Hm; simpl; [|done].
  intros Hrest.
  destruct (learn_preconditions_rest_spec _ _ _ _ _ _ _ _ Hrest) as [-> Hpre].
  destruct (member_lifted_atoms_closed _ _ _ _ _ _ Hm) as [HL Hsound].
  split; [|done]. intros l v Hl Hv. apply (HL l v); [|done].
  by apply Hpre in Hl as [Hl _].
Qed.

(** The operator is well formed: its preconditions, effects and option
    variables mention its parameters only. *)
Definition operator_closed (op : Operator) : Prop :=
  closed_under (parameters op)
    (preconditions op ∪ add_effects op ∪ delete_effects op)
    (option_vars op).

(** X10. Every variable of a learned operator's preconditions is one of
    its parameters; so is every variable of its effects and of its option
    arguments, given that the substitutions the unifier returns lift the
    ground atoms to the lifted ones. *)
Theorem operator_variables_are_parameters (cls : Classifiers)
    (param_option : ParameterizedOption) (transitions : list Transition)
    (do_sampler_learning : bool) (operators : list Operator) :
  unify_sound →
  learn_operators_for_option cls param_option transitions
    do_sampler_learning = Some operators →
  ∀ op, op ∈ operators →
    (∀ l v, l ∈ preconditions op ∪ add_effects op ∪ delete_effects op →
            v ∈ variables l → v ∈ parameters op)
    ∧ (∀ v, v ∈ option_vars op → v ∈ parameters op).
Proof.
  intros Hsound. unfold learn_operators_for_option.
  destruct (_partition_transitions transitions) as [partitions|];
    simpl; [|done].
  apply (foldlM_invariant (λ ops, ∀ op, op ∈ ops → operator_closed op)).
  - intros ops [i part] ops' _ Hops. unfold learn_operator_for_partition.
    case_bool_decide; [by intros [= <-]|].
    destruct (_ && _); [by intros [= <-]|].
    destruct (_learn_preconditions _ _ _ _) as [[vars pre]|] eqn:Hpre;
      simpl; [|done].
    destruct (if do_sampler_learning && _ then _ else _) as [smp|];
      simpl; [|done].
    intros [= <-] op [?| ->%list_elem_of_singleton]%elem_of_app;
      [by apply Hops|].
    destruct (learn_preconditions_closed _ _ _ _ _ _ Hpre) as [Hp Hclosed].
    destruct (Hclosed Hsound) as [Heffs Hargs].
    split; simpl; [|done].
    intros l v [[Hl|Hl]%elem_of_union|Hl]%elem_of_union Hv.
    + by apply (Hp l).
    + apply (Heffs l); [|done]. apply elem_of_union. by left.
    + apply (Heffs l); [|done]. apply elem_of_union. by right.
  - by intros op ?%elem_of_nil.
Qed.
End OperatorVariables.

(** ** Re-abstraction against a fresh generation *)

Lemma utils_abstract_union (cls : Classifiers) (s : State)
    (P Q : gset Predicate) :
  utils_abstract cls s (P ∪ Q) = utils_abstract cls s P ∪ utils_abstract cls s Q.
Proof.
  apply set_eq. intros a.
  rewrite elem_of_union, !utils_abstract_holds, elem_of_union. tauto.
Qed.

Lemma utils_abstract_ext (cls cls' : Classifiers) (s : State)
    (P : gset Predicate) :
  (∀ p objs, p ∈ P → cls' p s objs = cls p s objs) →
  utils_abstract cls' s P = utils_abstract cls s P.
Proof.
  intros Hagree. apply set_eq. intros a. rewrite !utils_abstract_holds.
  split; intros (Hp & Hobjs & Hcls); split_and!; try done.
  - by rewrite <-Hagree.
  - by rewrite Hagree.
Qed.

Section Regenerate.
Context `{Collaborators}.
Variables (cls : Classifiers) (predicates : gset Predicate)
          (new_predicate neg_new_predicate : NewPredicate).

(** The classifiers and the predicates once the two new predicates are
    in, as an iteration of the invention loop leaves them. *)
Definition enlarged_classifiers : Classifiers :=
  with_classifier (with_classifier cls new_predicate) neg_new_predicate.

Definition enlarged_predicates : gset Predicate :=
  predicates ∪ {[new_predicate.1; neg_new_predicate.1]}.

Hypothesis new_fresh : new_predicate.1 ∉ predicates.
Hypothesis neg_fresh : neg_new_predicate.1 ∉ predicates.

Lemma enlarged_classifiers_agree p :
  p ∈ predicates → enlarged_classifiers p = cls p.
Proof using new_fresh neg_fresh.
  intros Hp. unfold enlarged_classifiers, with_classifier.
  rewrite decide_False by (intros ->; done).
  by rewrite decide_False by (intros ->; done).
Qed.

Lemma abstract_enlarged s :
  utils_abstract enlarged_classifiers s enlarged_predicates
  = utils_abstract cls s predicates
    ∪ utils_abstract enlarged_classifiers s
        {[new_predicate.1; neg_new_predicate.1]}.
Proof using new_fresh neg_fresh.
  unfold enlarged_predicates. rewrite utils_abstract_union. f_equal.
  apply utils_abstract_ext. intros p objs Hp.
  by rewrite enlarged_classifiers_agree.
Qed.

Definition reabstract_new : Transition → Transition :=
  reabstract enlarged_classifiers new_predicate.1 neg_new_predicate.1.

Definition reabstract_entries : TransitionsByOption → TransitionsByOption :=
  reabstract_all enlarged_classifiers new_predicate.1 neg_new_predicate.1.

Lemma reabstract_store_append tbo o t :
  reabstract_entries (dict_append tbo o t)
  = dict_append (reabstract_entries tbo) o (reabstract_new t).
Proof.
  unfold reabstract_entries, reabstract_all.
  induction tbo as [|[o' ts] tbo IH]; [done|].
  rewrite fmap_cons. cbn [dict_append fst snd].
  destruct (decide (o' = o)) as [->|Hne]; rewrite fmap_cons; cbn [fst snd].
  - by rewrite fmap_app.
  - by rewrite IH.
Qed.

Lemma transitions_of_options_reabstract states i options tbo tbo' :
  transitions_of_options cls predicates states i options tbo = Some tbo' →
  transitions_of_options enlarged_classifiers enlarged_predicates states i
    options (reabstract_entries tbo)
  = Some (reabstract_entries tbo').
Proof using new_fresh neg_fresh.
  revert i tbo. induction options as [|opt options IH]; intros i tbo; simpl.
  - by intros [= <-].
  - destruct (states !! i) as [s|]; simpl; [|done].
    destruct (states !! S i) as [s'|]; simpl; [|done].
    intros Hrun. rewrite <-(IH _ _ Hrun), reabstract_store_append.
    do 2 f_equal. unfold reabstract_new, reabstract. simpl.
    by rewrite !abstract_enlarged.
Qed.

(** X11. Re-abstracting the stored transitions with a new predicate and
    its negation gives the very dictionary that generating the
    transitions again from the dataset, with the enlarged predicate set
    and the enlarged classifiers, would give, provided the two predicates
    are not among the old ones. *)
Theorem reabstract_all_regenerates (dataset : Dataset)
    (tbo : TransitionsByOption) :
  generate_transitions cls dataset predicates = Some tbo →
  generate_transitions
    (with_classifier (with_classifier cls new_predicate) neg_new_predicate)
    dataset (predicates ∪ {[new_predicate.1; neg_new_predicate.1]})
  = Some (reabstract_all
            (with_classifier (with_classifier cls new_predicate)
               neg_new_predicate)
            new_predicate.1 neg_new_predicate.1 tbo).
Proof using new_fresh neg_fresh.
  unfold generate_transitions.
  change (generate_transitions_from cls predicates dataset [] = Some tbo →
          generate_transitions_from enlarged_classifiers enlarged_predicates
            dataset (reabstract_entries []) = Some (reabstract_entries tbo)).
  generalize (@nil (ParameterizedOption * list Transition)).
  induction dataset as [|act_traj dataset' IH]; intros tbo0; simpl.
  - by intros [= <-].
  - destruct (action_to_option_trajectory act_traj) as [[states options]|];
      simpl; [|done].
    case_guard; simpl; [|done].
    destruct (transitions_of_options cls predicates states 0 options tbo0)
      as [tbo1|] eqn:Hopts; simpl; [|done].
    rewrite (transitions_of_options_reabstract _ _ _ _ _ Hopts). simpl.
    apply IH.
Qed.
End Regenerate.

(** ** The candidate an operator yields *)

Lemma combinations_sublist {A} (l : list A) (k : nat) (c : list A) :
  c ∈ combinations l k → sublist c l ∧ length c = k.
Proof.
  revert k c. induction l as [|x l IH]; intros [|k] c; simpl.
  - intros ->%list_elem_of_singleton. split; [constructor|done].
  - by intros ?%elem_of_nil.
  - intros ->%list_elem_of_singleton. split; [apply sublist_nil_l|done].
  - intros [Hc|Hc]%elem_of_app.
    + apply list_elem_of_fmap in Hc as (c' & -> & Hc').
      destruct (IH _ _ Hc') as [Hsub Hlen]. split; [by constructor|].
      simpl. by rewrite Hlen.
    + destruct (IH _ _ Hc) as [Hsub Hlen]. split; [by constructor|done].
Qed.

Lemma powerset_nonempty_sublist {A} (l c : list A) :
  c ∈ powerset l true → c ≠ [] ∧ sublist c l.
Proof.
  unfold powerset. intros (n & Hc & Hn%elem_of_seq)%list_elem_of_bind.
  destruct (combinations_sublist _ _ _ Hc) as [Hsub Hlen].
  split; [|done]. intros ->. simpl in Hlen. lia.
Qed.

Lemma dict_init_keys {K V} `{EqDecision K} (keys : list K) (v : V) k :
  k ∈ (dict_init keys v).*1 → k ∈ keys.
Proof.
  unfold dict_init.
  assert (∀ (d : list (K * V)) ks,
            k ∈ (foldl (λ d k, if dict_lookup d k is Some _ then d
                               else d ++ [(k, v)]) d ks).*1 →
            k ∈ d.*1 ∨ k ∈ ks) as Hfold.
  { intros d ks. revert d. induction ks as [|k0 ks IH]; intros d; simpl.
    - by left.
    - intros [Hin|Hin]%IH.
      + destruct (dict_lookup d k0); [by left|].
        rewrite fmap_app in Hin.
        apply elem_of_app in Hin as [?| ->%list_elem_of_singleton];
          [by left|right; by left].
      + right. by right. }
  intros [?%elem_of_nil|?]%Hfold; done.
Qed.

Section InventedPredicate.
Context `{Collaborators}.

Lemma record_example_keys state sub positive (data data' : InventionData) :
  record_example state sub positive data = Some data' →
  data'.*1 = data.*1.
Proof.
  unfold record_example. intros Hrun%mapM_Some.
  induction Hrun as [|[params [pos neg]] e d d' He _ IH]; [done|].
  rewrite !fmap_cons, IH. f_equal. simpl in He.
  destruct (mapM _ params) as [objs|]; simpl in He; [|done].
  destruct (vec state objs) as [x|]; simpl in He; [|done].
  destruct positive; by injection He as <-.
Qed.

Lemma invention_example_keys p ae de g sub (data data' : InventionData) t :
  invention_example p ae de g sub data t = Some data' →
  data'.*1 = data.*1.
Proof.
  unfold invention_example. destruct (negb _); [by intros [= <-]|].
  destruct (set_mapM _ ae) as [ga|]; simpl; [|done].
  destruct (set_mapM _ de) as [gd|]; simpl; [|done].
  apply record_example_keys.
Qed.

Lemma invention_group_keys p ae de ls (data data' : InventionData) entry :
  invention_group p ae de ls data entry = Some data' →
  data'.*1 = data.*1.
Proof.
  unfold invention_group.
  destruct (get_all_groundings ls entry.1) as [groundings|]; simpl; [|done].
  apply (foldlM_invariant (λ d : InventionData, d.*1 = data.*1)); [|done].
  intros d g d' _ Hd.
  apply (foldlM_invariant (λ d0 : InventionData, d0.*1 = data.*1)); [|done].
  intros d0 t d0' _ Hd0 Hstep.
  by rewrite (invention_example_keys _ _ _ _ _ _ _ _ Hstep).
Qed.

Lemma fit_candidate_types num best entry best' (keys : list (list Var)) :
  entry.1 ∈ keys →
  (∀ p, best = Some p → ∃ params, params ∈ keys
                                  ∧ pred_types p.1.1 = var_type <$> params) →
  fit_candidate num best entry = Some best' →
  ∀ p, best' = Some p → ∃ params, params ∈ keys
                                  ∧ pred_types p.1.1 = var_type <$> params.
Proof.
  intros Hkey Hbest. unfold fit_candidate.
  destruct entry as [params [pos neg]]. simpl in Hkey.
  destruct (head (pos ++ neg)) as [x0|]; simpl; [|done].
  destruct (Qlt_bool _ _); [by intros [= <-]|].
  destruct best as [[bp bs]|].
  - destruct (Qlt_bool bs _); intros [= <-] p [= <-].
    + by exists params.
    + by apply (Hbest (bp, bs)).
  - intros [= <-] p [= <-]. by exists params.
Qed.

(** X12. A predicate invented for an operator is named after the number
    of inventions made so far, and its argument types are the types of a
    non-empty sub-sequence of the operator's parameters: it never has
    arity 0, and never more arguments than the operator has
    parameters. *)
Theorem invented_predicate_signature (self : IterativeInventionApproach)
    (operator : Operator) (transitions : list Transition)
    (p : NewPredicate) :
  _invent_for_operator self operator transitions = Some (Some p) →
  pred_name p.1 = "InventedPredicate-" +:+ pretty (_num_inventions self)
  ∧ ∃ params,
      params ≠ [] ∧ sublist params (parameters operator)
      ∧ pred_types p.1 = var_type <$> params.
Proof.
  intros Hrun. split; [by apply invent_for_operator_name in Hrun|].
  revert Hrun. unfold _invent_for_operator. case_bool_decide; [done|].
  destruct (group_by_objects _ _) as [groups|]; [|done].
  destruct (foldlM _ _ groups) as [data|] eqn:Hdata; [|done].
  assert (data.*1
          = (dict_init (powerset (parameters operator) true)
               (@nil Array, @nil Array)).*1) as Hkeys.
  { revert Hdata. apply (foldlM_invariant
      (λ d : InventionData,
         d.*1 = (dict_init (powerset (parameters operator) true)
                   (@nil Array, @nil Array)).*1)); [|done].
    intros d g d' _ Hd Hstep.
    by rewrite (invention_group_keys _ _ _ _ _ _ _ Hstep). }
  unfold choose_predicate.
  destruct (dict_lookup data _) as [[all_pos all_neg]|]; [|done].
  case_bool_decide; [done|]. case_bool_decide; [done|].
  destruct (foldlM (fit_candidate _) None data) as [best|] eqn:Hfits; [|done].
  intros [= Hp].
  assert (∀ q, best = Some q →
               ∃ params, params ∈ data.*1
                         ∧ pred_types q.1.1 = var_type <$> params) as Htypes.
  { eapply (foldlM_invariant
              (λ best, ∀ q, best = Some q →
                 ∃ params, params ∈ data.*1
                           ∧ pred_types q.1.1 = var_type <$> params));
      [| |exact Hfits]; [|done].
    intros b e b' He Hb Hstep. eapply fit_candidate_types; [|done|done].
    apply list_elem_of_fmap. by exists e. }
  destruct best as [[p' score]|]; [|done]. injection Hp as <-.
  destruct (Htypes (p', score) eq_refl) as (params & Hin & Hty).
  rewrite Hkeys in Hin. apply dict_init_keys in Hin.
  destruct (powerset_nonempty_sublist _ _ Hin) as [Hne Hsub].
  by exists params.
Qed.
End InventedPredicate.

(** ** Floats that are not negative *)

(** A float that is no NaN and whose sign bit is clear. *)
Definition nonneg (x : float) : Prop :=
  match x with
  | S754_zero false | S754_finite false _ _ | S754_infinity false => True
  | _ => False
  end.

Lemma shr_1_nonneg mrs : (0 ≤ shr_m mrs)%Z → (0 ≤ shr_m (shr_1 mrs))%Z.
Proof. destruct mrs as [[|[p|p|]|[p|p|]] r s]; simpl; lia. Qed.

Lemma iter_pos_shr_1_nonneg p mrs :
  (0 ≤ shr_m mrs)%Z → (0 ≤ shr_m (SpecFloat.iter_pos shr_1 p mrs))%Z.
Proof.
  revert mrs. induction p as [p IH|p IH|]; intros mrs Hm; simpl.
  - by apply IH, IH, shr_1_nonneg.
  - by apply IH, IH.
  - by apply shr_1_nonneg.
Qed.

Lemma shr_fexp_nonneg m e l :
  (0 ≤ m)%Z → (0 ≤ shr_m (shr_fexp prec emax m e l).1)%Z.
Proof.
  intros Hm. unfold shr_fexp, shr.
  assert (0 ≤ shr_m (shr_record_of_loc m l))%Z as Hrec
    by (by destruct l as [|[]]).
  destruct (_ - e)%Z; simpl; [done| |done].
  by apply iter_pos_shr_1_nonneg.
Qed.

Lemma round_nearest_even_nonneg m l :
  (0 ≤ m)%Z → (0 ≤ round_nearest_even m l)%Z.
Proof.
  intros Hm. destruct l as [|[]]; simpl; [done| |done|lia].
  destruct (Z.even m); lia.
Qed.

Lemma binary_round_aux_nonneg m e l :
  (0 ≤ m)%Z → nonneg (binary_round_aux prec emax false m e l).
Proof.
  intros Hm. unfold binary_round_aux.
  pose proof (shr_fexp_nonneg m e l Hm) as H1.
  destruct (shr_fexp prec emax m e l) as [mrs' e']. simpl in H1.
  pose proof (shr_fexp_nonneg _ e' loc_Exact
                (round_nearest_even_nonneg _ (loc_of_shr_record mrs') H1))
    as H2.
  destruct (shr_fexp prec emax _ e' loc_Exact) as [mrs'' e'']. simpl in H2.
  destruct (shr_m mrs'') as [|p|p]; [done| |lia].
  by destruct (_ <=? _)%Z.
Qed.

Lemma float_of_Z_nonneg (n : Z) : (0 ≤ n)%Z → nonneg (float_of_Z n).
Proof.
  intros Hn. unfold float_of_Z, binary_normalize.
  destruct n as [|p|p]; [done| |lia].
  unfold binary_round. destruct (shl_align _ _ _) as [mz ez].
  by apply binary_round_aux_nonneg.
Qed.

Lemma float_div_nonneg (x y : float) :
  nonneg x → nonneg y → x ≠ S754_zero false → x ≠ S754_infinity false →
  nonneg (float_div x y).
Proof.
  destruct x as [[]|[]| |[] mx ex], y as [[]|[]| |[] my ey]; try done.
  intros _ _ _ _. unfold float_div, SFdiv. simpl xorb.
  destruct (SFdiv_core_binary _ _ _ _ _ _) as [[mz ez] lz] eqn:Hcore.
  apply binary_round_aux_nonneg.
  unfold SFdiv_core_binary in Hcore.
  destruct (Z.div_eucl _ _) as [q r] eqn:Hdiv. injection Hcore as <- _ _.
  change q with (q, r).1. rewrite <-Hdiv.
  match goal with
  | |- (0 ≤ (Z.div_eucl ?a ?b).1)%Z =>
      change ((Z.div_eucl a b).1) with (a / b)%Z; apply Z.div_pos; [|lia]
  end.
  destruct (_ - _ - _)%Z; [lia| |lia]. apply Z.shiftl_nonneg. lia.
Qed.

(** On such floats [<=] is a total preorder. *)
Lemma SFleb_total (a b : float) :
  nonneg a → nonneg b → SFleb a b = false → SFleb b a = true.
Proof.
  destruct a as [[]|[]| |[] ma ea], b as [[]|[]| |[] mb eb]; try done.
  intros _ _. unfold SFleb, SFcompare.
  rewrite (Z.compare_antisym ea eb), !Pos.compare_cont_spec.
  rewrite (Pos.compare_antisym ma mb). simpl.
  destruct (ea ?= eb)%Z; simpl; try done.
  by destruct (ma ?= mb)%positive.
Qed.

Lemma SFleb_finite ma ea mb eb :
  SFleb (S754_finite false ma ea) (S754_finite false mb eb) = true
  ↔ (ea < eb)%Z ∨ (ea = eb ∧ (ma ≤ mb)%positive).
Proof.
  unfold SFleb, SFcompare. rewrite Pos.compare_cont_spec. simpl.
  destruct (Z.compare_spec ea eb) as [->| |]; simpl.
  - destruct (Pos.compare_spec ma mb) as [->| |]; split; try done;
      try (intros _; right; split; [done|lia]).
    intros [?|[_ ?]]; lia.
  - split; [by left|done].
  - split; [done|]. intros [?|[? _]]; lia.
Qed.

Lemma SFleb_trans (a b c : float) :
  nonneg a → nonneg b → nonneg c →
  SFleb a b = true → SFleb b c = true → SFleb a c = true.
Proof.
  destruct a as [[]|[]| |[] ma ea], b as [[]|[]| |[] mb eb],
           c as [[]|[]| |[] mc ec]; try done.
  intros _ _ _. rewrite !SFleb_finite. lia.
Qed.

(** ** The score of a goal *)

(** The number of ground atom sets of the dataset that include the goal. *)
Definition times_seen (ground_atom_dataset : GroundAtomDataset)
    (goal : gset GroundAtom) : nat :=
  length (filter (λ ground_atom_set, goal ⊆ ground_atom_set)
                 (mjoin ground_atom_dataset)).

Lemma score_goal_count (ground_atom_dataset : GroundAtomDataset)
    (goal : gset GroundAtom) :
  score_goal ground_atom_dataset goal
  = float_div (float_of_Z 1)
      (float_of_Z (1 + Z.of_nat (times_seen ground_atom_dataset goal))).
Proof.
  unfold score_goal, times_seen. do 2 f_equal.
  cbv zeta.
  assert (∀ (traj : list (gset GroundAtom)) (c : Z),
            foldl (λ count ground_atom_set,
                     count + (if bool_decide (goal ⊆ ground_atom_set)
                              then 1 else 0))%Z c traj
            = (c + Z.of_nat (length (filter (λ s, goal ⊆ s) traj)))%Z) as Hin.
  { induction traj as [|s traj IH]; intros c; simpl; [lia|].
    rewrite IH, filter_cons. case_bool_decide.
    - rewrite decide_True by done. simpl. lia.
    - rewrite decide_False by done. lia. }
  assert (∀ (d : GroundAtomDataset) (c : Z),
            foldl (λ count trajectory,
                     foldl (λ count ground_atom_set,
                              count + (if bool_decide (goal ⊆ ground_atom_set)
                                       then 1 else 0))%Z
                           count trajectory) c d
            = (c + Z.of_nat (length (filter (λ s, goal ⊆ s) (mjoin d))))%Z)
    as Hout.
  { induction d as [|traj d IH]; intros c; simpl; [lia|].
    rewrite IH, Hin, filter_app, length_app. lia. }
  apply Hout.
Qed.

Lemma score_goal_nonneg (ground_atom_dataset : GroundAtomDataset)
    (goal : gset GroundAtom) :
  nonneg (score_goal ground_atom_dataset goal).
Proof.
  rewrite score_goal_count. apply float_div_nonneg; [done| |done..].
  apply float_of_Z_nonneg. lia.
Qed.

(** X13. The score of a goal is the float quotient of 1 by one plus the
    number of ground atom sets of the dataset that include the goal; it
    is never a NaN, and never negative. *)
Theorem score_goal_inverse_count (ground_atom_dataset : GroundAtomDataset)
    (goal : gset GroundAtom) :
  score_goal ground_atom_dataset goal
  = float_div (float_of_Z 1)
      (float_of_Z
         (1 + Z.of_nat
                (length (filter (λ ground_atom_set, goal ⊆ ground_atom_set)
                                (mjoin ground_atom_dataset)))))
  ∧ nonneg (score_goal ground_atom_dataset goal).
Proof. split; [apply score_goal_count|apply score_goal_nonneg]. Qed.

(** ** Sorting by decreasing key and slicing *)

Lemma insert_by_key_Permutation {A} (key : A → float) (x : A) (l : list A) :
  insert_by_key key x l ≡ₚ x :: l.
Proof.
  induction l as [|y l IH]; simpl; [done|].
  destruct (SFleb (key y) (key x)); [done|].
  rewrite IH. apply Permutation_swap.
Qed.

Lemma sort_reverse_Permutation {A} (key : A → float) (l : list A) :
  sort_reverse key l ≡ₚ l.
Proof.
  induction l as [|x l IH]; simpl; [done|].
  by rewrite insert_by_key_Permutation, IH.
Qed.

Definition decreasing {A} (key : A → float) (a b : A) : Prop :=
  SFleb (key b) (key a) = true.

Lemma insert_by_key_sorted {A} (key : A → float) (x : A) (l : list A) :
  nonneg (key x) → Forall (λ y, nonneg (key y)) l →
  StronglySorted (decreasing key) l →
  StronglySorted (decreasing key) (insert_by_key key x l).
Proof.
  intros Hx Hl Hs. induction Hs as [|y l Hs IH Hy]; simpl.
  - repeat constructor.
  - apply Forall_cons in Hl as [Hky Hl].
    destruct (SFleb (key y) (key x)) eqn:Hle.
    + constructor; [by constructor|].
      constructor; [done|].
      apply Forall_forall. intros z Hz. unfold decreasing in *.
      eapply (SFleb_trans _ (key y)); [|done|done| |done].
      * by eapply Forall_forall in Hl.
      * by eapply Forall_forall in Hy.
    + constructor; [by apply IH|].
      rewrite insert_by_key_Permutation. constructor; [|done].
      unfold decreasing. by apply SFleb_total.
Qed.

Lemma sort_reverse_sorted {A} (key : A → float) (l : list A) :
  Forall (λ y, nonneg (key y)) l →
  StronglySorted (decreasing key) (sort_reverse key l).
Proof.
  induction 1 as [|x l Hx Hl IH]; simpl; [constructor|].
  apply insert_by_key_sorted; [done| |done].
  by rewrite sort_reverse_Permutation.
Qed.

Lemma slice_to_take {A} (n : Z) (l : list A) :
  ∃ m, slice_to n l = take m l
       ∧ ((0 ≤ n)%Z → m = Z.to_nat n).
Proof.
  unfold slice_to. case_bool_decide.
  - eexists. split; [done|lia].
  - eexists. split; [done|done].
Qed.

(** In a list sorted by decreasing key, what a prefix leaves out has no
    larger key than what it keeps. *)
Lemma sorted_take_drop {A} (key : A → float) (l : list A) (m : nat) x y :
  StronglySorted (decreasing key) l →
  x ∈ take m l → y ∈ drop m l → SFleb (key y) (key x) = true.
Proof.
  intros Hs. revert m. induction Hs as [|z l Hl IH Hz]; intros m.
  - rewrite take_nil. by intros ?%elem_of_nil.
  - destruct m as [|m]; simpl; [by intros ?%elem_of_nil|].
    intros [->|Hx]%elem_of_cons Hy.
    + eapply Forall_forall in Hz; [exact Hz|].
      eapply elem_of_sublist; [exact Hy|apply sublist_drop].
    + by eapply IH.
Qed.

Lemma filter_all {A} (P : A → Prop) `{∀ x, Decision (P x)} (l : list A) :
  Forall P l → filter P l = l.
Proof.
  induction 1 as [|x l Hx _ IH]; [done|].
  by rewrite filter_cons, decide_True, IH.
Qed.

Lemma zip_fst_fmap {A B} (f : A → B) (l : list A) :
  (zip l (f <$> l)).*1 = l.
Proof. apply fst_zip. by rewrite length_fmap. Qed.

Lemma elem_of_zip_fmap {A B} (f : A → B) (l : list A) (p : A * B) :
  p ∈ zip l (f <$> l) → p.2 = f p.1.
Proof.
  intros [i Hi]%list_elem_of_lookup.
  apply lookup_zip_with_Some in Hi as (x & y & -> & Hx & Hy).
  rewrite list_lookup_fmap, Hx in Hy. simpl in *. congruence.
Qed.

Module StatesToAsk.
Import Interactive.

Section StatesToAsk.
Context `{Collaborators}.
Variables (ICFG : InteractiveSettings)
          (self : InteractiveLearningApproach).

(** The score of a state: the score of its abstraction under the
    current predicates. *)
Definition state_score (s : State) : float :=
  score_goal (_ground_atom_dataset self)
    (utils_abstract (classifiers self) s (_get_current_predicates self)).

Definition supported (strategy : string) : Prop :=
  strategy = "all_seen_states" ∨ strategy = "threshold"
  ∨ strategy = "top_k_percent".

(** The float [pct / 100. * len(new_states)] of the top-k-percent
    strategy. *)
Definition percentage_of (pct : float) (trajectories : Dataset) : float :=
  float_mul (float_div pct (float_of_Z 100))
            (float_of_Z (Z.of_nat (length (mjoin trajectories.*1)))).

(** X14. Whatever the strategy, the states to ask about are drawn
    from the states of the given trajectories, none more often than it
    occurs there.  The call raises [NotImplementedError] exactly for a
    strategy that is none of the three, [AssertionError] only when the
    threshold or the percentage of the chosen strategy is not a float,
    and otherwise only what [int] raises on the percentage of the
    number of states. *)
Theorem states_to_ask_drawn (trajectories : Dataset) :
  match _get_states_to_ask ICFG self trajectories with
  | inr states =>
      supported (interactive_ask_strategy ICFG)
      ∧ states ⊆+ mjoin trajectories.*1
  | inl (NotImplementedError _) =>
      ¬ supported (interactive_ask_strategy ICFG)
  | inl AssertionError =>
      (interactive_ask_strategy ICFG = "threshold"
       ∧ ∃ n, interactive_ask_strategy_threshold ICFG = Int n)
      ∨ (interactive_ask_strategy ICFG = "top_k_percent"
         ∧ ∃ n, interactive_ask_strategy_pct ICFG = Int n)
  | inl e =>
      interactive_ask_strategy ICFG = "top_k_percent"
      ∧ ∃ pct, interactive_ask_strategy_pct ICFG = Float pct
               ∧ int_or_raise (percentage_of pct trajectories) = inl e
  end.
Proof.
  unfold _get_states_to_ask, supported.
  fold (state_score).
  destruct (decide (interactive_ask_strategy ICFG = "all_seen_states"))
    as [Hall|Hall]; [by split; [left|]|].
  destruct (decide (interactive_ask_strategy ICFG = "threshold"))
    as [Hthr|Hthr].
  { destruct (interactive_ask_strategy_threshold ICFG) as [thr|n] eqn:Hcfg;
      simpl.
    - split; [right; by left|].
      apply sublist_submseteq.
      match goal with
      | |- sublist (?f <$> filter ?P ?l) _ =>
          pose proof (fmap_sublist f _ _ (sublist_filter P l)) as Hsub
      end.
      by rewrite zip_fst_fmap in Hsub.
    - left. split; [done|]. by exists n. }
  destruct (decide (interactive_ask_strategy ICFG = "top_k_percent"))
    as [Htop|Htop].
  { destruct (interactive_ask_strategy_pct ICFG) as [pct|n] eqn:Hcfg;
      cbn [raise].
    - fold (percentage_of pct trajectories).
      destruct (int_or_raise (percentage_of pct trajectories))
        as [e|n] eqn:Hint; cbn [mbind Result_bind mret Result_ret].
      + assert (e = ValueError ∨ e = OverflowError) as He.
        { revert Hint. unfold int_or_raise, raise, or_raise.
          destruct (percentage_of pct trajectories); simpl;
            intros [= <-]; auto. }
        destruct He as [->| ->]; (split; [done|by exists pct]).
      + split; [right; by right|].
        match goal with
        | |- context [slice_to ?n ?l] =>
            destruct (slice_to_take n l) as (m & -> & _)
        end.
        match goal with
        | |- (?f <$> take ?m (sort_reverse ?k ?l)) ⊆+ _ =>
            pose proof (fmap_submseteq f _ _
              (sublist_submseteq _ _ (sublist_take (sort_reverse k l) m)))
              as Hsub
        end.
        etrans; [exact Hsub|].
        by rewrite sort_reverse_Permutation, zip_fst_fmap.
    - right. split; [done|]. by exists n. }
  simpl. intros [?|[?|?]]; done.
Qed.

(** X15. With the threshold strategy and a threshold that is at most
    0.0, every state is asked about, in order: a score is never
    negative. *)
Theorem threshold_not_positive_asks_all (trajectories : Dataset)
    (threshold : float) :
  interactive_ask_strategy ICFG = "threshold" →
  interactive_ask_strategy_threshold ICFG = Float threshold →
  SFleb threshold (float_of_Z 0) = true →
  _get_states_to_ask ICFG self trajectories = inr (mjoin trajectories.*1).
Proof.
  intros Hstrategy Hcfg Hthr. unfold _get_states_to_ask.
  fold (state_score).
  rewrite decide_False by (rewrite Hstrategy; discriminate).
  rewrite decide_True by done. rewrite Hcfg. simpl. f_equal.
  rewrite filter_all; [apply zip_fst_fmap|].
  apply Forall_forall. intros p Hp%elem_of_zip_fmap. rewrite Hp.
  pose proof (score_goal_nonneg (_ground_atom_dataset self)
                (utils_abstract (classifiers self) p.1
                   (_get_current_predicates self))) as Hscore.
  fold (state_score p.1) in Hscore. revert Hthr Hscore.
  change (float_of_Z 0) with (S754_zero false).
  by destruct threshold as [[]|[]| |[] ? ?],
              (state_score p.1) as [[]|[]| |[] ? ?].
Qed.

(** X16. With the top-k-percent strategy, let [n] be the integer part
    of the percentage of the number of states, in floats.  When [n] is
    not negative, the [n] first states by decreasing score are asked
    about, all of them when there are no more than [n]: no state left
    out scores higher than a state asked about. *)
Theorem top_k_percent_asks_best (trajectories : Dataset) (pct : float)
    (n : Z) :
  interactive_ask_strategy ICFG = "top_k_percent" →
  interactive_ask_strategy_pct ICFG = Float pct →
  int_of_float (percentage_of pct trajectories) = Some n →
  (0 ≤ n)%Z →
  let new_states := mjoin trajectories.*1 in
  ∃ asked left_out,
    _get_states_to_ask ICFG self trajectories = inr asked
    ∧ length asked = Z.to_nat n `min` length new_states
    ∧ asked ++ left_out ≡ₚ new_states
    ∧ ∀ s s', s ∈ asked → s' ∈ left_out →
        SFleb (state_score s') (state_score s) = true.
Proof.
  intros Hstrategy Hcfg Hint Hn new_states. unfold _get_states_to_ask.
  fold (state_score).
  rewrite decide_False by (rewrite Hstrategy; discriminate).
  rewrite decide_False by (rewrite Hstrategy; discriminate).
  rewrite decide_True by done. rewrite Hcfg.
  fold (percentage_of pct trajectories). fold new_states.
  assert (int_or_raise (percentage_of pct trajectories) = inr n) as ->.
  { revert Hint. unfold int_or_raise.
    destruct (percentage_of pct trajectories); simpl; try done;
      by intros [= ->]. }
  cbn [mbind Result_bind mret Result_ret].
  set (sorted := sort_reverse snd (zip new_states (state_score <$> new_states))).
  assert (length sorted = length new_states) as Hlen.
  { unfold sorted. rewrite sort_reverse_Permutation, length_zip_with,
      length_fmap. lia. }
  exists (take (Z.to_nat n) sorted).*1, (drop (Z.to_nat n) sorted).*1.
  split_and!.
  - f_equal. f_equal. unfold slice_to.
    rewrite bool_decide_eq_false_2; [done|lia].
  - by rewrite length_fmap, length_take, Hlen.
  - rewrite <-fmap_app, take_drop. unfold sorted.
    rewrite sort_reverse_Permutation. by rewrite zip_fst_fmap.
  - intros s s' ([s0 sc] & -> & Hs)%list_elem_of_fmap
                ([s0' sc'] & -> & Hs')%list_elem_of_fmap.
    assert (∀ p, p ∈ zip new_states (state_score <$> new_states) →
                 p.2 = state_score p.1) as Hzip.
    { intros p Hp. by apply (elem_of_zip_fmap state_score new_states). }
    assert (StronglySorted (decreasing snd) sorted) as Hsorted.
    { apply sort_reverse_sorted, Forall_forall. intros p Hp.
      rewrite (Hzip p Hp). apply score_goal_nonneg. }
    pose proof (sorted_take_drop snd sorted _ _ _ Hsorted Hs Hs') as Hle.
    assert (∀ p, p ∈ sorted → p.2 = state_score p.1) as Hscore.
    { intros p Hp. apply Hzip. unfold sorted in Hp.
      by rewrite sort_reverse_Permutation in Hp. }
    rewrite (Hscore (s0, sc)) in Hle
      by (eapply elem_of_sublist; [exact Hs|apply sublist_take]).
    rewrite (Hscore (s0', sc')) in Hle
      by (eapply elem_of_sublist; [exact Hs'|apply sublist_drop]).
    exact Hle.
Qed.
End StatesToAsk.
End StatesToAsk.

(** ** Loops that may raise *)

Lemma foldlE_app {A B} (f : A → B → Result A) (a : A) (l1 l2 : list B) :
  foldlE f a (l1 ++ l2) = (a' ← foldlE f a l1; foldlE f a' l2).
Proof.
  revert a. induction l1 as [|x l1 IH]; intros a; [done|].
  cbn [app foldlE]. destruct (f a x) as [e|a1]; [done|]. apply IH.
Qed.

Lemma foldlE_invariant {A B} (P : A → Prop) (f : A → B → Result A)
    (a a' : A) (l : list B) :
  (∀ a x a', x ∈ l → P a → f a x = inr a' → P a') →
  P a → foldlE f a l = inr a' → P a'.
Proof.
  revert a. induction l as [|x l IH]; intros a Hstep Ha; cbn [foldlE].
  - by intros [= <-].
  - destruct (f a x) as [e|a1] eqn:Hf; [done|]. apply IH.
    + intros ?????. eapply Hstep; [by right|done..].
    + eapply Hstep; [by left|done..].
Qed.

Lemma foldlE_returns {A B} (P : A → Prop) (f : A → B → Result A)
    (a : A) (l : list B) :
  (∀ a x, x ∈ l → P a → ∃ a', f a x = inr a' ∧ P a') →
  P a → ∃ a', foldlE f a l = inr a' ∧ P a'.
Proof.
  revert a. induction l as [|x l IH]; intros a Hstep Ha; cbn [foldlE].
  - by exists a.
  - destruct (Hstep a x) as (a1 & -> & Ha1); [by left|done|].
    apply IH; [|done]. intros ????. apply Hstep; [by right|done].
Qed.

Lemma mapE_returns {A B} (P : B → Prop) (f : A → Result B) (l : list A) :
  (∀ x, x ∈ l → ∃ y, f x = inr y ∧ P y) →
  ∃ ys, mapE f l = inr ys ∧ Forall P ys.
Proof.
  induction l as [|x l IH]; intros Hf; cbn [mapE].
  - by exists [].
  - destruct (Hf x) as (y & -> & Hy); [by left|].
    destruct IH as (ys & -> & Hys); [intros ??; apply Hf; by right|].
    exists (y :: ys). split; [done|]. by constructor.
Qed.

Lemma foldl_insert_fmap `{Countable K} {A V} (k : A → K) (v : A → V)
    (m : gmap K V) (l : list A) :
  foldl (λ m x, <[k x := v x]> m) m l
  = foldl (λ (m : gmap K V) kv, <[kv.1 := kv.2]> m) m ((λ x, (k x, v x)) <$> l).
Proof. revert m. induction l as [|x l IH]; intros m; [done|]. apply IH. Qed.

(** ** What the teacher holds, unconditionally *)

Section TeacherShape.
Context `{Collaborators}.
Variables (cls : Classifiers) (preds : gset Predicate).

(** The atoms labelled for a state are atoms of that state. *)
Definition labelled (s : State) (atoms : gset GroundAtom) : Prop :=
  atoms ⊆ utils_abstract cls s preds.

Lemma teacher_atoms_labelled r rng s atoms rng' :
  teacher_atoms cls preds r rng s = Returned (atoms, rng') →
  labelled s atoms.
Proof.
  unfold teacher_atoms. destruct (int_of_float _) as [n_samples|]; [|done].
  case_bool_decide; [done|].
  destruct (choice _ _ _) as [[subset rng1]|]; [|done].
  destruct (mapM _ subset) as [subset_atoms|] eqn:Hget; [|done].
  intros [= <- <-] a Ha%elem_of_list_to_set.
  apply mapM_Some in Hget. apply list_elem_of_lookup in Ha as [i Hi].
  destruct (Forall2_lookup_r _ _ _ _ _ Hget Hi) as (j & _ & Hj).
  apply list_elem_of_lookup_2 in Hj.
  rewrite sorted_ground_atoms_Permutation in Hj.
  by apply elem_of_elements in Hj.
Qed.

Lemma teacher_trajectory_labelled r rng ss traj rng' :
  teacher_trajectory cls preds r rng ss = Returned (traj, rng') →
  Forall2 labelled ss traj.
Proof.
  revert rng traj. induction ss as [|s ss IH]; intros rng traj;
    cbn [teacher_trajectory].
  - intros [= <- <-]. constructor.
  - destruct (teacher_atoms _ _ _ _ _) as [[atoms rng1]| |] eqn:Hs; [|done..].
    destruct (teacher_trajectory _ _ _ _ _) as [[traj1 rng2]| |] eqn:Hss;
      [|done..].
    intros [= <- <-]. constructor; [by eapply teacher_atoms_labelled|].
    by eapply IH.
Qed.

Lemma teacher_dataset_labelled r rng (dataset : Dataset) result :
  teacher_dataset_from cls preds r rng dataset = Returned result →
  Forall2 (λ traj atoms_traj, Forall2 labelled traj.1 atoms_traj)
          dataset result.
Proof.
  revert rng result. induction dataset as [|[ss acts] dataset IH];
    intros rng result; cbn [teacher_dataset_from].
  - intros [= <-]. constructor.
  - destruct (teacher_trajectory _ _ _ _ _) as [[traj rng1]| |] eqn:Hss;
      [|done..].
    destruct (teacher_dataset_from _ _ _ _ _) as [result1| |] eqn:Hrest;
      [|done..].
    intros [= <-]. constructor; [by eapply teacher_trajectory_labelled|].
    by eapply IH.
Qed.
End TeacherShape.

(** The vector of a combination of a state's own objects is defined. *)
Lemma vec_combination (s : State) (types : list Ty) (choice : list Object) :
  choice ∈ get_object_combinations (state_objects s) types →
  is_Some (vec s choice).
Proof.
  intros [_ Hin]%list_elem_of_filter. unfold vec.
  apply fmap_is_Some, mapM_is_Some, Forall_forall. intros o Ho.
  assert (o ∈ state_objects s) as Hs.
  { clear -Hin Ho. revert choice Hin Ho.
    induction types as [|ty types IH]; intros choice; cbn [object_product].
    - intros ->%list_elem_of_singleton. by intros ?%elem_of_nil.
    - intros (o' & Hc & Ho')%list_elem_of_bind.
      apply list_elem_of_fmap in Hc as (c' & -> & Hc').
      intros [->|Ho]%elem_of_cons; [|by eapply IH].
      by apply list_elem_of_filter in Ho' as [_ ?]. }
  unfold state_objects in Hs.
  apply list_elem_of_fmap in Hs as ([o' x] & -> & Hx).
  apply elem_of_map_to_list in Hx. by exists x.
Qed.

Module TeacherProps.
Import Interactive.

Section TeacherProps.
Context `{Collaborators}.
Variables
  (ICFG : InteractiveSettings)
  (all_possible_ground_atoms : State → gset Predicate → list GroundAtom)
  (choice_one : Rng → Z → option (nat * Rng))
  (stripped_classifier : State → list Object → bool).

Lemma teacher_lookup (cls : Classifiers)
    (all_predicates to_learn : gset Predicate) (name : string) :
  (∀ p q, p ∈ all_predicates → q ∈ all_predicates →
          pred_name p = pred_name q → p = q) →
  ∀ p, _name_to_predicate (Teacher_init cls all_predicates to_learn)
         !! name = Some p
       ↔ p ∈ all_predicates ∧ pred_name p = name.
Proof.
  intros Hnames p. unfold Teacher_init. cbn [_name_to_predicate].
  rewrite (foldl_insert_fmap pred_name id), foldl_insert_lookup.
  - rewrite list_elem_of_fmap. split.
    + intros (q & [= -> ->] & Hq%elem_of_elements). done.
    + intros [Hp <-]. exists p. split; [done|]. by apply elem_of_elements.
  - rewrite <-list_fmap_compose. apply NoDup_fmap_2_strong.
    + intros p1 p2 Hp1%elem_of_elements Hp2%elem_of_elements.
      by apply Hnames.
    + apply NoDup_elements.
Qed.

(** X17. When no two predicates of the environment share a name, the
    teacher of a new approach answers a question about an atom with the
    environment's own classifier of the predicate of that name, also for
    a predicate the approach has to learn; a question about an atom
    whose predicate name the environment does not have raises
    [KeyError]. *)
Theorem teacher_answers (cls : Classifiers)
    (all_predicates : gset Predicate) (rng : Rng)
    (state : State) (ground_atom : GroundAtom) :
  (∀ p q, p ∈ all_predicates → q ∈ all_predicates →
          pred_name p = pred_name q → p = q) →
  let self :=
    Interactive.init ICFG stripped_classifier cls all_predicates rng in
  (∀ p, p ∈ all_predicates →
        pred_name p = pred_name (predicate ground_atom) →
        _ask_teacher self state ground_atom
        = inr (cls p state (objects ground_atom)))
  ∧ ((∀ p, p ∈ all_predicates →
           pred_name p ≠ pred_name (predicate ground_atom)) →
     _ask_teacher self state ground_atom = inl KeyError).
Proof.
  intros Hnames self. unfold _ask_teacher, ask, self, Interactive.init.
  cbn [_teacher]. split.
  - intros p Hp Hname.
    rewrite (proj2 (teacher_lookup cls all_predicates _ _ Hnames p))
      by done.
    done.
  - intros Hnone.
    destruct (_name_to_predicate _ !! _) as [p|] eqn:Hp; [|done].
    apply teacher_lookup in Hp as [Hp Hname]; [|done].
    by destruct (Hnone p Hp).
Qed.

(** X18. The teacher hands out its data once: whatever a call of
    [_load_dataset] comes to, an [ApproachFailure] included, every
    later call raises [AssertionError] and leaves the approach as it
    is; and a call that raises leaves both datasets as they were. *)
Theorem load_dataset_once (self self' : InteractiveLearningApproach)
    (dataset : Dataset) (outcome : Result ()) :
  _load_dataset self dataset = (self', outcome) →
  (∀ dataset', _load_dataset self' dataset' = (self', inl AssertionError))
  ∧ (∀ e, outcome = inl e →
       _dataset self' = _dataset self
       ∧ _ground_atom_dataset self' = _ground_atom_dataset self).
Proof.
  unfold _load_dataset, generate_data.
  destruct (_has_generated_data (_teacher self)) eqn:Hflag.
  - intros [= <- <-]. cbn. rewrite Hflag.
    destruct self as [? ? [] ? ? ? ?]; cbn in *. by subst.
  - destruct (of_outcome _) as [e|gad]; intros [= <- <-]; cbn; done.
Qed.

(** The loop over the ground atom dataset, on datasets that go state
    by state with atoms of that state. *)
Lemma positive_examples_aligned (cls : Classifiers)
    (preds : gset Predicate) (dataset : Dataset)
    (ground_atom_dataset : GroundAtomDataset) (pred : Predicate) :
  Forall2 (λ traj atoms_traj, Forall2 (labelled cls preds) traj.1 atoms_traj)
          dataset ground_atom_dataset →
  ∃ positives,
    positive_examples_of dataset ground_atom_dataset pred = inr positives
    ∧ ∀ x, x ∈ positives →
        ∃ s objs, s ∈ mjoin dataset.*1
                  ∧ pred ∈ preds
                  ∧ cls pred s objs = true
                  ∧ vec s objs = Some x.
Proof.
  intros Haligned. unfold positive_examples_of.
  set (sound := λ positives : list Array,
         ∀ x, x ∈ positives →
           ∃ s objs, s ∈ mjoin dataset.*1 ∧ pred ∈ preds
                     ∧ cls pred s objs = true ∧ vec s objs = Some x).
  apply (foldlE_returns sound); [|by intros x ?%elem_of_nil].
  intros acc [i atoms_traj] Hi%elem_of_enumerate Hacc.
  destruct (Forall2_lookup_r _ _ _ _ _ Haligned Hi)
    as (traj & Htraj & Hstates).
  apply (foldlE_returns sound); [|done].
  intros acc' [j atoms] Hj%elem_of_enumerate Hacc'.
  destruct (Forall2_lookup_r _ _ _ _ _ Hstates Hj) as (s & Hs & Hatoms).
  rewrite Htraj. cbn [or_raise mbind Result_bind]. rewrite Hs.
  cbn [or_raise mbind Result_bind].
  assert (s ∈ mjoin dataset.*1) as Hin.
  { apply list_elem_of_join. exists traj.1. split.
    - by eapply list_elem_of_lookup_2.
    - apply list_elem_of_fmap. exists traj. split; [done|].
      by eapply list_elem_of_lookup_2. }
  destruct (mapE_returns
              (λ x, ∃ objs, pred ∈ preds ∧ cls pred s objs = true
                            ∧ vec s objs = Some x)
              (λ ground_atom : GroundAtom,
                 or_raise KeyError (vec s (objects ground_atom)))
              (filter (λ ground_atom, predicate ground_atom = pred)
                      (elements atoms)))
    as (positives & -> & Hpositives).
  { intros a [Hpred Ha%elem_of_elements]%list_elem_of_filter.
    apply Hatoms, utils_abstract_holds in Ha as (Hp & Hobjs & Hcls).
    destruct (vec_combination _ _ _ Hobjs) as [x Hx]. rewrite Hx.
    exists x. split; [done|]. exists (objects a). by rewrite <-Hpred. }
  eexists. split; [done|].
  intros x [Hx|Hx]%elem_of_app; [by apply Hacc'|].
  eapply Forall_forall in Hpositives as (objs & ? & ? & ?); [|done].
  by exists s, objs.
Qed.

(** X19. After a new approach has loaded an offline dataset, the loop
    collecting the positive examples of a predicate ends without an
    exception, and every example it collects is the feature vector, in
    a state of the dataset, of objects of which the environment's own
    classifier of a predicate to learn holds. *)
Theorem offline_positive_examples (cls : Classifiers)
    (all_predicates : gset Predicate) (rng : Rng) (dataset : Dataset)
    (self : InteractiveLearningApproach) (pred : Predicate) :
  _load_dataset
    (Interactive.init ICFG stripped_classifier cls all_predicates rng)
    dataset = (self, inr ()) →
  ∃ positives,
    positive_examples_of (_dataset self) (_ground_atom_dataset self) pred
    = inr positives
    ∧ ∀ x, x ∈ positives →
        ∃ s objs, s ∈ mjoin dataset.*1
                  ∧ pred ∈ all_predicates
                  ∧ (pred_name pred ∉ interactive_known_predicates ICFG)
                  ∧ cls pred s objs = true
                  ∧ vec s objs = Some x.
Proof.
  unfold _load_dataset, generate_data, Interactive.init, Teacher_init.
  cbn [_teacher _has_generated_data teacher_classifiers
       teacher_predicates_to_learn _dataset _ground_atom_dataset].
  destruct (create_teacher_dataset _ _ _) as [gad| |] eqn:Hgad;
    cbn [of_outcome]; [|done..].
  intros [= <-]. cbn [_dataset _ground_atom_dataset app].
  apply teacher_dataset_labelled in Hgad.
  destruct (positive_examples_aligned _ _ _ _ pred Hgad)
    as (positives & -> & Hsound).
  exists positives. split; [done|].
  intros x (s & objs & Hs & Hpred & Hcls & Hx)%Hsound.
  exists s, objs. split_and!; try done.
  - apply elem_of_difference in Hpred as [? _]. done.
  - apply elem_of_difference in Hpred as [Hall Hknown].
    intros Hname. apply Hknown. by apply elem_of_filter.
Qed.

Abbreviation ask_about :=
  (Interactive.ask_about all_possible_ground_atoms choice_one).
Abbreviation ask_teacher_about :=
  (Interactive.ask_teacher_about ICFG all_possible_ground_atoms choice_one).

(** What the questions asked so far have added to an approach. *)
Definition asked_after (self self' : InteractiveLearningApproach)
    (asked : list (State * GroundAtom)) : Prop :=
  _dataset self' = _dataset self ++ ((λ sa, ([sa.1], [])) <$> asked)
  ∧ _ground_atom_dataset self'
    = _ground_atom_dataset self ++ ((λ sa, [ {[sa.2]} ]) <$> asked)
  ∧ _known_predicates self' = _known_predicates self
  ∧ _predicates_to_learn self' = _predicates_to_learn self
  ∧ _teacher self' = _teacher self
  ∧ classifiers self' = classifiers self.

Definition answered_yes (self : InteractiveLearningApproach)
    (sa : State * GroundAtom) : Prop :=
  sa.2 ∈ all_possible_ground_atoms sa.1 (_get_current_predicates self)
  ∧ ask (_teacher self) sa.1 sa.2 = inr true.

Lemma ask_about_asked self s self' :
  ask_about self s = inr self' →
  ∃ asked, asked_after self self' asked
           ∧ sublist asked.*1 [s]
           ∧ Forall (answered_yes self) asked.
Proof.
  unfold Interactive.ask_about.
  destruct (choice_one _ _) as [[idx rng]|]; [|done].
  cbn [or_raise mbind Result_bind].
  destruct (_ !! idx) as [random_atom|] eqn:Hatom; [|done].
  cbn [or_raise mbind Result_bind]. unfold _ask_teacher. cbn [_teacher].
  destruct (ask _ _ _) as [e|[]] eqn:Hanswer; [done|..]; intros [= <-].
  - exists [(s, random_atom)]. split_and!.
    + by repeat split.
    + done.
    + constructor; [|constructor]. split; [|done].
      by eapply list_elem_of_lookup_2.
  - exists []. split_and!.
    + repeat split; cbn; by rewrite ?app_nil_r.
    + apply sublist_nil_l.
    + constructor.
Qed.

Lemma asked_after_trans self1 self2 self3 asked1 asked2 :
  asked_after self1 self2 asked1 → asked_after self2 self3 asked2 →
  asked_after self1 self3 (asked1 ++ asked2).
Proof.
  intros (Hd1 & Hg1 & Hk1 & Hp1 & Ht1 & Hc1)
         (Hd2 & Hg2 & Hk2 & Hp2 & Ht2 & Hc2).
  repeat split; try congruence.
  - by rewrite Hd2, Hd1, fmap_app, app_assoc.
  - by rewrite Hg2, Hg1, fmap_app, app_assoc.
Qed.

Lemma answered_yes_after self self' asked sa :
  asked_after self self' asked → answered_yes self' sa → answered_yes self sa.
Proof.
  intros (_ & _ & Hk & Hp & Ht & _) [Hin Hyes]. split.
  - unfold _get_current_predicates in *. by rewrite <-Hk, <-Hp.
  - by rewrite <-Ht.
Qed.

Lemma ask_about_all_asked states : ∀ self self',
  foldlE ask_about self states = inr self' →
  ∃ asked, asked_after self self' asked
           ∧ sublist asked.*1 states
           ∧ Forall (answered_yes self) asked.
Proof.
  induction states as [|s states IH]; intros self self'; cbn [foldlE].
  - intros [= <-]. exists []. split_and!.
    + repeat split; cbn; by rewrite ?app_nil_r.
    + done.
    + constructor.
  - destruct (ask_about self s) as [e|self1] eqn:Hs; [done|].
    cbn [mbind Result_bind]. intros Hrest.
    apply ask_about_asked in Hs as (asked1 & Hafter1 & Hsub1 & Hyes1).
    apply IH in Hrest as (asked2 & Hafter2 & Hsub2 & Hyes2).
    exists (asked1 ++ asked2). split_and!.
    + by eapply asked_after_trans.
    + rewrite fmap_app. by apply (sublist_app _ [s]).
    + apply Forall_app. split; [done|].
      eapply Forall_impl; [exact Hyes2|]. intros sa.
      by apply answered_yes_after with asked1.
Qed.

(** X20. When the teacher is asked about new trajectories, the dataset
    grows by these trajectories and then by one single-state
    trajectory for each question answered yes, while the ground atom
    dataset grows by the answered questions only; the questions
    answered yes are about states to ask, in order, and about atoms
    possible in them; predicates, teacher and classifiers stay as they
    are. *)
Theorem asked_states_recorded (self self' : InteractiveLearningApproach)
    (new_trajectories : Dataset) :
  ask_teacher_about self new_trajectories = inr self' →
  ∃ states asked,
    _get_states_to_ask ICFG self new_trajectories = inr states
    ∧ sublist asked.*1 states
    ∧ Forall (answered_yes self) asked
    ∧ _dataset self'
      = _dataset self ++ new_trajectories
        ++ ((λ sa, ([sa.1], [])) <$> asked)
    ∧ _ground_atom_dataset self'
      = _ground_atom_dataset self ++ ((λ sa, [ {[sa.2]} ]) <$> asked)
    ∧ _known_predicates self' = _known_predicates self
    ∧ _predicates_to_learn self' = _predicates_to_learn self
    ∧ _teacher self' = _teacher self
    ∧ classifiers self' = classifiers self.
Proof.
  unfold Interactive.ask_teacher_about.
  match goal with
  | |- context [_get_states_to_ask ICFG ?s new_trajectories] =>
      change (_get_states_to_ask ICFG s new_trajectories)
        with (_get_states_to_ask ICFG self new_trajectories)
  end.
  destruct (_get_states_to_ask ICFG self new_trajectories)
    as [e|states]; [done|].
  cbn [mbind Result_bind]. intros Hloop.
  apply ask_about_all_asked
    in Hloop as (asked & (Hd & Hg & Hk & Hp & Ht & Hc) & Hsub & Hyes).
  exists states, asked. cbn in Hd, Hg, Hk, Hp, Ht, Hc.
  split_and!; try done.
  by rewrite Hd, <-app_assoc.
Qed.
End TeacherProps.
End TeacherProps.

(** ** The negative examples of [_relearn_predicates_and_operators] *)

Lemma mapE_or_raise {A B} (e : Exception) (f : A → option B) (l : list A) :
  mapE (λ x, or_raise e (f x)) l = or_raise e (mapM f l).
Proof.
  induction l as [|x l IH]; [done|]. cbn [mapE mapM].
  destruct (f x) as [y|]; [|done]. cbn. rewrite IH.
  by destruct (mapM f l).
Qed.

Lemma foldlE_join {A B} (f : A → B → Result A) (a : A) (ls : list (list B)) :
  foldlE (λ a l, foldlE f a l) a ls = foldlE f a (mjoin ls).
Proof.
  revert a. induction ls as [|l ls IH]; intros a; [done|].
  change (mjoin (l :: ls)) with (l ++ mjoin ls). rewrite foldlE_app.
  cbn [foldlE]. destruct (foldlE f a l) as [e|a1]; [done|]. apply IH.
Qed.

Lemma foldlE_fmap {A B C} (g : C → B) (f : A → B → Result A) (a : A)
    (l : list C) :
  foldlE (λ a x, f a (g x)) a l = foldlE f a (g <$> l).
Proof.
  revert a. induction l as [|x l IH]; intros a; [done|].
  cbn [foldlE fmap list_fmap]. destruct (f a (g x)) as [e|a1]; [done|].
  apply IH.
Qed.

Module Negatives.
Import Interactive.

(** The pairs of [itertools.product(possible, positive_examples)]. *)
Definition product (possible positive_examples : list Array)
    : list (Array * Array) :=
  ex' ← possible; pos ← positive_examples; [(ex', pos)].

Lemma product_scan_app (l1 l2 : list (Array * Array)) (ex : option Array) :
  product_scan (l1 ++ l2) ex
  = match product_scan l1 ex with
    | (e, true) => (e, true)
    | (e, false) => product_scan l2 e
    end.
Proof.
  revert ex. induction l1 as [|[x pos] l1 IH]; intros ex; [done|].
  cbn [app product_scan]. destruct (array_equal x pos); [done|]. apply IH.
Qed.

Lemma product_scan_row (x : Array) (positives : list Array)
    (ex : option Array) :
  product_scan (pos ← positives; [(x, pos)]) ex
  = if existsb (array_equal x) positives then (Some x, true)
    else (match positives with [] => ex | _ => Some x end, false).
Proof.
  revert ex. induction positives as [|pos positives IH]; intros ex; [done|].
  change (product_scan ((x, pos) :: (pos ← positives; [(x, pos)])) ex
          = if array_equal x pos || existsb (array_equal x) positives
            then (Some x, true) else (Some x, false)).
  cbn [product_scan]. destruct (array_equal x pos); [done|].
  rewrite IH. cbn [orb]. destruct (existsb _ _); [done|].
  by destruct positives.
Qed.

(** The loop variable once the loop has ended without a [break]. *)
Definition loop_variable (possible positives : list Array)
    (ex : option Array) : option Array :=
  match positives with
  | [] => ex
  | _ => from_option Some ex (last possible)
  end.

Lemma product_scan_product (possible positives : list Array)
    (ex : option Array) :
  product_scan (product possible positives) ex
  = match find (λ x, existsb (array_equal x) positives) possible with
    | Some x => (Some x, true)
    | None => (loop_variable possible positives ex, false)
    end.
Proof.
  unfold product, loop_variable.
  revert ex. induction possible as [|x possible IH]; intros ex.
  - cbn. by destruct positives.
  - rewrite bind_cons, product_scan_app, product_scan_row. cbn [find].
    destruct (existsb (array_equal x) positives); [done|].
    rewrite IH. destruct (find _ possible); [done|].
    destruct positives as [|pos positives]; [done|].
    f_equal. rewrite last_cons. by destruct (last possible).
Qed.

Lemma combinations_vectors (state : State) (types : list Ty) :
  is_Some (mapM (vec state)
             (get_object_combinations (state_objects state) types)).
Proof.
  apply mapM_is_Some_2, Forall_forall. intros choice Hchoice.
  by eapply vec_combination.
Qed.

Lemma negatives_of_state_scan (pred : Predicate)
    (positive_examples negative_examples possible : list Array)
    (ex : option Array) (state : State) :
  mapM (vec state)
       (get_object_combinations (state_objects state) (pred_types pred))
  = Some possible →
  negatives_of_state pred positive_examples (negative_examples, ex) state
  = match product_scan (product possible positive_examples) ex with
    | (ex, true) => inr (negative_examples, ex)
    | (Some ex, false) => inr (negative_examples ++ [ex], Some ex)
    | (None, false) => inl UnboundLocalError
    end.
Proof.
  intros Hpossible. unfold negatives_of_state.
  by rewrite mapE_or_raise, Hpossible.
Qed.

(** X21. A state gives at most one negative example.  The vectors of
    its object combinations are always defined; if one of them equals a
    positive example, the state gives none; otherwise it gives the value
    the loop variable is left with: its last combination, or when there
    is no combination or no positive example, the value left by an
    earlier state, and [UnboundLocalError] if there is none. *)
Theorem one_negative_per_state (pred : Predicate)
    (positive_examples negative_examples : list Array)
    (ex : option Array) (state : State) :
  ∃ possible,
    mapM (vec state)
         (get_object_combinations (state_objects state) (pred_types pred))
    = Some possible
    ∧ negatives_of_state pred positive_examples (negative_examples, ex) state
      = match find (λ x, existsb (array_equal x) positive_examples)
                   possible with
        | Some x => inr (negative_examples, Some x)
        | None =>
            match loop_variable possible positive_examples ex with
            | Some x => inr (negative_examples ++ [x], Some x)
            | None => inl UnboundLocalError
            end
        end.
Proof.
  destruct (combinations_vectors state (pred_types pred))
    as [possible Hpossible].
  exists possible. split; [done|].
  rewrite (negatives_of_state_scan _ _ _ _ _ _ Hpossible).
  rewrite product_scan_product.
  destruct (find _ possible); [done|].
  by destruct (loop_variable _ _ _).
Qed.

Section Relearn.
Context `{Collaborators}.

Lemma negatives_of_first_state (pred : Predicate) (s : State) :
  negatives_of_state pred [] ([], None) s = inl UnboundLocalError.
Proof.
  destruct (combinations_vectors s (pred_types pred))
    as [possible Hpossible].
  rewrite (negatives_of_state_scan _ _ _ _ _ _ Hpossible).
  rewrite product_scan_product.
  assert (find (λ x, existsb (array_equal x) []) possible = None) as ->.
  { clear. by induction possible. }
  done.
Qed.

Lemma negatives_without_positives (pred : Predicate) (dataset : Dataset) :
  negative_examples_of dataset pred [] None
  = match mjoin dataset.*1 with
    | [] => inr ([], None)
    | _ => inl UnboundLocalError
    end.
Proof.
  unfold negative_examples_of.
  rewrite (foldlE_fmap fst
             (λ acc ss, foldlE (negatives_of_state pred []) acc ss)).
  rewrite foldlE_join.
  destruct (mjoin dataset.*1) as [|s states]; [done|].
  cbn [foldlE]. by rewrite negatives_of_first_state.
Qed.

(** X22. Relearning always raises when the first predicate to learn
    has no positive example: [UnboundLocalError], from the loop
    variable that was never bound, when the dataset has a state, and
    [IndexError], from the shape of an empty array, when it has
    none. *)
Theorem relearn_without_positives_raises
    (self : InteractiveLearningApproach) (pred : Predicate)
    (rest : list Predicate) :
  elements (_predicates_to_learn self) = pred :: rest →
  pred ∉ _known_predicates self →
  positive_examples_of (_dataset self) (_ground_atom_dataset self) pred
  = inr [] →
  _relearn_predicates self
  = inl (match mjoin (_dataset self).*1 with
         | [] => IndexError
         | _ => UnboundLocalError
         end).
Proof.
  intros Hfirst Hknown Hpositives. unfold _relearn_predicates.
  rewrite Hfirst. cbn [foldlE].
  assert (relearn_predicate (self, None) pred
          = inl (match mjoin (_dataset self).*1 with
                 | [] => IndexError
                 | _ => UnboundLocalError
                 end)) as ->; [|done].
  unfold relearn_predicate.
  rewrite decide_False by done. rewrite Hpositives.
  cbn [mbind Result_bind]. rewrite negatives_without_positives.
  by destruct (mjoin (_dataset self).*1).
Qed.
End Relearn.
End Negatives.

(** ** The tasks of [glib_sample] *)

Lemma slice_to_length {A} (n : Z) (l : list A) :
  length (slice_to n l)
  = if bool_decide (n < 0)%Z then length l - Z.to_nat (- n)
    else Z.to_nat n `min` length l.
Proof.
  unfold slice_to. case_bool_decide; rewrite length_take; lia.
Qed.

Lemma StronglySorted_fmap {A B} (R : A → A → Prop) (R' : B → B → Prop)
    (f : A → B) (l : list A) :
  (∀ x y, x ∈ l → y ∈ l → R x y → R' (f x) (f y)) →
  StronglySorted R l → StronglySorted R' (f <$> l).
Proof.
  intros Hf Hs. induction Hs as [|x l Hl IH Hx]; [constructor|].
  rewrite fmap_cons. constructor.
  - apply IH. intros y z Hy Hz. apply Hf; by right.
  - apply Forall_fmap, Forall_forall. intros y Hy.
    apply Hf; [by left|by right|]. by eapply Forall_forall in Hx.
Qed.

Module Glib.
Import Interactive.

Section Glib.
Context `{Collaborators}.
Variables
  (ICFG : InteractiveSettings)
  (all_possible_ground_atoms : State → gset Predicate → list GroundAtom)
  (choice_one : Rng → Z → option (nat * Rng)).

Abbreviation babble := (Interactive.babble ICFG choice_one).
Abbreviation glib_sample :=
  (Interactive.glib_sample ICFG all_possible_ground_atoms choice_one).

(** A babbled goal with its score. *)
Definition babbled (ground_atom_dataset : GroundAtomDataset)
    (ground_atoms : list GroundAtom) (g : gset GroundAtom * float) : Prop :=
  g.2 = score_goal ground_atom_dataset g.1
  ∧ g.1 ⊆ list_to_set ground_atoms.

Lemma babble_step ground_atom_dataset ground_atoms goals rng acc' :
  babble ground_atom_dataset ground_atoms (goals, rng) = inr acc' →
  ∃ g rng', acc' = (goals ++ [g], rng')
            ∧ babbled ground_atom_dataset ground_atoms g.
Proof.
  unfold Interactive.babble.
  destruct (choice_one rng _) as [[k rng1]|]; [|done].
  cbn [or_raise mbind Result_bind].
  destruct (choice rng1 _ _) as [[idxs rng2]|]; [|done].
  cbn [or_raise mbind Result_bind].
  destruct (mapM _ idxs) as [atoms|] eqn:Hatoms; [|done].
  cbn [or_raise mbind Result_bind mret Result_ret].
  intros [= <-]. eexists _, _. split; [done|]. split; [done|]. cbn [fst].
  intros a Ha%elem_of_list_to_set. apply elem_of_list_to_set.
  apply mapM_Some in Hatoms.
  apply list_elem_of_lookup in Ha as [i Hi].
  destruct (Forall2_lookup_r _ _ _ _ _ Hatoms Hi) as (j & _ & Hj).
  by eapply list_elem_of_lookup_2.
Qed.

Lemma babble_loop ground_atom_dataset ground_atoms {A} (l : list A) :
  ∀ acc acc',
    foldlE (λ acc _, babble ground_atom_dataset ground_atoms acc) acc l
    = inr acc' →
    length acc'.1 = length acc.1 + length l
    ∧ (Forall (babbled ground_atom_dataset ground_atoms) acc.1 →
       Forall (babbled ground_atom_dataset ground_atoms) acc'.1).
Proof.
  induction l as [|x l IH]; intros [goals rng] acc'; cbn [foldlE].
  - intros [= <-]. split; [cbn; lia|done].
  - destruct (babble _ _ (goals, rng)) as [e|acc1] eqn:Hstep; [done|].
    apply babble_step in Hstep as (g & rng' & -> & Hg).
    cbn [mbind Result_bind].
    intros [Hlen Hall]%IH. cbn [fst] in *. split.
    + rewrite Hlen, length_app. cbn. lia.
    + intros Hgoals. apply Hall, Forall_app. split; [done|].
      by constructor.
Qed.

(** X23. When [glib_sample] returns, its tasks all start in the given
    state; their goals are sets of atoms possible in that state; they
    come by goal score, highest first; and there are as many as the
    slice [goals[:interactive_num_tasks_babbled]] keeps of
    [interactive_num_babbles] goals, none when the number of babbles is
    not positive. *)
Theorem glib_sample_tasks (initial_state : State)
    (predicates : gset Predicate)
    (ground_atom_dataset : GroundAtomDataset) (tasks : list Task) :
  glib_sample initial_state predicates ground_atom_dataset = inr tasks →
  let babbles := Z.to_nat (interactive_num_babbles ICFG) in
  let keep := interactive_num_tasks_babbled ICFG in
  ∃ goals : list (gset GroundAtom),
    tasks = mkTask initial_state <$> goals
    ∧ length goals
      = (if bool_decide (keep < 0)%Z then babbles - Z.to_nat (- keep)
         else Z.to_nat keep `min` babbles)
    ∧ Forall (λ g, g ⊆ list_to_set
                         (all_possible_ground_atoms initial_state
                            predicates)) goals
    ∧ StronglySorted
        (λ g g', SFleb (score_goal ground_atom_dataset g')
                       (score_goal ground_atom_dataset g) = true) goals.
Proof.
  unfold Interactive.glib_sample.
  destruct (decide (interactive_atom_type_babbled ICFG = "ground"))
    as [_|_]; [|done].
  destruct (foldlE _ _ _) as [err|[goals rng]] eqn:Hloop; [done|].
  cbn [mbind Result_bind mret Result_ret]. intros [= <-].
  set (keep := interactive_num_tasks_babbled ICFG).
  apply babble_loop in Hloop as [Hlen Hall]. cbn [fst length] in Hlen, Hall.
  rewrite length_seq in Hlen. specialize (Hall (Forall_nil_2 _)).
  set (sorted := sort_reverse snd goals).
  assert (Forall (babbled ground_atom_dataset
                    (all_possible_ground_atoms initial_state predicates))
                 sorted) as Hsorted.
  { unfold sorted. by rewrite sort_reverse_Permutation. }
  assert (StronglySorted (decreasing snd) sorted) as Hdecr.
  { apply sort_reverse_sorted, Forall_forall. intros g Hg.
    eapply Forall_forall in Hall as [-> _]; [|exact Hg].
    apply score_goal_nonneg. }
  destruct (slice_to_take keep sorted) as (m & Hslice & _).
  assert (sublist (slice_to keep sorted) sorted) as Hsub.
  { rewrite Hslice. apply sublist_take. }
  exists (slice_to keep sorted).*1. split_and!.
  - by rewrite <-list_fmap_compose.
  - assert (length sorted = Z.to_nat (interactive_num_babbles ICFG))
      as Hsorted_len.
    { unfold sorted. by rewrite sort_reverse_Permutation, Hlen. }
    by rewrite length_fmap, slice_to_length, Hsorted_len.
  - apply Forall_fmap, Forall_forall. intros g Hg.
    eapply Forall_forall in Hsorted as [_ Hatoms]; [exact Hatoms|].
    by eapply elem_of_sublist.
  - eapply (StronglySorted_fmap (decreasing snd)).
    + intros g g' Hg Hg' Hle. unfold decreasing in Hle.
      eapply Forall_forall in Hsorted as Hscore;
        [|eapply elem_of_sublist; [exact Hg|exact Hsub]].
      eapply Forall_forall in Hsorted as Hscore';
        [|eapply elem_of_sublist; [exact Hg'|exact Hsub]].
      destruct Hscore as [<- _], Hscore' as [<- _]. exact Hle.
    + by eapply StronglySorted_sublist.
Qed.
End Glib.
End Glib.

(** ** The further properties at work on the scenario *)

Import Scenario.

(** X1 on the two trajectories of the scenario. *)
Lemma generate_transitions_filed_witness :
  NoDup [(dummy, Divergence.ts0)].*1
  ∧ ∀ o ts, (o, ts) ∈ [(dummy, Divergence.ts0)] →
      ts ≠ []
      ∧ ∀ t, t ∈ ts →
          parent (t_option t) = o
          ∧ t_atoms t = utils_abstract cls0 (t_state t) predicates
          ∧ t_next_atoms t = utils_abstract cls0 (t_next_state t) predicates.
Proof.
  apply (generate_transitions_filed cls0 predicates dataset).
  by_computation (Some [(dummy, Divergence.ts0)]).
Defined.

(** X2 on the same trajectories: the transitions of [dummy] are the steps
    of the two trajectories, in order. *)
Lemma generate_transitions_steps_witness :
  (λ t, (t_state t, t_next_state t, t_option t))
    <$> default [] (dict_lookup [(dummy, Divergence.ts0)] dummy)
  = filter (λ st, parent st.2 = dummy)
      ([([state_low; state_high], [dummy_option]);
        ([state_low; state_low], [dummy_option])]
         ≫= λ traj, zip (zip traj.1 (tail traj.1)) traj.2).
Proof.
  apply (generate_transitions_steps cls0 predicates dataset).
  - by_computation (Some [([state_low; state_high], [dummy_option]);
                          ([state_low; state_low], [dummy_option])]).
  - by_computation (Some [(dummy, Divergence.ts0)]).
Defined.

(** X5: after the transition that adds [Pred0(cup0)], the transition that
    changes nothing unifies with no partition and founds the second. *)
Lemma partition_transitions_first_fit_witness :
  (∃ i part sub,
     [Divergence.part0] !! i = Some part
     ∧ unify_with transition2 part = (true, sub)
     ∧ (∀ j part', j < i → [Divergence.part0] !! j = Some part' →
          (unify_with transition2 part').1 = false)
     ∧ _partition_transitions ([transition1] ++ [transition2])
       = Some (<[i := joined part transition2 sub]> [Divergence.part0]))
  ∨ ((∀ part, part ∈ [Divergence.part0] →
        (unify_with transition2 part).1 = false)
     ∧ ∃ part,
         new_partition transition2 = Some part
         ∧ part_transitions part = [(transition2, fresh_sub transition2)]
         ∧ _partition_transitions ([transition1] ++ [transition2])
           = Some ([Divergence.part0] ++ [part])).
Proof.
  apply (partition_transitions_first_fit [transition1] transition2).
  by_computation (Some [Divergence.part0]).
Defined.

(** X6: the partition of the first transition stays when the second
    follows. *)
Lemma partition_transitions_continue_witness :
  ∃ part', [Divergence.part0; Divergence.part1] !! 0 = Some part'
           ∧ part_option_args part' = part_option_args Divergence.part0
           ∧ part_add_effects part' = part_add_effects Divergence.part0
           ∧ part_delete_effects part' = part_delete_effects Divergence.part0
           ∧ part_transitions Divergence.part0
               `prefix_of` part_transitions part'.
Proof.
  apply (partition_transitions_continue [transition1] [transition2]
           [Divergence.part0] [Divergence.part0; Divergence.part1]).
  - by_computation (Some [Divergence.part0]).
  - by_computation (Some [Divergence.part0; Divergence.part1]).
  - reflexivity.
Defined.

(** X7 on the first partition of the scenario. *)
Lemma partition_founder_round_trip_witness :
  ∃ t sub rest,
    part_transitions Divergence.part0 = (t, sub) :: rest
    ∧ (∀ o, is_Some (sub !! o) ↔ o ∈ effect_objects t)
    ∧ (∀ o v, sub !! o = Some v → var_type v = obj_type o)
    ∧ (∀ o1 o2 v, sub !! o1 = Some v → sub !! o2 = Some v → o1 = o2)
    ∧ set_mapM (lift sub) (t_add_effects t)
      = Some (part_add_effects Divergence.part0)
    ∧ set_mapM (lift sub) (t_delete_effects t)
      = Some (part_delete_effects Divergence.part0)
    ∧ set_mapM (ground (invert_sub sub)) (part_add_effects Divergence.part0)
      = Some (t_add_effects t)
    ∧ set_mapM (ground (invert_sub sub))
        (part_delete_effects Divergence.part0)
      = Some (t_delete_effects t)
    ∧ mapM (λ v, invert_sub sub !! v) (part_option_args Divergence.part0)
      = Some (opt_objects (t_option t)).
Proof.
  apply (partition_founder_round_trip Divergence.ts0
           [Divergence.part0; Divergence.part1]).
  - by_computation (Some [Divergence.part0; Divergence.part1]).
  - apply list_elem_of_here.
Defined.

(** X8 on the operators of the scenario. *)
Lemma operators_named_apart_witness :
  NoDup (op_name <$> [Divergence.operator0 ∅])
  ∧ length [Divergence.operator0 ∅] ≤ length Divergence.ts0
  ∧ ∃ indices,
      op_name <$> [Divergence.operator0 ∅]
      = (λ i, opt_name dummy +:+ pretty i) <$> indices
      ∧ StronglySorted lt indices.
Proof.
  apply (operators_named_apart cls0 dummy Divergence.ts0 false).
  by_computation (Some [Divergence.operator0 ∅]).
Defined.

(** An option without parameters, a transition under it, and the operator
    learned from that transition. *)
Definition still : ParameterizedOption :=
  mkParameterizedOption "still" [] (mkBox [] []).

Definition transition_still : Transition :=
  let atoms := utils_abstract cls0 state_low predicates in
  let next_atoms := utils_abstract cls0 state_high predicates in
  mkTransition state_low state_high atoms (mkGroundOption still [] [])
               next_atoms (next_atoms ∖ atoms) (atoms ∖ next_atoms).

Definition operator_still : Operator :=
  mkOperator (opt_name still +:+ pretty 0) [Divergence.x0] ∅
             {[Divergence.lifted0]} ∅ still [] (RandomSampler still).

(** X9: asked to learn a sampler for the option without parameters, the
    learner returns the operator with the random sampler. *)
Lemma no_sampler_without_parameters_witness :
  learn_operators_for_option cls0 still [transition_still] false
  = Some [operator_still]
  ∧ ∀ op, op ∈ [operator_still] → _sampler op = RandomSampler still.
Proof.
  apply (no_sampler_without_parameters cls0 still [transition_still] true).
  - reflexivity.
  - by_computation (Some [operator_still]).
Defined.

(** The unifier that tries the naming of a new partition is sound. *)
Lemma naming_unifier_sound : unify_sound (H := Naming.naming_collaborators).
Proof.
  intros ground_atoms lifted_atoms sub. simpl.
  unfold Naming.naming_unifier. case_decide; [|done]. by intros [= <-].
Defined.

(** The operator learned from the two transitions that delete
    [Pred0(cup0)]. *)
Definition operator3 : @Operator Naming.naming_collaborators :=
  mkOperator (opt_name dummy +:+ pretty 0) [Divergence.x0]
             {[Divergence.lifted0]} ∅ {[Divergence.lifted0]} dummy []
             (RandomSampler dummy).

(** X10 on that operator. *)
Lemma operator_variables_are_parameters_witness :
  (∀ l v, l ∈ preconditions operator3 ∪ add_effects operator3
              ∪ delete_effects operator3 →
          v ∈ variables l → v ∈ parameters operator3)
  ∧ (∀ v, v ∈ option_vars operator3 → v ∈ parameters operator3).
Proof.
  apply (operator_variables_are_parameters (H := Naming.naming_collaborators)
           cls0 dummy [transition3; transition3] false [operator3]
           naming_unifier_sound).
  - by_computation (Some [operator3]).
  - apply list_elem_of_here.
Defined.

(** X11: abstracting the trajectories of the scenario with two invented
    predicates more gives the stored transitions re-abstracted. *)
Lemma reabstract_all_regenerates_witness :
  generate_transitions
    (with_classifier (with_classifier cls0 (Divergence.candidate 0))
       (Divergence.candidate 1))
    dataset
    (predicates ∪ {[(Divergence.candidate 0).1; (Divergence.candidate 1).1]})
  = Some (reabstract_all
            (with_classifier (with_classifier cls0 (Divergence.candidate 0))
               (Divergence.candidate 1))
            (Divergence.candidate 0).1 (Divergence.candidate 1).1
            [(dummy, Divergence.ts0)]).
Proof.
  apply (reabstract_all_regenerates cls0 predicates (Divergence.candidate 0)
           (Divergence.candidate 1)).
  - apply not_elem_of_singleton. discriminate.
  - apply not_elem_of_singleton. discriminate.
  - by_computation (Some [(dummy, Divergence.ts0)]).
Defined.

(** X12 on the operator of the scenario, which mispredicts the second
    transition: the invented predicate is named after the counter and is
    over a cup. *)
Lemma invented_predicate_signature_witness :
  pred_name (Divergence.candidate 0).1
  = "InventedPredicate-" +:+ pretty (_num_inventions approach0)
  ∧ ∃ params,
      params ≠ [] ∧ sublist params (parameters (Divergence.operator0 ∅))
      ∧ pred_types (Divergence.candidate 0).1 = var_type <$> params.
Proof.
  apply (invented_predicate_signature approach0 (Divergence.operator0 ∅)
           Divergence.ts0).
  by_computation (Some (Some (Divergence.candidate 0))).
Defined.

(** *** The interactive approach on the scenario

    Settings of an interactive run, the atoms possible in a state, a draw
    of an index that always gives the first, the classifier of a stripped
    predicate, and a new approach for the predicates of the scenario, none
    of which it knows. *)
Definition asking (strategy : string) (threshold pct : Number)
    : InteractiveSettings :=
  mkInteractiveSettings ∅ "ground" 2 1 1 strategy threshold pct.

Definition possible_atoms (s : State) (preds : gset Predicate)
    : list GroundAtom :=
  p ← elements preds;
  mkGroundAtom p <$> get_object_combinations (state_objects s) (pred_types p).

Definition draw_first `{Collaborators} (rng : Rng) (n : Z)
    : option (nat * Rng) :=
  if bool_decide (0 < n)%Z then Some (0, rng) else None.

Definition stripped (s : State) (objs : list Object) : bool := false.

Definition learner `{Collaborators} (ICFG : InteractiveSettings)
    : Interactive.InteractiveLearningApproach :=
  Interactive.init ICFG stripped cls0 predicates (default_rng 0).

(** X15 with the threshold 0.0 on the four states of the scenario. *)
Lemma threshold_not_positive_asks_all_witness :
  Interactive._get_states_to_ask
    (asking "threshold" (Float (float_of_Z 0)) (Int 0))
    (learner (asking "threshold" (Float (float_of_Z 0)) (Int 0))) dataset
  = inr (mjoin dataset.*1).
Proof.
  apply (StatesToAsk.threshold_not_positive_asks_all
           (asking "threshold" (Float (float_of_Z 0)) (Int 0))
           (learner (asking "threshold" (Float (float_of_Z 0)) (Int 0)))
           dataset (float_of_Z 0)).
  - reflexivity.
  - reflexivity.
  - reflexivity.
Defined.

(** X16 with 50 percent of the four states of the scenario: two states are
    asked about. *)
Lemma top_k_percent_asks_best_witness :
  ∃ asked left_out,
    Interactive._get_states_to_ask
      (asking "top_k_percent" (Int 0) (Float (float_of_Z 50)))
      (learner (asking "top_k_percent" (Int 0) (Float (float_of_Z 50))))
      dataset
    = inr asked
    ∧ length asked = Z.to_nat 2 `min` length (mjoin dataset.*1)
    ∧ asked ++ left_out ≡ₚ mjoin dataset.*1
    ∧ ∀ s s', s ∈ asked → s' ∈ left_out →
        SFleb
          (StatesToAsk.state_score
             (learner (asking "top_k_percent" (Int 0) (Float (float_of_Z 50))))
             s')
          (StatesToAsk.state_score
             (learner (asking "top_k_percent" (Int 0) (Float (float_of_Z 50))))
             s)
        = true.
Proof.
  apply (StatesToAsk.top_k_percent_asks_best
           (asking "top_k_percent" (Int 0) (Float (float_of_Z 50)))
           (learner (asking "top_k_percent" (Int 0) (Float (float_of_Z 50))))
           dataset (float_of_Z 50) 2).
  - reflexivity.
  - reflexivity.
  - by_computation (Some 2%Z).
  - lia.
Defined.

(** X17: asked whether [Pred0(cup0)] holds where the feature of the cup is
    0.9, the teacher says what the classifier of [Pred0] says. *)
Lemma teacher_answers_witness :
  Interactive._ask_teacher
    (learner (asking "all_seen_states" (Int 0) (Int 0)))
    state_high Divergence.pred0_cup0
  = inr (cls0 pred0 state_high [cup0]).
Proof.
  apply (proj1 (TeacherProps.teacher_answers
                  (asking "all_seen_states" (Int 0) (Int 0)) stripped cls0
                  predicates (default_rng 0) state_high Divergence.pred0_cup0
                  ltac:(intros p q ->%elem_of_singleton ->%elem_of_singleton;
                        reflexivity))
          pred0).
  - apply elem_of_singleton. reflexivity.
  - reflexivity.
Defined.

(** A teacher that labels every atom, and what loading one state in which
    [Pred0(cup0)] holds comes to. *)
Definition loaded
    : @Interactive.InteractiveLearningApproach teacher_collaborators
      * Result () :=
  Interactive._load_dataset (H := teacher_collaborators)
    (learner (asking "all_seen_states" (Int 0) (Int 0)))
    [([state_high], [])].

(** X18: after that load, a second one raises. *)
Lemma load_dataset_once_witness :
  (∀ dataset',
     Interactive._load_dataset loaded.1 dataset'
     = (loaded.1, inl AssertionError))
  ∧ (∀ e, loaded.2 = inl e →
       Interactive._dataset loaded.1
       = Interactive._dataset
           (learner (asking "all_seen_states" (Int 0) (Int 0)))
       ∧ Interactive._ground_atom_dataset loaded.1
         = Interactive._ground_atom_dataset
             (learner (asking "all_seen_states" (Int 0) (Int 0)))).
Proof.
  apply (TeacherProps.load_dataset_once (H := teacher_collaborators)
           (learner (asking "all_seen_states" (Int 0) (Int 0)))
           loaded.1 [([state_high], [])] loaded.2).
  apply surjective_pairing.
Defined.

Lemma loaded_returns : loaded.2 = inr ().
Proof. by_computation (@inr Exception () ()). Defined.

(** X19: the positive examples of [Pred0] after that load. *)
Lemma offline_positive_examples_witness :
  ∃ positives,
    Interactive.positive_examples_of (Interactive._dataset loaded.1)
      (Interactive._ground_atom_dataset loaded.1) pred0
    = inr positives
    ∧ ∀ x, x ∈ positives →
        ∃ s objs, s ∈ mjoin [([state_high], @nil Action)].*1
                  ∧ pred0 ∈ predicates
                  ∧ (pred_name pred0
                       ∉ interactive_known_predicates
                           (asking "all_seen_states" (Int 0) (Int 0)))
                  ∧ cls0 pred0 s objs = true
                  ∧ vec s objs = Some x.
Proof.
  apply (TeacherProps.offline_positive_examples (H := teacher_collaborators)
           (asking "all_seen_states" (Int 0) (Int 0)) stripped cls0
           predicates (default_rng 0) [([state_high], [])] loaded.1 pred0).
  rewrite <-loaded_returns. apply surjective_pairing.
Defined.

(** The approach after the teacher was asked about one state in which
    [Pred0(cup0)] holds. *)
Definition asked_learner : Interactive.InteractiveLearningApproach :=
  match Interactive.ask_teacher_about
          (asking "all_seen_states" (Int 0) (Int 0)) possible_atoms
          draw_first (learner (asking "all_seen_states" (Int 0) (Int 0)))
          [([state_high], [])] with
  | inr self => self
  | inl _ => learner (asking "all_seen_states" (Int 0) (Int 0))
  end.

(** X20 on that question, which the teacher answers yes. *)
Lemma asked_states_recorded_witness :
  ∃ states asked,
    Interactive._get_states_to_ask
      (asking "all_seen_states" (Int 0) (Int 0))
      (learner (asking "all_seen_states" (Int 0) (Int 0)))
      [([state_high], [])]
    = inr states
    ∧ sublist asked.*1 states
    ∧ Forall (TeacherProps.answered_yes possible_atoms
                (learner (asking "all_seen_states" (Int 0) (Int 0)))) asked
    ∧ Interactive._dataset asked_learner
      = Interactive._dataset
          (learner (asking "all_seen_states" (Int 0) (Int 0)))
        ++ [([state_high], [])] ++ ((λ sa, ([sa.1], [])) <$> asked)
    ∧ Interactive._ground_atom_dataset asked_learner
      = Interactive._ground_atom_dataset
          (learner (asking "all_seen_states" (Int 0) (Int 0)))
        ++ ((λ sa, [ {[sa.2]} ]) <$> asked)
    ∧ Interactive._known_predicates asked_learner
      = Interactive._known_predicates
          (learner (asking "all_seen_states" (Int 0) (Int 0)))
    ∧ Interactive._predicates_to_learn asked_learner
      = Interactive._predicates_to_learn
          (learner (asking "all_seen_states" (Int 0) (Int 0)))
    ∧ Interactive._teacher asked_learner
      = Interactive._teacher
          (learner (asking "all_seen_states" (Int 0) (Int 0)))
    ∧ Interactive.classifiers asked_learner
      = Interactive.classifiers
          (learner (asking "all_seen_states" (Int 0) (Int 0))).
Proof.
  apply (TeacherProps.asked_states_recorded
           (asking "all_seen_states" (Int 0) (Int 0)) possible_atoms
           draw_first (learner (asking "all_seen_states" (Int 0) (Int 0)))
           asked_learner [([state_high], [])]).
  by_computation (@inr Exception _ asked_learner).
Defined.

(** X22: a new approach that has seen no data cannot relearn [Pred0]. *)
Lemma relearn_without_positives_raises_witness :
  Interactive._relearn_predicates
    (learner (asking "all_seen_states" (Int 0) (Int 0)))
  = inl IndexError.
Proof.
  apply (Negatives.relearn_without_positives_raises
           (learner (asking "all_seen_states" (Int 0) (Int 0))) pred0 []).
  - by_computation [pred0].
  - apply (bool_decide_unpack _). vm_cast_no_check I.
  - reflexivity.
Defined.

(** X23: two babbles over the one atom possible where the feature of the
    cup is 0.9, of which one task is kept. *)
Lemma glib_sample_tasks_witness :
  ∃ goals : list (gset GroundAtom),
    [mkTask state_high {[Divergence.pred0_cup0]}] = mkTask state_high <$> goals
    ∧ length goals
      = (if bool_decide (1 < 0)%Z then Z.to_nat 2 - Z.to_nat (- 1)
         else Z.to_nat 1 `min` Z.to_nat 2)
    ∧ Forall (λ g, g ⊆ list_to_set (possible_atoms state_high predicates))
             goals
    ∧ StronglySorted
        (λ g g', SFleb (score_goal [] g') (score_goal [] g) = true) goals.
Proof.
  apply (Glib.glib_sample_tasks
           (asking "all_seen_states" (Int 0) (Int 0)) possible_atoms
           draw_first state_high predicates []
           [mkTask state_high {[Divergence.pred0_cup0]}]).
  by_computation (@inr Exception _
                    [mkTask state_high {[Divergence.pred0_cup0]}]).
Defined.
